(** * Task manager: the task record, the two storage back ends, the task
    service, the formatters and the command handlers

    A shallow embedding of [task_manager/task.py], [task_manager/storage.py],
    [task_manager/service.py], [task_manager/formatter.py] and the handlers of
    [task_manager/cli.py].

    Modelling choices.
    - Python objects live on a heap: a [Task] instance is a location, and the
      lists handed around by the storage and the service are lists of
      locations.  [InMemoryStorage] keeps [tasks.copy()], a shallow copy, so the
      objects it stores are shared with whoever holds a reference to them;
      [JSONStorage] builds fresh objects on every [load].
    - The fields of a task carry the types of the dataclass annotations
      ([str], [Optional[str]], [bool]).  [str.lower] is modelled on ASCII
      text, where it changes the letters A to Z only; the statements about
      the search ask for ASCII text.
    - The heap keeps of an object its seven fields.  [setattr] under a name
      that is no field stores an instance attribute, which changes no field;
      the program reads such an attribute again in one place only, the call
      [task.to_dict()] of [JSONStorage.save], so [update_task] passes to the
      save that ends it the object whose method the update set has hidden.
      The values of keyword arguments are strings, booleans and [None].
    - The JSON text layer ([json.dump] / [json.load]) is abstracted: a file is
      either absent, malformed, or holds an array of JSON objects.
    - An exception aborts the running operation and leaves the world as it was
      when it was raised.
    - The text the formatters build is a string of bytes, the UTF-8 encoding
      of the Python string; [str.upper] is modelled on the ASCII letters.
    - A command handler runs on the parsed arguments of [argparse]; what it
      prints is a list of lines, each on the output or on the error stream,
      and it ends by returning, by an exception, or by [sys.exit]. *)

From Stdlib Require Import ZArith Ascii String.
From stdpp Require Import base option list list_monad strings gmap pretty.

Open Scope Z_scope.

(** ** Python values that occur as field values and in the JSON file *)

Inductive pyval :=
| PNone
| PBool (b : bool)
| PStr (s : string).

#[global] Instance pyval_eq_dec : EqDecision pyval.
Proof. solve_decision. Defined.

(** ** task.py *)

Record Task := mkTask {
  title : string;
  description : string;
  priority : string;
  due_date : option string;
  completed : bool;
  id : string;
  created_at : string
}.

#[global] Instance Task_eq_dec : EqDecision Task.
Proof. solve_decision. Defined.

(** [valid_priorities] of [Task.__post_init__]. *)
Definition valid_priorities : list string := ["low"; "medium"; "high"]%string.

(** The names of the dataclass fields, the keywords [Task(...)] accepts. *)
Definition field_names : list string :=
  ["title"; "description"; "priority"; "due_date"; "completed"; "id";
   "created_at"]%string.

(** [Task.to_dict]. *)
Definition to_dict (t : Task) : gmap string pyval :=
  <["id" := PStr (id t)]>
  (<["title" := PStr (title t)]>
  (<["description" := PStr (description t)]>
  (<["priority" := PStr (priority t)]>
  (<["due_date" := from_option PStr PNone (due_date t)]>
  (<["completed" := PBool (completed t)]>
  (<["created_at" := PStr (created_at t)]> ∅)))))).

(** ** Exceptions and results *)

Inductive exn :=
| ValueError      (* Task.__post_init__: priority outside valid_priorities *)
| TypeError       (* Task called with an unexpected keyword or without title;
                     a call of a value that is no function; [setattr] of
                     [__class__] or [__dict__] with a value of another kind *)
| AttributeError  (* [setattr] of an attribute that cannot be written *)
| IOError         (* JSONStorage: malformed file *)
| IllTyped        (* a value outside the annotated type of its field *)
| DanglingRef.    (* a location that is not on the heap *)

Inductive result (A : Type) :=
| Ok (a : A)
| Raise (e : exn).
Arguments Ok {A} a.
Arguments Raise {A} e.

(** ** storage.py: the state of a storage object *)

Inductive file_contents :=
| Malformed
| JsonArray (data : list (gmap string pyval)).

Inductive storage :=
| InMemoryStorage (_tasks : list nat)
| JSONStorage (file : option file_contents).

(** ** The world: heap of task objects, the storage, the sources of fresh
    identifiers and timestamps *)

Record world := mkWorld {
  heap : list Task;
  store : storage;
  uuid_src : nat → string;
  clock_src : nat → string;
  ticks : nat
}.

Definition set_heap (h : list Task) (w : world) : world :=
  mkWorld h (store w) (uuid_src w) (clock_src w) (ticks w).
Definition set_store (s : storage) (w : world) : world :=
  mkWorld (heap w) s (uuid_src w) (clock_src w) (ticks w).
Definition set_ticks (n : nat) (w : world) : world :=
  mkWorld (heap w) (store w) (uuid_src w) (clock_src w) n.

(** ** The monad of operations: state and exceptions *)

Definition M (A : Type) : Type := world → result A * world.

#[global] Instance M_ret : MRet M := λ A a w, (Ok a, w).
#[global] Instance M_bind : MBind M := λ A B f m w,
  match m w with
  | (Ok a, w') => f a w'
  | (Raise e, w') => (Raise e, w')
  end.
#[global] Instance M_fmap : FMap M := λ A B f m w,
  match m w with
  | (Ok a, w') => (Ok (f a), w')
  | (Raise e, w') => (Raise e, w')
  end.

Definition raise {A} (e : exn) : M A := λ w, (Raise e, w).

(** Object allocation, attribute reads and attribute writes. *)
Definition alloc (t : Task) : M nat :=
  λ w, (Ok (length (heap w)), set_heap (heap w ++ [t]) w).
Definition read (l : nat) : M Task :=
  λ w, match heap w !! l with
       | Some t => (Ok t, w)
       | None => (Raise DanglingRef, w)
       end.
Definition write (l : nat) (t : Task) : M unit :=
  λ w, match heap w !! l with
       | Some _ => (Ok (), set_heap (<[l := t]> (heap w)) w)
       | None => (Raise DanglingRef, w)
       end.

(** [str(uuid.uuid4())] and [datetime.now().isoformat()]. *)
Definition uuid4 : M string :=
  λ w, (Ok (uuid_src w (ticks w)), set_ticks (S (ticks w)) w).
Definition now_isoformat : M string :=
  λ w, (Ok (clock_src w (ticks w)), set_ticks (S (ticks w)) w).

(** ** Task construction from keyword arguments [data]: the generated
    [__init__] followed by [__post_init__] *)

Definition as_str (v : pyval) : option string :=
  match v with PStr s => Some s | _ => None end.
Definition as_optional_str (v : pyval) : option (option string) :=
  match v with PStr s => Some (Some s) | PNone => Some None | _ => None end.
Definition as_bool (v : pyval) : option bool :=
  match v with PBool b => Some b | _ => None end.

Definition typed_task (v_title v_description v_priority v_due_date v_completed
                       v_id v_created_at : pyval) : option Task :=
  a ← as_str v_title;
  b ← as_str v_description;
  c ← as_str v_priority;
  d ← as_optional_str v_due_date;
  e ← as_bool v_completed;
  f ← as_str v_id;
  g ← as_str v_created_at;
  Some (mkTask a b c d e f g).

Definition Task_init (data : gmap string pyval) : M nat :=
  if bool_decide (dom data ⊆ list_to_set field_names) then
    match data !! "title"%string with
    | None => raise TypeError
    | Some v_title =>
        let v_description := default (PStr "") (data !! "description"%string) in
        let v_priority := default (PStr "medium") (data !! "priority"%string) in
        let v_due_date := default PNone (data !! "due_date"%string) in
        let v_completed := default (PBool false) (data !! "completed"%string) in
        v_id ← match data !! "id"%string with
               | Some v => mret v
               | None => PStr <$> uuid4
               end;
        v_created_at ← match data !! "created_at"%string with
                       | Some v => mret v
                       | None => PStr <$> now_isoformat
                       end;
        (* __post_init__ *)
        if bool_decide (v_priority ∉ PStr <$> valid_priorities)
        then raise ValueError
        else match typed_task v_title v_description v_priority v_due_date
                              v_completed v_id v_created_at with
             | Some t => alloc t
             | None => raise IllTyped
             end
    end
  else raise TypeError.

(** [Task.from_dict]. *)
Definition from_dict (data : gmap string pyval) : M nat := Task_init data.

(** ** storage.py: [IStorage] and its two implementations *)

Definition get_store : M storage := λ w, (Ok (store w), w).
Definition put_store (s : storage) : M unit := λ w, (Ok (), set_store s w).

(** [task.to_dict()].  On the objects [hidden] an instance attribute named
    [to_dict] hides the method (see [setattr] below); its value is a string, a
    boolean or [None], and calling it raises [TypeError]. *)
Definition call_to_dict (hidden : list nat) (task : nat) : M (gmap string pyval) :=
  if bool_decide (task ∈ hidden) then raise TypeError else to_dict <$> read task.

(** [JSONStorage.save]: [data = [task.to_dict() for task in tasks]], then the
    file is rewritten with [data].  The [except IOError] clause does not catch
    what [to_dict] raises, and the file is opened only once [data] is built. *)
Definition JSONStorage_save (hidden : list nat) (tasks : list nat) : M unit :=
  data ← mapM (call_to_dict hidden) tasks;
  put_store (JSONStorage (Some (JsonArray data))).

(** [JSONStorage.load]: the empty list when the file does not exist, an
    [IOError] when it does not parse, otherwise one fresh [Task] per item.
    What [Task.from_dict] raises is not caught. *)
Definition JSONStorage_load (file : option file_contents) : M (list nat) :=
  match file with
  | None => mret []
  | Some Malformed => raise IOError
  | Some (JsonArray data) => mapM from_dict data
  end.

(** [InMemoryStorage.save] and [InMemoryStorage.load]: [tasks.copy()] is a new
    list of the same objects. *)
Definition InMemoryStorage_save (tasks : list nat) : M unit :=
  put_store (InMemoryStorage tasks).
Definition InMemoryStorage_load (_tasks : list nat) : M (list nat) :=
  mret _tasks.

(** Dynamic dispatch on the storage object the service was built with.
    [save_hiding hidden] is [save] on a list in which the objects [hidden]
    have lost their method [to_dict]; [save] is the case of objects as they
    were constructed. *)
Definition save_hiding (hidden : list nat) (tasks : list nat) : M unit :=
  s ← get_store;
  match s with
  | InMemoryStorage _ => InMemoryStorage_save tasks
  | JSONStorage _ => JSONStorage_save hidden tasks
  end.
Definition save (tasks : list nat) : M unit := save_hiding [] tasks.
Definition load : M (list nat) :=
  s ← get_store;
  match s with
  | InMemoryStorage _tasks => InMemoryStorage_load _tasks
  | JSONStorage file => JSONStorage_load file
  end.

(** ** Strings: [str.lower] and the substring test [a in b]

    [str.lower] on ASCII text: a capital letter, A to Z, becomes the small
    letter 32 code points further, every other character stays. *)

Definition lower_char (c : ascii) : ascii :=
  let n := nat_of_ascii c in
  if ((65 <=? n) && (n <=? 90))%nat then ascii_of_nat (n + 32) else c.

Fixpoint lower (s : string) : string :=
  match s with
  | EmptyString => EmptyString
  | String c s' => String (lower_char c) (lower s')
  end.

Fixpoint str_in (a b : string) : bool :=
  String.prefix a b ||
  match b with
  | EmptyString => false
  | String _ b' => str_in a b'
  end.

(** ** service.py *)

(** Keyword arguments of [update_task]: one constructor per field, carrying a
    value of the field's annotated type, and [kw_other] for a keyword of any
    other name ([self] and [task_id] apart, which a call cannot pass among
    the keywords); its value is a string, a boolean or [None]. *)
Inductive kwarg :=
| kw_title (v : string)
| kw_description (v : string)
| kw_priority (v : string)
| kw_due_date (v : option string)
| kw_completed (v : bool)
| kw_id (v : string)
| kw_created_at (v : string)
| kw_other (key : string).

#[global] Instance kwarg_eq_dec : EqDecision kwarg.
Proof. solve_decision. Defined.

(** What a task object has besides its seven fields: the methods of the
    class, and the attributes every instance gets from the [dataclass]
    decorator and from [object] (as of Python 3.11; what later versions add
    are methods, which [setattr] hides like the ones listed here, without a
    change to a field). *)
Definition other_attributes : list string :=
  ["to_dict"; "from_dict"; "__post_init__"; "__init__"; "__repr__"; "__eq__";
   "__hash__"; "__class__"; "__dict__"; "__weakref__"; "__doc__"; "__module__";
   "__annotations__"; "__dataclass_fields__"; "__dataclass_params__";
   "__match_args__"; "__new__"; "__setattr__"; "__getattribute__";
   "__delattr__"; "__str__"; "__ne__"; "__lt__"; "__le__"; "__gt__"; "__ge__";
   "__format__"; "__dir__"; "__sizeof__"; "__reduce__"; "__reduce_ex__";
   "__getstate__"; "__init_subclass__"; "__subclasshook__"]%string.

(** [hasattr(task, key)]. *)
Definition hasattr (kw : kwarg) : bool :=
  match kw with
  | kw_other key => bool_decide (key ∈ field_names ++ other_attributes)
  | _ => true
  end.

Definition set_field (kw : kwarg) (t : Task) : Task :=
  match kw with
  | kw_title v =>
      mkTask v (description t) (priority t) (due_date t) (completed t) (id t) (created_at t)
  | kw_description v =>
      mkTask (title t) v (priority t) (due_date t) (completed t) (id t) (created_at t)
  | kw_priority v =>
      mkTask (title t) (description t) v (due_date t) (completed t) (id t) (created_at t)
  | kw_due_date v =>
      mkTask (title t) (description t) (priority t) v (completed t) (id t) (created_at t)
  | kw_completed v =>
      mkTask (title t) (description t) (priority t) (due_date t) v (id t) (created_at t)
  | kw_id v =>
      mkTask (title t) (description t) (priority t) (due_date t) (completed t) v (created_at t)
  | kw_created_at v =>
      mkTask (title t) (description t) (priority t) (due_date t) (completed t) (id t) v
  | kw_other _ => t
  end.

(** [setattr(task, key, value)].  A field takes the value.  Under another
    name: [__class__] and [__dict__] accept only a class and a dictionary and
    raise [TypeError], [__weakref__] cannot be written; any other name is
    stored as an instance attribute, which leaves the fields as they are.  The
    only such attribute that the program reads again is [to_dict], called by
    [JSONStorage.save]: see [hides_to_dict].  A field name under [kw_other]
    stands for a value outside the type of the field. *)
Definition setattr (task : nat) (kw : kwarg) : M unit :=
  match kw with
  | kw_other key =>
      if bool_decide (key ∈ field_names) then raise IllTyped
      else if bool_decide (key ∈ ["__class__"; "__dict__"]%string) then raise TypeError
      else if bool_decide (key = "__weakref__"%string) then raise AttributeError
      else mret ()
  | _ => t ← read task; write task (set_field kw t)
  end.

(** The update set stores an instance attribute [to_dict] on the task it is
    applied to. *)
Definition hides_to_dict (updates : list kwarg) : bool :=
  bool_decide (Exists (λ kw, kw = kw_other "to_dict") updates).

(** [tasks.append(task)] between a load and a save. *)
Definition add_task (task : nat) : M unit :=
  tasks ← load;
  save (tasks ++ [task]).

Definition get_all_tasks : M (list nat) := load.

Fixpoint get_task_by_id_loop (task_id : string) (tasks : list nat) : M (option nat) :=
  match tasks with
  | [] => mret None
  | task :: rest =>
      t ← read task;
      if bool_decide (id t = task_id) then mret (Some task)
      else get_task_by_id_loop task_id rest
  end.

Definition get_task_by_id (task_id : string) : M (option nat) :=
  tasks ← load;
  get_task_by_id_loop task_id tasks.

Definition get_task_by_index (index : Z) : M (option nat) :=
  tasks ← load;
  if (0 <=? index) && (index <? Z.of_nat (length tasks))
  then mret (tasks !! Z.to_nat index)
  else mret None.

(** The inner loop of [update_task]: [for key, value in updates.items()]. *)
Fixpoint update_fields (task : nat) (updates : list kwarg) : M unit :=
  match updates with
  | [] => mret ()
  | kw :: rest =>
      (if hasattr kw then setattr task kw else mret ());;
      update_fields task rest
  end.

(** The outer loop of [update_task]: [for task in tasks], leaving with [True]
    at the first task whose id matches.  [self.storage.save(tasks)] meets the
    task as the inner loop left it, its method [to_dict] hidden when the
    update set names it. *)
Fixpoint update_task_loop (tasks : list nat) (task_id : string)
    (updates : list kwarg) (remaining : list nat) : M bool :=
  match remaining with
  | [] => mret false
  | task :: rest =>
      t ← read task;
      if bool_decide (id t = task_id) then
        update_fields task updates;;
        save_hiding (if hides_to_dict updates then [task] else []) tasks;;
        mret true
      else update_task_loop tasks task_id updates rest
  end.

Definition update_task (task_id : string) (updates : list kwarg) : M bool :=
  tasks ← load;
  update_task_loop tasks task_id updates tasks.

(** A list comprehension [[t for t in tasks if p(t)]] over task objects. *)
Fixpoint comprehension (p : Task → bool) (tasks : list nat) : M (list nat) :=
  match tasks with
  | [] => mret []
  | task :: rest =>
      t ← read task;
      kept ← comprehension p rest;
      mret (if p t then task :: kept else kept)
  end.

Definition delete_task (task_id : string) : M bool :=
  tasks ← load;
  let original_length := length tasks in
  tasks ← comprehension (λ t, bool_decide (id t ≠ task_id)) tasks;
  if (length tasks <? original_length)%nat then
    save tasks;;
    mret true
  else mret false.

Definition delete_task_by_index (index : Z) : M bool :=
  tasks ← load;
  if (0 <=? index) && (index <? Z.of_nat (length tasks)) then
    save (delete (Z.to_nat index) tasks);;
    mret true
  else mret false.

Definition complete_task (task_id : string) : M bool :=
  update_task task_id [kw_completed true].

Definition complete_task_by_index (index : Z) : M bool :=
  task ← get_task_by_index index;
  match task with
  | Some task => t ← read task; complete_task (id t)
  | None => mret false
  end.

Definition search_tasks (keyword : string) : M (list nat) :=
  tasks ← load;
  let keyword_lower := lower keyword in
  comprehension
    (λ t, str_in keyword_lower (lower (title t))
          || str_in keyword_lower (lower (description t)))
    tasks.

Definition filter_tasks (filter_func : Task → bool) : M (list nat) :=
  tasks ← load;
  comprehension filter_func tasks.

(** The dictionary [get_statistics] returns, its four keys as fields. *)
Record statistics := mkStatistics {
  stat_total : Z;
  stat_completed : Z;
  stat_pending : Z;
  stat_by_priority : gmap string Z
}.

(** [sum(1 for t in tasks if t.completed)]. *)
Definition count_completed (ts : list Task) : Z :=
  foldl (λ acc t, if completed t then acc + 1 else acc) 0 ts.

(** The loop over [priority_counts]. *)
Definition count_priorities (ts : list Task) : gmap string Z :=
  foldl (λ priority_counts t,
           match priority_counts !! priority t with
           | Some n => <[priority t := n + 1]> priority_counts
           | None => priority_counts
           end)
        (<["low"%string := 0]> (<["medium"%string := 0]> (<["high"%string := 0]> ∅)))
        ts.

Definition get_statistics : M statistics :=
  tasks ← load;
  ts ← mapM read tasks;
  let completed := count_completed ts in
  let pending := Z.of_nat (length tasks) - completed in
  let priority_counts := count_priorities ts in
  mret (mkStatistics (Z.of_nat (length tasks)) completed pending priority_counts).

(** ** formatter.py

    The text a formatter returns is modelled as its UTF-8 encoding: the check
    mark and the arrows are the byte sequences of their literals. *)

(** [s * n] on strings. *)
Fixpoint str_repeat (s : string) (n : nat) : string :=
  match n with
  | O => ""
  | S n' => s +:+ str_repeat s n'
  end.

Definition upper_char (c : ascii) : ascii :=
  let n := nat_of_ascii c in
  if ((97 <=? n) && (n <=? 122))%nat then ascii_of_nat (n - 32) else c.

(** [str.upper]. *)
Fixpoint upper (s : string) : string :=
  match s with
  | EmptyString => EmptyString
  | String c s' => String (upper_char c) (upper s')
  end.

Definition newline : string := String (ascii_of_nat 10) "".

(** The truth value of a string and of an optional string. *)
Definition str_truthy (s : string) : bool :=
  match s with EmptyString => false | _ => true end.
Definition optional_str_truthy (o : option string) : bool :=
  match o with Some s => str_truthy s | None => false end.

(** The dictionary of priority symbols of [SimpleFormatter], read with
    [.get(task.priority, "→")]. *)
Definition priority_symbols : gmap string string :=
  <["low"%string := "↓"%string]>
  (<["medium"%string := "→"%string]>
  (<["high"%string := "↑"%string]> ∅)).

(** One turn of the loop of [SimpleFormatter.format_tasks]. *)
Definition simple_line (i : nat) (task : Task) : string :=
  let status := if completed task then "✓" else " " in
  let priority_symbol := default "→" (priority_symbols !! priority task) in
  let line := "[" +:+ status +:+ "] " +:+ pretty i +:+ ". "
              +:+ priority_symbol +:+ " " +:+ title task in
  let line := if str_truthy (description task)
              then line +:+ " - " +:+ description task else line in
  let line := if optional_str_truthy (due_date task)
              then line +:+ " (Due: " +:+ default "" (due_date task) +:+ ")"
              else line in
  line.

(** [SimpleFormatter.format_tasks], on the field values of the tasks. *)
Definition simple_text (ts : list Task) : string :=
  match ts with
  | [] => "No tasks found."
  | _ => String.concat newline (imap simple_line ts)
  end.

(** One turn of the loop of [DetailedFormatter.format_tasks]: nine lines. *)
Definition detailed_lines (i : nat) (task : Task) : list string :=
  let status := if completed task then "Completed" else "Pending" in
  [ newline +:+ str_repeat "=" 60;
    "Task #" +:+ pretty i +:+ " (ID: " +:+ id task +:+ ")";
    str_repeat "=" 60;
    "Title:       " +:+ title task;
    "Description: " +:+ description task;
    "Priority:    " +:+ upper (priority task);
    "Status:      " +:+ status;
    "Due Date:    " +:+ (if optional_str_truthy (due_date task)
                         then default "" (due_date task) else "Not set");
    "Created:     " +:+ created_at task ]%string.

(** [DetailedFormatter.format_tasks], on the field values of the tasks. *)
Definition detailed_text (ts : list Task) : string :=
  match ts with
  | [] => "No tasks found."
  | _ => String.concat newline (mjoin (imap detailed_lines ts))
  end.

(** The two implementations of [ITaskFormatter]. *)
Inductive formatter := SimpleFormatter | DetailedFormatter.

(** [format_tasks] reads the fields of the task objects it is given. *)
Definition format_tasks (f : formatter) (tasks : list nat) : M string :=
  ts ← mapM read tasks;
  mret (match f with
        | SimpleFormatter => simple_text ts
        | DetailedFormatter => detailed_text ts
        end).

(** [StatisticsFormatter.format_statistics]: the text, or on the left the key
    whose lookup in [by_priority] raises [KeyError]. *)
Definition format_statistics (stats : statistics) : string + string :=
  match stat_by_priority stats !! "high"%string with
  | None => inl "high"%string
  | Some high =>
      match stat_by_priority stats !! "medium"%string with
      | None => inl "medium"%string
      | Some medium =>
          match stat_by_priority stats !! "low"%string with
          | None => inl "low"%string
          | Some low =>
              inr (String.concat newline
                [ newline +:+ str_repeat "=" 40;
                  "Task Statistics";
                  str_repeat "=" 40;
                  "Total Tasks:      " +:+ pretty (stat_total stats);
                  "Completed:        " +:+ pretty (stat_completed stats);
                  "Pending:          " +:+ pretty (stat_pending stats);
                  "";
                  "By Priority:";
                  "  High:           " +:+ pretty high;
                  "  Medium:         " +:+ pretty medium;
                  "  Low:            " +:+ pretty low;
                  str_repeat "=" 40 ]%string)
          end
      end
  end.

(** ** cli.py: the handlers of the commands, on parsed arguments

    [print] appends to what the process has written; [sys.exit] raises
    [SystemExit], which [except Exception] does not catch. *)

Inductive printed :=
| to_stdout (text : string)
| to_stderr (text : string).

(** What a handler can catch with [except Exception]: an exception of the
    service, or the [KeyError] of a dictionary. *)
Inductive cli_exn :=
| service_exn (e : exn)
| KeyError (key : string).

Inductive ending (A : Type) :=
| Returned (a : A)
| Raised (e : cli_exn)
| Exited (status : Z).
Arguments Returned {A} a.
Arguments Raised {A} e.
Arguments Exited {A} status.

Definition Cmd (A : Type) : Type :=
  world → list printed → ending A * world * list printed.

#[global] Instance Cmd_ret : MRet Cmd := λ A a w out, (Returned a, w, out).
#[global] Instance Cmd_bind : MBind Cmd := λ A B f m w out,
  match m w out with
  | (Returned a, w', out') => f a w' out'
  | (Raised e, w', out') => (Raised e, w', out')
  | (Exited status, w', out') => (Exited status, w', out')
  end.

(** A call into the service or the formatters. *)
Definition lift {A} (m : M A) : Cmd A := λ w out,
  match m w with
  | (Ok a, w') => (Returned a, w', out)
  | (Raise e, w') => (Raised (service_exn e), w', out)
  end.

Definition print (p : printed) : Cmd unit := λ w out, (Returned (), w, out ++ [p]).
Definition sys_exit {A} (status : Z) : Cmd A := λ w out, (Exited status, w, out).
Definition cli_raise {A} (e : cli_exn) : Cmd A := λ w out, (Raised e, w, out).

(** [try: body except Exception as e: handler(e)]. *)
Definition try_except {A} (body : Cmd A) (handler : cli_exn → Cmd A) : Cmd A :=
  λ w out,
    match body w out with
    | (Raised e, w', out') => handler e w' out'
    | r => r
    end.

(** The parsed arguments of the commands. *)
Record add_args := mk_add_args {
  add_title : string;
  add_description : string;
  add_priority : string;
  add_due : option string
}.
Record list_args := mk_list_args {
  list_status : option string;
  list_priority : option string;
  list_detailed : bool
}.
Record update_args := mk_update_args {
  update_index : Z;
  update_title : option string;
  update_description : option string;
  update_priority : option string;
  update_due : option string
}.

(** A parsed command line: the handler [set_defaults(func=...)] chose, with
    its arguments. *)
Inductive command :=
| cmd_add (args : add_args)
| cmd_list (args : list_args)
| cmd_complete (index : Z)
| cmd_update (args : update_args)
| cmd_delete (index : Z)
| cmd_search (keyword : string)
| cmd_stats.

Section TaskCLI.

(** [str(e)], the text of an exception, and the formatter the command line
    was built with. *)
Variable exn_text : cli_exn → string.
Variable self_formatter : formatter.

(** The [except Exception as e] clause the handlers share: one line on the
    error stream, then [sys.exit(1)]. *)
Definition report (what : string) (e : cli_exn) : Cmd unit :=
  print (to_stderr ("✗ Error " +:+ what +:+ ": " +:+ exn_text e));;
  sys_exit 1.

Definition _add_task (args : add_args) : Cmd unit :=
  try_except
    (task ← lift (Task_init
               (<["title"%string := PStr (add_title args)]>
               (<["description"%string := PStr (add_description args)]>
               (<["priority"%string := PStr (add_priority args)]>
               (<["due_date"%string := from_option PStr PNone (add_due args)]> ∅)))));
     lift (add_task task);;
     t ← lift (read task);
     print (to_stdout ("✓ Task added successfully: " +:+ title t)))
    (report "adding task").

Definition _list_tasks (args : list_args) : Cmd unit :=
  try_except
    (tasks ← lift get_all_tasks;
     tasks ← (if optional_str_truthy (list_status args) then
                let completed_wanted :=
                  bool_decide (list_status args = Some "completed"%string) in
                lift (comprehension
                        (λ t, bool_decide (completed t = completed_wanted)) tasks)
              else mret tasks);
     tasks ← (if optional_str_truthy (list_priority args) then
                lift (comprehension
                        (λ t, bool_decide (Some (priority t) = list_priority args))
                        tasks)
              else mret tasks);
     let formatter :=
       if list_detailed args then DetailedFormatter else self_formatter in
     text ← lift (format_tasks formatter tasks);
     print (to_stdout text))
    (report "listing tasks").

Definition _complete_task (index : Z) : Cmd unit :=
  try_except
    (found ← lift (complete_task_by_index index);
     if found : bool then
       print (to_stdout ("✓ Task " +:+ pretty index +:+ " marked as completed"))
     else
       print (to_stderr ("✗ Task " +:+ pretty index +:+ " not found"));;
       sys_exit 1)
    (report "completing task").

(** The dictionary [updates] of [_update_task]: an option that is absent or
    empty is left out. *)
Definition cli_updates (args : update_args) : list kwarg :=
  (if optional_str_truthy (update_title args)
   then [kw_title (default "" (update_title args))] else [])
  ++ (if optional_str_truthy (update_description args)
      then [kw_description (default "" (update_description args))] else [])
  ++ (if optional_str_truthy (update_priority args)
      then [kw_priority (default "" (update_priority args))] else [])
  ++ (if optional_str_truthy (update_due args)
      then [kw_due_date (update_due args)] else []).

Definition _update_task (args : update_args) : Cmd unit :=
  try_except
    (task ← lift (get_task_by_index (update_index args));
     match task with
     | None =>
         print (to_stderr ("✗ Task " +:+ pretty (update_index args)
                           +:+ " not found"));;
         sys_exit 1
     | Some task =>
         let updates := cli_updates args in
         match updates with
         | [] => print (to_stderr "✗ No updates specified");; sys_exit 1
         | _ =>
             t ← lift (read task);
             found ← lift (update_task (id t) updates);
             if found : bool then
               print (to_stdout ("✓ Task " +:+ pretty (update_index args)
                                 +:+ " updated successfully"))
             else
               print (to_stderr ("✗ Failed to update task "
                                 +:+ pretty (update_index args)));;
               sys_exit 1
         end
     end)
    (report "updating task").

Definition _delete_task (index : Z) : Cmd unit :=
  try_except
    (found ← lift (delete_task_by_index index);
     if found : bool then
       print (to_stdout ("✓ Task " +:+ pretty index +:+ " deleted"))
     else
       print (to_stderr ("✗ Task " +:+ pretty index +:+ " not found"));;
       sys_exit 1)
    (report "deleting task").

Definition _search_tasks (keyword : string) : Cmd unit :=
  try_except
    (tasks ← lift (search_tasks keyword);
     match tasks with
     | [] => print (to_stdout ("No tasks found matching '" +:+ keyword +:+ "'"))
     | _ =>
         print (to_stdout ("Found " +:+ pretty (length tasks)
                           +:+ " task(s) matching '" +:+ keyword +:+ "':"
                           +:+ newline));;
         text ← lift (format_tasks self_formatter tasks);
         print (to_stdout text)
     end)
    (report "searching tasks").

Definition _show_stats : Cmd unit :=
  try_except
    (stats ← lift get_statistics;
     text ← match format_statistics stats with
            | inr text => mret text
            | inl key => cli_raise (KeyError key)
            end;
     print (to_stdout text))
    (report "getting statistics").

(** [parsed_args.func(parsed_args)] of [TaskCLI.run]. *)
Definition run_command (c : command) : Cmd unit :=
  match c with
  | cmd_add args => _add_task args
  | cmd_list args => _list_tasks args
  | cmd_complete index => _complete_task index
  | cmd_update args => _update_task args
  | cmd_delete index => _delete_task index
  | cmd_search keyword => _search_tasks keyword
  | cmd_stats => _show_stats
  end.

End TaskCLI.

(** * The vocabulary of the statements *)

Definition valid_task (t : Task) : Prop := priority t ∈ valid_priorities.

(** A keyword argument, when given, has the type its field is annotated
    with. *)
Definition typed_if_given {A} (as_type : pyval → option A) (arg : option pyval) : bool :=
  from_option (λ v, bool_decide (is_Some (as_type v))) true arg.

(** The keyword arguments other than [priority] are what the constructor
    expects: known keywords only, a title, values of the annotated types. *)
Definition other_args_ok (data : gmap string pyval) : bool :=
  bool_decide (dom data ⊆ list_to_set field_names)
  && bool_decide (is_Some (data !! "title"%string ≫= as_str))
  && typed_if_given as_str (data !! "description"%string)
  && typed_if_given as_optional_str (data !! "due_date"%string)
  && typed_if_given as_bool (data !! "completed"%string)
  && typed_if_given as_str (data !! "id"%string)
  && typed_if_given as_str (data !! "created_at"%string).

(** [refs_to h ls ts]: the objects at the locations [ls] of heap [h] have the
    field values [ts], position by position. *)
Definition refs_to (h : list Task) (ls : list nat) (ts : list Task) : Prop :=
  Forall2 (λ l t, h !! l = Some t) ls ts.

(** [stored w ts]: the storage of [w] holds the collection [ts], in this
    order: the in-memory list points at objects with these values; the file
    is the serialization of [ts], or is absent when [ts] is empty. *)
Definition stored (w : world) (ts : list Task) : Prop :=
  match store w with
  | InMemoryStorage _tasks => refs_to (heap w) _tasks ts
  | JSONStorage file =>
      (file = None ∧ ts = []) ∨ file = Some (JsonArray (to_dict <$> ts))
  end.

(** What [from_dict] asks of the records of a file: priorities that pass
    [__post_init__].  The in-memory storage asks nothing. *)
Definition loadable (w : world) (ts : list Task) : Prop :=
  match store w with
  | InMemoryStorage _ => True
  | JSONStorage _ => Forall valid_task ts
  end.

(** [holds w ts]: [ts] is the collection a [load] gives the service. *)
Definition holds (w : world) (ts : list Task) : Prop :=
  stored w ts ∧ loadable w ts.

(** Positions [i] and [j] of the stored collection are one and the same
    object.  Only the in-memory storage can hold an object twice. *)
Definition same_object (w : world) (i j : nat) : Prop :=
  match store w with
  | InMemoryStorage _tasks => _tasks !! i = _tasks !! j
  | JSONStorage _ => i = j
  end.

(** The list and the world a [load] yields. *)
Definition loaded_refs (w : world) (ts : list Task) : list nat :=
  match store w with
  | InMemoryStorage _tasks => _tasks
  | JSONStorage _ => seq (length (heap w)) (length ts)
  end.

Definition loaded_world (w : world) (ts : list Task) : world :=
  match store w with
  | InMemoryStorage _ => w
  | JSONStorage _ => set_heap (heap w ++ ts) w
  end.

(** The world a [save] of the list [ls] yields, the objects having the
    values [ts]. *)
Definition saved_world (w : world) (ls : list nat) (ts : list Task) : world :=
  match store w with
  | InMemoryStorage _ => set_store (InMemoryStorage ls) w
  | JSONStorage _ => set_store (JSONStorage (Some (JsonArray (to_dict <$> ts)))) w
  end.

(** The locations a comprehension keeps, given the values at the locations. *)
Fixpoint kept (p : Task → bool) (ls : list nat) (ts : list Task) : list nat :=
  match ls, ts with
  | l :: ls', t :: ts' => if p t then l :: kept p ls' ts' else kept p ls' ts'
  | _, _ => []
  end.

(** The name a keyword argument carries and its value. *)
Definition kw_key (kw : kwarg) : string :=
  match kw with
  | kw_title _ => "title"
  | kw_description _ => "description"
  | kw_priority _ => "priority"
  | kw_due_date _ => "due_date"
  | kw_completed _ => "completed"
  | kw_id _ => "id"
  | kw_created_at _ => "created_at"
  | kw_other key => key
  end.

Definition kw_value (kw : kwarg) : pyval :=
  match kw with
  | kw_title v | kw_description v | kw_priority v | kw_id v | kw_created_at v => PStr v
  | kw_due_date v => from_option PStr PNone v
  | kw_completed v => PBool v
  | kw_other _ => PNone
  end.

(** [getattr(task, key)] on the fields of a task. *)
Definition getattr (key : string) (t : Task) : option pyval :=
  if bool_decide (key = "title"%string) then Some (PStr (title t))
  else if bool_decide (key = "description"%string) then Some (PStr (description t))
  else if bool_decide (key = "priority"%string) then Some (PStr (priority t))
  else if bool_decide (key = "due_date"%string) then Some (from_option PStr PNone (due_date t))
  else if bool_decide (key = "completed"%string) then Some (PBool (completed t))
  else if bool_decide (key = "id"%string) then Some (PStr (id t))
  else if bool_decide (key = "created_at"%string) then Some (PStr (created_at t))
  else None.

(** The keyword is one of the seven that name a field. *)
Definition names_field (kw : kwarg) : bool :=
  match kw with kw_other _ => false | _ => true end.

(** The keyword names nothing a task object has: no field, no method, no
    other attribute. *)
Definition names_nothing (kw : kwarg) : bool :=
  match kw with
  | kw_other key =>
      bool_decide (key ∉ field_names ++ other_attributes ++ ["self"; "task_id"]%string)
  | _ => false
  end.

(** The update sets of the statements: every keyword names a field, or
    nothing at all. *)
Definition plain (updates : list kwarg) : Prop :=
  Forall (λ kw, names_field kw || names_nothing kw = true) updates.

(** The value the update set gives to the field [key], if it names it: the
    update set is a dictionary, the last binding of a key is its binding. *)
Definition named_value (key : string) (updates : list kwarg) : option pyval :=
  foldl (λ found kw,
           if names_field kw && bool_decide (kw_key kw = key)
           then Some (kw_value kw) else found)
        None updates.

(** The fields of a task after the inner loop of [update_task]. *)
Definition apply_updates (updates : list kwarg) (t : Task) : Task :=
  foldl (λ t kw, set_field kw t) t updates.

(** The values at the locations [ls] once the object at [l] has the value
    [t']: every position that is this object shows the new value. *)
Definition overwrite (ls : list nat) (l : nat) (t' : Task) (ts : list Task) : list Task :=
  zip_with (λ l' t, if decide (l' = l) then t' else t) ls ts.

(** The first task of [ts] whose id is [task_id] sits at position [k]. *)
Definition first_match (task_id : string) (ts : list Task) (k : nat) (t : Task) : Prop :=
  ts !! k = Some t ∧ id t = task_id
  ∧ ∀ j t', (j < k)%nat → ts !! j = Some t' → id t' ≠ task_id.

(** The world [update_task] leaves when the first match is the object [l]
    with value [t]. *)
Definition updated_world (w : world) (ts : list Task) (l : nat) (t' : Task) : world :=
  let w1 := loaded_world w ts in
  saved_world (set_heap (<[l := t']> (heap w1)) w1) (loaded_refs w ts)
              (overwrite (loaded_refs w ts) l t' ts).

(** The test [0 <= index < len(tasks)]. *)
Definition in_range (index : Z) (n : nat) : bool :=
  (0 <=? index) && (index <? Z.of_nat n).

(** Text in which every character is an ASCII character.  On such text
    [str.lower] changes the letters A to Z and nothing else. *)
Fixpoint is_ascii (s : string) : Prop :=
  match s with
  | EmptyString => True
  | String c s' => (nat_of_ascii c < 128)%nat ∧ is_ascii s'
  end.

(** Two characters are the same letter, case ignored: they are equal, or one
    is a capital letter, A to Z, and the other the small letter that goes
    with it, 32 code points further. *)
Definition is_capital (c : ascii) : Prop := (65 ≤ nat_of_ascii c ≤ 90)%nat.

Definition same_letter (a b : ascii) : Prop :=
  a = b
  ∨ (is_capital a ∧ nat_of_ascii b = nat_of_ascii a + 32)%nat
  ∨ (is_capital b ∧ nat_of_ascii a = nat_of_ascii b + 32)%nat.

(** Two texts are equal, case ignored: same length, the same letter at every
    position. *)
Fixpoint equal_ignoring_case (a b : string) : Prop :=
  match a, b with
  | EmptyString, EmptyString => True
  | String x a', String y b' => same_letter x y ∧ equal_ignoring_case a' b'
  | _, _ => False
  end.

(** [text] contains [keyword] as a substring, letter case ignored: some
    substring of [text] is [keyword] up to the case of its letters. *)
Definition contains_ignoring_case (text keyword : string) : Prop :=
  ∃ pre mid post, text = pre +:+ mid +:+ post ∧ equal_ignoring_case mid keyword.

(** The texts of a task, its title and its description, are ASCII. *)
Definition ascii_task (t : Task) : Prop :=
  is_ascii (title t) ∧ is_ascii (description t).

(** The test of the comprehension of [search_tasks]. *)
Definition search_test (keyword : string) (t : Task) : bool :=
  str_in (lower keyword) (lower (title t))
  || str_in (lower keyword) (lower (description t)).

(** The statistics of a collection with the values [ts]. *)
Definition statistics_of (ts : list Task) : statistics :=
  mkStatistics (Z.of_nat (length ts)) (count_completed ts)
               (Z.of_nat (length ts) - count_completed ts) (count_priorities ts).

(** The public operations of [TaskService], with their arguments.  A task
    handed to [add_task] is an object the caller has constructed. *)
Inductive op :=
| op_add_task (task : nat)
| op_get_all_tasks
| op_get_task_by_id (task_id : string)
| op_get_task_by_index (index : Z)
| op_update_task (task_id : string) (updates : list kwarg)
| op_delete_task (task_id : string)
| op_delete_task_by_index (index : Z)
| op_complete_task (task_id : string)
| op_complete_task_by_index (index : Z)
| op_search_tasks (keyword : string)
| op_filter_tasks (filter_func : Task → bool)
| op_get_statistics.

(** One call; what it returns is dropped. *)
Definition call (o : op) : M unit :=
  match o with
  | op_add_task task => add_task task
  | op_get_all_tasks => get_all_tasks;; mret ()
  | op_get_task_by_id task_id => get_task_by_id task_id;; mret ()
  | op_get_task_by_index index => get_task_by_index index;; mret ()
  | op_update_task task_id updates => update_task task_id updates;; mret ()
  | op_delete_task task_id => delete_task task_id;; mret ()
  | op_delete_task_by_index index => delete_task_by_index index;; mret ()
  | op_complete_task task_id => complete_task task_id;; mret ()
  | op_complete_task_by_index index => complete_task_by_index index;; mret ()
  | op_search_tasks keyword => search_tasks keyword;; mret ()
  | op_filter_tasks filter_func => filter_tasks filter_func;; mret ()
  | op_get_statistics => get_statistics;; mret ()
  end.

(** What an observer sees: the field values of the tasks [get_all_tasks]
    returns, and the result of [get_statistics]; either may be an
    exception. *)
Definition observation : Type := result (list Task) * result statistics.

Definition observe (w : world) : observation * world :=
  let '(seen, w1) := (tasks ← get_all_tasks; mapM read tasks) w in
  let '(stats, w2) := get_statistics w1 in
  ((seen, stats), w2).

(** The observations along a sequence of calls: before the first call and
    after every call.  A call that raises leaves the world it had reached. *)
Fixpoint trace (ops : list op) (w : world) : list observation :=
  let '(o, w1) := observe w in
  o :: match ops with
       | [] => []
       | c :: rest => trace rest (snd (call c w1))
       end.

(** An empty in-memory storage and an absent file, with the same objects
    constructed by the caller and the same sources of identifiers and
    timestamps. *)
Definition in_memory_world (h0 : list Task) (u c : nat → string) (n : nat) : world :=
  mkWorld h0 (InMemoryStorage []) u c n.

Definition json_world (h0 : list Task) (u c : nat → string) (n : nat) : world :=
  mkWorld h0 (JSONStorage None) u c n.

(** What a sequence of calls must satisfy for the two storages to agree. *)
Definition op_ok (h0 : list Task) (o : op) : Prop :=
  match o with
  | op_add_task task => (task < length h0)%nat
  | op_update_task _ updates =>
      plain updates ∧ ∀ v, kw_priority v ∈ updates → v ∈ valid_priorities
  | _ => True
  end.

(** The update set of a call, if it has one, is plain. *)
Definition plain_op (o : op) : Prop :=
  match o with
  | op_update_task _ updates => plain updates
  | _ => True
  end.

Definition added (ops : list op) : list nat :=
  omap (λ o, match o with op_add_task task => Some task | _ => None end) ops.

Fixpoint update_first (task_id : string) (f : Task → Task) (ts : list Task) : list Task :=
  match ts with
  | [] => []
  | t :: rest =>
      if bool_decide (id t = task_id) then f t :: rest
      else t :: update_first task_id f rest
  end.

Definition model_step (h0 : list Task) (o : op) (ts : list Task) : list Task :=
  match o with
  | op_add_task task =>
      match h0 !! task with Some t => ts ++ [t] | None => ts end
  | op_update_task task_id updates =>
      update_first task_id (apply_updates updates) ts
  | op_delete_task task_id => filter (λ t, id t ≠ task_id) ts
  | op_delete_task_by_index index =>
      if in_range index (length ts) then delete (Z.to_nat index) ts else ts
  | op_complete_task task_id =>
      update_first task_id (apply_updates [kw_completed true]) ts
  | op_complete_task_by_index index =>
      if in_range index (length ts) then
        match ts !! Z.to_nat index with
        | Some t => update_first (id t) (apply_updates [kw_completed true]) ts
        | None => ts
        end
      else ts
  | _ => ts
  end.

Fixpoint model_trace (h0 : list Task) (ops : list op) (ts : list Task) : list observation :=
  (Ok ts, Ok (statistics_of ts))
  :: match ops with
     | [] => []
     | c :: rest => model_trace h0 rest (model_step h0 c ts)
     end.

(** The objects the caller constructed and has not yet handed to [add_task]
    still have the values they were constructed with. *)
Definition intact (h0 : list Task) (seen : list nat) (w : world) : Prop :=
  ∀ l t, h0 !! l = Some t → l ∉ seen → heap w !! l = Some t.

(** [run_inv h0 seen w ts]: the storage holds [ts], all of valid priority; no
    object is held twice; the objects held were handed to [add_task] (they
    are in [seen]) or were built by a [load]. *)
Definition run_inv (h0 : list Task) (seen : list nat) (w : world) (ts : list Task) : Prop :=
  holds w ts
  ∧ Forall valid_task ts
  ∧ NoDup (loaded_refs w ts)
  ∧ (∀ l, l ∈ loaded_refs w ts → l ∈ seen ∨ (length h0 ≤ l)%nat)
  ∧ (length h0 ≤ length (heap w))%nat
  ∧ intact h0 seen w.

Definition doc_task : Task :=
  mkTask "Write documentation" "API docs" "high" None false "1" "2024-05-01T09:00:00".

Definition bug_task : Task :=
  mkTask "Fix bug" "Authentication issue" "medium" (Some "2024-06-01") false "2"
         "2024-05-01T09:05:00".

Definition docs_task : Task :=
  mkTask "Update docs" "Add examples" "high" None false "3" "2024-05-01T09:10:00".

Definition three_tasks : list Task := [doc_task; bug_task; docs_task].

(** The three tasks in an in-memory storage and in a file. *)
Definition memory_of_three : world :=
  mkWorld three_tasks (InMemoryStorage [0; 1; 2]%nat) (λ _, ""%string) (λ _, ""%string) 0.

Definition file_of_three : world :=
  mkWorld [] (JSONStorage (Some (JsonArray (to_dict <$> three_tasks))))
          (λ _, ""%string) (λ _, ""%string) 0.

(** Two tasks that share an id. *)
Definition ann_task : Task :=
  mkTask "Call Ann" "" "low" None false "7" "2024-05-02T10:00:00".

Definition bob_task : Task :=
  mkTask "Call Bob" "" "low" None false "7" "2024-05-02T10:01:00".

Definition memory_of_twins : world :=
  mkWorld [ann_task; bob_task] (InMemoryStorage [0; 1]%nat)
          (λ _, ""%string) (λ _, ""%string) 0.

Definition busy_day : list op :=
  [op_add_task 0%nat; op_add_task 1%nat; op_complete_task_by_index 0;
   op_update_task "2" [kw_priority "high"; kw_title "Fix login bug"];
   op_search_tasks "doc"; op_delete_task "1"; op_add_task 2%nat;
   op_delete_task_by_index 5; op_get_statistics].

(** The storage of a world is a file. *)
Definition file_backed (w : world) : Prop :=
  match store w with JSONStorage _ => True | InMemoryStorage _ => False end.

(** [below n w w']: the objects at the locations under [n] have in [w'] the
    values they have in [w], and no object has disappeared. *)
Definition below (n : nat) (w w' : world) : Prop :=
  length (heap w') = length (heap w)
  ∧ ∀ j, (j < n)%nat → heap w' !! j = heap w !! j.

(** More concrete worlds: a file that does not parse, no file, a file with a
    record that lacks its title, and an in-memory storage that holds the
    first two of the three tasks. *)
Definition malformed_file : world :=
  mkWorld three_tasks (JSONStorage (Some Malformed)) (λ _, ""%string) (λ _, ""%string) 0.
Definition absent_file : world :=
  mkWorld three_tasks (JSONStorage None) (λ _, ""%string) (λ _, ""%string) 0.
Definition untitled_record : gmap string pyval :=
  <["description"%string := PStr "no title here"]> ∅.
Definition file_with_untitled_record : world :=
  mkWorld [] (JSONStorage (Some (JsonArray ((to_dict <$> [doc_task])
                                            ++ untitled_record :: []))))
          (λ _, ""%string) (λ _, ""%string) 0.
Definition memory_of_two : world :=
  mkWorld three_tasks (InMemoryStorage [0; 1]%nat) (λ _, ""%string) (λ _, ""%string) 0.

(** A file with the first two of the three tasks, the caller holding three
    task objects of its own. *)
Definition file_of_two : world :=
  mkWorld three_tasks (JSONStorage (Some (JsonArray (to_dict <$> [doc_task; bug_task]))))
          (λ _, ""%string) (λ _, ""%string) 0.

(** [a] occurs in [b]. *)
Definition occurs_in (a b : string) : Prop := ∃ pre post, b = pre +:+ a +:+ post.


(** A text for each exception, for the concrete runs of the commands: the
    name of its class. *)
Definition class_name (e : cli_exn) : string :=
  match e with
  | service_exn ValueError => "ValueError"
  | service_exn TypeError => "TypeError"
  | service_exn AttributeError => "AttributeError"
  | service_exn IOError => "OSError"
  | service_exn IllTyped => "TypeError"
  | service_exn DanglingRef => "ReferenceError"
  | KeyError _ => "KeyError"
  end.

(** Parsed arguments of concrete command lines: [add "Buy milk"],
    [list --status pending --priority high] and
    [update 1 --title "Fix login bug"]. *)
Definition add_buy_milk : add_args := mk_add_args "Buy milk" "" "medium" None.
Definition update_second_title : update_args :=
  mk_update_args 1 (Some "Fix login bug"%string) None None None.

(** * Properties *)

(** ** Stepping through the monad *)

Lemma bind_ok {A B} (m : M A) (f : A → M B) w a w' :
  m w = (Ok a, w') → (m ≫= f) w = f a w'.
Proof. intros H. unfold mbind, M_bind. by rewrite H. Qed.

Lemma bind_raise {A B} (m : M A) (f : A → M B) w e w' :
  m w = (Raise e, w') → (m ≫= f) w = (Raise e, w').
Proof. intros H. unfold mbind, M_bind. by rewrite H. Qed.

Lemma fmap_ok {A B} (m : M A) (f : A → B) w a w' :
  m w = (Ok a, w') → (f <$> m) w = (Ok (f a), w').
Proof. intros H. unfold fmap, M_fmap. by rewrite H. Qed.

Lemma ret_ok {A} (a : A) w : (mret a : M A) w = (Ok a, w).
Proof. done. Qed.

Lemma read_ok w l t : heap w !! l = Some t → read l w = (Ok t, w).
Proof. intros H. unfold read. by rewrite H. Qed.

Lemma set_heap_id w : set_heap (heap w) w = w.
Proof. by destruct w. Qed.

Lemma set_store_id w : set_store (store w) w = w.
Proof. by destruct w. Qed.

(** ** The task record *)

#[global] Instance valid_task_dec t : Decision (valid_task t).
Proof. unfold valid_task. apply _. Defined.

Lemma dom_to_dict t : dom (to_dict t) = list_to_set field_names.
Proof.
  unfold to_dict. rewrite !dom_insert_L, dom_empty_L.
  unfold field_names. simpl. set_solver.
Qed.

Lemma valid_priority_check p :
  p ∈ valid_priorities → bool_decide (PStr p ∉ PStr <$> valid_priorities) = false.
Proof.
  intros Hp. apply bool_decide_eq_false_2. intros Hn. apply Hn.
  by apply list_elem_of_fmap_2.
Qed.

Lemma invalid_priority_check p :
  p ∉ valid_priorities → bool_decide (PStr p ∉ PStr <$> valid_priorities) = true.
Proof.
  intros Hp. apply bool_decide_eq_true_2. intros Hn. apply Hp.
  apply list_elem_of_fmap in Hn as (q & Hq & Hin). by simplify_eq.
Qed.

Lemma typed_task_of_fields t :
  typed_task (PStr (title t)) (PStr (description t)) (PStr (priority t))
    (from_option PStr PNone (due_date t)) (PBool (completed t))
    (PStr (id t)) (PStr (created_at t)) = Some t.
Proof. destruct t as [? ? ? [d|] ? ? ?]; reflexivity. Qed.

Lemma from_dict_to_dict_run t w :
  valid_task t →
  from_dict (to_dict t) w = (Ok (length (heap w)), set_heap (heap w ++ [t]) w).
Proof.
  intros Hp. unfold from_dict, Task_init.
  rewrite bool_decide_eq_true_2 by (by rewrite dom_to_dict).
  unfold to_dict.
  repeat (first [rewrite lookup_insert_eq | rewrite lookup_insert_ne by done]).
  pose proof (valid_priority_check _ Hp) as Hc.
  remember (PStr <$> valid_priorities) as vp.
  simpl. unfold mbind, M_bind. simpl.
  rewrite Hc, typed_task_of_fields.
  reflexivity.
Qed.

(** C2. Round trip: for every task [t] with a valid priority (any optional
    due date, any completed flag), deserializing the serialized form of [t]
    yields an object whose fields are exactly those of [t], [id] and
    [created_at] included: reading the object [from_dict (to_dict t)]
    returns gives [t] back, and no fresh identifier or timestamp is drawn. *)
Theorem from_dict_to_dict (t : Task) (w : world) :
  priority t ∈ valid_priorities →
  (task ← from_dict (to_dict t); read task) w
  = (Ok t, set_heap (heap w ++ [t]) w).
Proof.
  intros Hp. erewrite bind_ok by (by apply from_dict_to_dict_run).
  apply read_ok. simpl. by rewrite lookup_app_r, Nat.sub_diag.
Qed.

Lemma alloc_lookup t w :
  heap (snd (alloc t w)) !! length (heap w) = Some t.
Proof. simpl. by rewrite lookup_app_r, Nat.sub_diag. Qed.

Lemma typed_task_priority a b c d e f g t :
  typed_task a b c d e f g = Some t → c = PStr (priority t).
Proof.
  unfold typed_task. intros H.
  destruct a, b, c, d, e, f, g; simplify_option_eq; done.
Qed.

Lemma typed_if_given_default {A} (as_type : pyval → option A) arg d :
  typed_if_given as_type arg = true →
  is_Some (as_type d) → is_Some (as_type (default d arg)).
Proof.
  destruct arg as [v|]; simpl; [|done].
  intros Hv _. by apply bool_decide_eq_true_1 in Hv.
Qed.

Lemma typed_if_given_Some {A} (as_type : pyval → option A) v :
  typed_if_given as_type (Some v) = true → is_Some (as_type v).
Proof. apply bool_decide_eq_true_1. Qed.

Lemma typed_task_is_Some a b c d e f g :
  is_Some (as_str a) → is_Some (as_str b) → is_Some (as_str c) →
  is_Some (as_optional_str d) → is_Some (as_bool e) →
  is_Some (as_str f) → is_Some (as_str g) →
  is_Some (typed_task a b c d e f g).
Proof.
  intros [? Ha] [? Hb] [? Hc] [? Hd] [? He] [? Hf] [? Hg].
  unfold typed_task. rewrite Ha, Hb, Hc, Hd, He, Hf, Hg. by eexists.
Qed.

Lemma Task_init_valid data w p :
  other_args_ok data = true →
  data !! "priority"%string = Some (PStr p) →
  p ∈ valid_priorities →
  ∃ task w' t, Task_init data w = (Ok task, w')
               ∧ heap w' !! task = Some t ∧ priority t = p.
Proof.
  unfold other_args_ok. intros Hok Hp Hin.
  repeat (apply andb_prop in Hok as [Hok ?]).
  unfold Task_init. rewrite Hok, Hp.
  match goal with H : bool_decide (is_Some (_ ≫= as_str)) = true |- _ =>
    apply bool_decide_eq_true_1 in H as [s Hs] end.
  destruct (data !! "title"%string) as [vt|]; [|done]. simpl in Hs.
  pose proof (valid_priority_check _ Hin) as Hc.
  remember (PStr <$> valid_priorities) as vp.
  assert (∀ f g, is_Some (as_str f) → is_Some (as_str g) →
    ∃ t, typed_task vt (default (PStr "") (data !! "description"%string))
           (PStr p) (default PNone (data !! "due_date"%string))
           (default (PBool false) (data !! "completed"%string)) f g = Some t
         ∧ priority t = p) as Htyped.
  { intros f g Hf Hg.
    destruct (typed_task_is_Some vt
      (default (PStr "") (data !! "description"%string)) (PStr p)
      (default PNone (data !! "due_date"%string))
      (default (PBool false) (data !! "completed"%string)) f g) as [t Ht];
      try (by apply typed_if_given_default); try done.
    exists t. split; [done|]. apply typed_task_priority in Ht. by simplify_eq. }
  simpl.
  destruct (data !! "id"%string) as [vi|] eqn:Hi,
           (data !! "created_at"%string) as [vc|] eqn:Hcr;
    unfold mbind, M_bind, fmap, M_fmap; simpl; rewrite Hc.
  all: match goal with |- context [typed_task ?a ?b ?c ?d ?e ?f ?g] =>
         destruct (Htyped f g) as (t & -> & Hpt) end;
       try (by apply typed_if_given_Some); try (by eexists).
  all: eexists _, _, t; split; [reflexivity|]; split; [apply alloc_lookup|done].
Qed.

Lemma Task_init_invalid data w v :
  dom data ⊆ list_to_set field_names →
  is_Some (data !! "title"%string) →
  data !! "priority"%string = Some v →
  v ∉ PStr <$> valid_priorities →
  fst (Task_init data w) = Raise ValueError.
Proof.
  intros Hdom [vt Ht] Hp Hv. unfold Task_init.
  rewrite bool_decide_eq_true_2, Ht, Hp by done.
  remember (PStr <$> valid_priorities) as vp. simpl.
  destruct (data !! "id"%string), (data !! "created_at"%string);
    unfold mbind, M_bind, fmap, M_fmap; simpl;
    by rewrite bool_decide_eq_true_2.
Qed.

Lemma Task_init_invariant data w task w' :
  Task_init data w = (Ok task, w') →
  ∃ t, heap w' !! task = Some t ∧ priority t ∈ valid_priorities.
Proof.
  unfold Task_init. case_bool_decide; [|done].
  destruct (data !! "title"%string) as [vt|]; [|done].
  remember (default (PStr "medium") (data !! "priority"%string)) as vp.
  remember (PStr <$> valid_priorities) as valid.
  destruct (data !! "id"%string), (data !! "created_at"%string);
    unfold mbind, M_bind, fmap, M_fmap; simpl;
    (case_bool_decide as Hv; [done|]);
    (match goal with |- context [typed_task ?a ?b ?c ?d ?e ?f ?g] =>
       destruct (typed_task a b c d e f g) as [t|] eqn:Ht end; [|done]);
    intros [= <- <-]; exists t;
    (split; [by (simpl; rewrite lookup_app_r, Nat.sub_diag)|]);
    apply typed_task_priority in Ht; subst vp valid; rewrite Ht in Hv;
    apply list_elem_of_fmap in Hv as (q & Hq & Hin);
    by simplify_eq.
Qed.

(** C3. Constructing a [Task] with a priority among low, medium and high
    succeeds (the other keyword arguments being what the constructor expects)
    and the new task carries that priority; with any other priority value the
    construction raises the validation error [ValueError]; hence every
    constructed task satisfies the invariant that its priority is one of low,
    medium and high. *)
Theorem Task_init_priority :
  (∀ data w p,
      other_args_ok data = true →
      data !! "priority"%string = Some (PStr p) →
      p ∈ valid_priorities →
      ∃ task w' t, Task_init data w = (Ok task, w')
                   ∧ heap w' !! task = Some t ∧ priority t = p)
  ∧ (∀ data w v,
      dom data ⊆ list_to_set field_names →
      is_Some (data !! "title"%string) →
      data !! "priority"%string = Some v →
      v ∉ PStr <$> valid_priorities →
      fst (Task_init data w) = Raise ValueError)
  ∧ (∀ data w task w',
      Task_init data w = (Ok task, w') →
      ∃ t, heap w' !! task = Some t ∧ priority t ∈ valid_priorities).
Proof.
  split; [|split].
  - apply Task_init_valid.
  - apply Task_init_invalid.
  - apply Task_init_invariant.
Qed.

(** ** The stored collection *)

Lemma refs_to_length h ls ts : refs_to h ls ts → length ls = length ts.
Proof. apply Forall2_length. Qed.

Lemma refs_to_lookup h ls ts i l :
  refs_to h ls ts → ls !! i = Some l → ∃ t, ts !! i = Some t ∧ h !! l = Some t.
Proof. intros H Hl. by destruct (Forall2_lookup_l _ _ _ _ _ H Hl) as (t & ? & ?); eauto. Qed.

Lemma refs_to_app_heap h h' ls ts : refs_to h ls ts → refs_to (h ++ h') ls ts.
Proof.
  unfold refs_to. intros H. eapply Forall2_impl; [exact H|].
  intros l t Hl. by apply lookup_app_l_Some.
Qed.

Lemma refs_to_seq h ts : refs_to (h ++ ts) (seq (length h) (length ts)) ts.
Proof.
  apply Forall2_same_length_lookup. split; [by rewrite length_seq|].
  intros i l t Hl Ht. apply lookup_seq in Hl as [-> Hi].
  by rewrite lookup_app_r, Nat.add_comm, Nat.add_sub by lia.
Qed.

Lemma refs_to_inj h ls ts ts' : refs_to h ls ts → refs_to h ls ts' → ts = ts'.
Proof.
  intros H. revert ts'. induction H as [|l t ls ts Hl _ IH]; intros ts' H';
    inversion H'; simplify_eq; [done|]. f_equal. by apply IH.
Qed.

Lemma mapM_read_ok w ls ts :
  refs_to (heap w) ls ts → mapM read ls w = (Ok ts, w).
Proof.
  induction 1 as [|l t ls ts Hl _ IH]; [done|].
  simpl. erewrite bind_ok by (by apply read_ok).
  erewrite bind_ok by exact IH. done.
Qed.

Lemma mapM_to_dict_ok hidden w ls ts :
  refs_to (heap w) ls ts →
  Forall (λ l, l ∉ hidden) ls →
  mapM (call_to_dict hidden) ls w = (Ok (to_dict <$> ts), w).
Proof.
  induction 1 as [|l t ls ts Hl _ IH]; intros Hn; [done|].
  apply Forall_cons in Hn as [Hl' Hn].
  assert (call_to_dict hidden l w = (Ok (to_dict t), w)) as Hcall.
  { unfold call_to_dict. rewrite bool_decide_eq_false_2 by done.
    by apply fmap_ok, read_ok. }
  cbn [mapM]. erewrite bind_ok by exact Hcall.
  erewrite bind_ok by (by apply IH). done.
Qed.

Lemma mapM_from_dict_ok w ts :
  Forall valid_task ts →
  mapM from_dict (to_dict <$> ts) w
  = (Ok (seq (length (heap w)) (length ts)), set_heap (heap w ++ ts) w).
Proof.
  intros H. revert w. induction H as [|t ts Ht _ IH]; intros w.
  - simpl. by rewrite app_nil_r, set_heap_id.
  - simpl. erewrite bind_ok by (by apply from_dict_to_dict_run).
    erewrite bind_ok by apply IH.
    simpl. by rewrite length_app, Nat.add_1_r, <- app_assoc.
Qed.

(** [load] on a storage that holds [ts]. *)
Lemma load_ok w ts :
  holds w ts → load w = (Ok (loaded_refs w ts), loaded_world w ts).
Proof.
  intros [Hs Hl]. unfold load, stored, loadable, loaded_refs, loaded_world in *.
  erewrite bind_ok by reflexivity.
  destruct (store w) as [ls|file]; [reflexivity|].
  destruct Hs as [[Hf Ht]|Hf]; subst; simpl.
  - by rewrite app_nil_r, set_heap_id.
  - by apply mapM_from_dict_ok.
Qed.

Lemma loaded_refs_to w ts :
  holds w ts → refs_to (heap (loaded_world w ts)) (loaded_refs w ts) ts.
Proof.
  intros [Hs Hl]. unfold stored, loaded_refs, loaded_world in *.
  destruct (store w) as [ls|file]; [done|]. apply refs_to_seq.
Qed.

Lemma loaded_world_store w ts : store (loaded_world w ts) = store w.
Proof. unfold loaded_world. by destruct (store w) eqn:E. Qed.

Lemma loaded_world_heap w ts l t :
  heap w !! l = Some t → heap (loaded_world w ts) !! l = Some t.
Proof.
  unfold loaded_world. destruct (store w); [done|].
  simpl. apply lookup_app_l_Some.
Qed.

Lemma loaded_refs_length w ts : holds w ts → length (loaded_refs w ts) = length ts.
Proof. intros H. eapply refs_to_length, loaded_refs_to, H. Qed.

Lemma holds_loaded_world w ts : holds w ts → holds (loaded_world w ts) ts.
Proof.
  intros [Hs Hl]. unfold holds, stored, loadable, loaded_world in *.
  destruct (store w) as [ls|file] eqn:E; rewrite ?E; [done|].
  simpl. by rewrite E.
Qed.

Lemma save_hiding_ok hidden w ls ts :
  refs_to (heap w) ls ts →
  Forall (λ l, l ∉ hidden) ls →
  save_hiding hidden ls w = (Ok (), saved_world w ls ts).
Proof.
  intros H Hn. unfold save_hiding, saved_world. erewrite bind_ok by reflexivity.
  destruct (store w) as [ls0|file]; [reflexivity|].
  unfold JSONStorage_save. erewrite bind_ok by (by apply mapM_to_dict_ok). done.
Qed.

Lemma save_ok w ls ts :
  refs_to (heap w) ls ts → save ls w = (Ok (), saved_world w ls ts).
Proof.
  intros H. apply save_hiding_ok; [done|].
  apply Forall_forall. intros l _. apply not_elem_of_nil.
Qed.

Lemma saved_world_stored w ls ts :
  refs_to (heap w) ls ts → stored (saved_world w ls ts) ts.
Proof.
  intros H. unfold stored, saved_world. destruct (store w); simpl; [done|by right].
Qed.

Lemma saved_world_heap w ls ts : heap (saved_world w ls ts) = heap w.
Proof. unfold saved_world. by destruct (store w). Qed.

(** ** List comprehensions over task objects *)

Lemma comprehension_ok p w ls ts :
  refs_to (heap w) ls ts → comprehension p ls w = (Ok (kept p ls ts), w).
Proof.
  induction 1 as [|l t ls ts Hl _ IH]; [done|].
  simpl. erewrite bind_ok by (by apply read_ok).
  erewrite bind_ok by exact IH. by destruct (p t).
Qed.

Lemma kept_refs_to p h ls ts :
  refs_to h ls ts → refs_to h (kept p ls ts) (filter (λ t, p t) ts).
Proof.
  induction 1 as [|l t ls ts Hl _ IH]; [constructor|].
  simpl. rewrite filter_cons. destruct (p t); simpl; [by constructor|done].
Qed.

Lemma filter_length_all {A} (P : A → Prop) `{∀ x, Decision (P x)} (l : list A) :
  ¬ (length (filter P l) < length l)%nat → Forall P l.
Proof.
  induction l as [|x l IH]; [constructor|].
  rewrite filter_cons. pose proof (length_filter P l). destruct (decide (P x)); simpl.
  - intros Hlen. constructor; [done|]. apply IH. lia.
  - intros Hlen. lia.
Qed.

Lemma filter_all {A} (P : A → Prop) `{∀ x, Decision (P x)} (l : list A) :
  Forall P l → filter P l = l.
Proof.
  induction 1 as [|x l Hx _ IH]; [done|].
  rewrite filter_cons, decide_True by done. by f_equal.
Qed.

Lemma filter_length_lt {A} (P : A → Prop) `{∀ x, Decision (P x)} (l : list A) :
  (length (filter P l) < length l)%nat ↔ Exists (λ x, ¬ P x) l.
Proof.
  split.
  - intros Hlt. apply not_Forall_Exists; [apply _|].
    intros Hall. rewrite filter_all in Hlt by done. lia.
  - intros Hex. destruct (decide (length (filter P l) < length l)%nat) as [|Hn];
      [done|]. apply filter_length_all in Hn.
    apply Exists_exists in Hex as (x & Hx & Hnx).
    by rewrite Forall_forall in Hn; specialize (Hn x Hx).
Qed.

(** ** Attribute updates *)

Lemma getattr_set_field key kw t :
  getattr key (set_field kw t)
  = if names_field kw && bool_decide (kw_key kw = key)
    then Some (kw_value kw) else getattr key t.
Proof.
  destruct kw; simpl; try case_bool_decide; simplify_eq; try done;
    unfold getattr; simpl; repeat case_bool_decide; simplify_eq; done.
Qed.

Lemma named_value_from found key updates :
  foldl (λ found kw,
           if names_field kw && bool_decide (kw_key kw = key)
           then Some (kw_value kw) else found)
        found updates
  = from_option Some found (named_value key updates).
Proof.
  unfold named_value. revert found.
  induction updates as [|kw rest IH]; intros found; [done|].
  simpl. rewrite IH, (IH (if names_field kw && bool_decide (kw_key kw = key)
                          then Some (kw_value kw) else None)).
  by destruct (foldl _ None rest), (names_field kw && bool_decide (kw_key kw = key)).
Qed.

Lemma getattr_apply_updates key updates t :
  getattr key (apply_updates updates t)
  = from_option Some (getattr key t) (named_value key updates).
Proof.
  unfold apply_updates. revert t.
  induction updates as [|kw rest IH]; intros t; [done|].
  simpl. rewrite IH, getattr_set_field.
  unfold named_value at 2. simpl. rewrite named_value_from.
  by destruct (named_value key rest), (names_field kw && bool_decide (kw_key kw = key)).
Qed.

(** A keyword that names nothing is skipped by the test [hasattr]. *)
Lemma names_nothing_hasattr kw : names_nothing kw = true → hasattr kw = false.
Proof.
  destruct kw as [| | | | | | |key]; try done. unfold names_nothing, hasattr.
  intros Hn%bool_decide_eq_true_1. apply bool_decide_eq_false_2.
  intros Hin. apply Hn.
  apply elem_of_app in Hin as [Hin|Hin]; apply elem_of_app; [by left|].
  right. apply elem_of_app. by left.
Qed.

Lemma names_field_hasattr kw : names_field kw = true → hasattr kw = true.
Proof. by destruct kw. Qed.

Lemma plain_cons kw updates :
  plain (kw :: updates)
  ↔ (names_field kw = true ∨ names_nothing kw = true) ∧ plain updates.
Proof. unfold plain. by rewrite Forall_cons, orb_true_iff. Qed.

#[global] Instance plain_dec updates : Decision (plain updates).
Proof. unfold plain. apply _. Defined.

#[global] Instance plain_op_dec o : Decision (plain_op o).
Proof. destruct o; simpl; apply _. Defined.

Lemma plain_hides_nothing updates : plain updates → hides_to_dict updates = false.
Proof.
  intros Hp. apply bool_decide_eq_false_2. intros Hex.
  apply Exists_exists in Hex as (kw & Hin & ->).
  eapply Forall_forall in Hp; [|exact Hin]. revert Hp. by vm_compute.
Qed.

Lemma setattr_field w task t kw :
  names_field kw = true →
  heap w !! task = Some t →
  setattr task kw w = (Ok (), set_heap (<[task := set_field kw t]> (heap w)) w).
Proof.
  intros Hkw Ht.
  assert ((t ← read task; write task (set_field kw t)) w
          = (Ok (), set_heap (<[task := set_field kw t]> (heap w)) w)) as E.
  { erewrite bind_ok by (by apply read_ok). unfold write. by rewrite Ht. }
  by destruct kw.
Qed.

Lemma update_fields_ok w task t updates :
  plain updates →
  heap w !! task = Some t →
  update_fields task updates w
  = (Ok (), set_heap (<[task := apply_updates updates t]> (heap w)) w).
Proof.
  intros Hp. revert w t. induction Hp as [|kw rest Hkw _ IH]; intros w t Ht.
  - simpl. by rewrite list_insert_id, set_heap_id.
  - cbn [update_fields]. apply orb_true_iff in Hkw as [Hkw|Hkw].
    + rewrite (names_field_hasattr _ Hkw).
      erewrite bind_ok by (by apply setattr_field).
      erewrite IH by (simpl; apply list_lookup_insert_eq; by eapply lookup_lt_Some).
      simpl. by rewrite list_insert_insert_eq.
    + rewrite (names_nothing_hasattr _ Hkw).
      erewrite bind_ok by reflexivity.
      rewrite (IH w t) by done. by destruct kw.
Qed.

Lemma refs_to_insert h ls ts l t' :
  refs_to h ls ts → refs_to (<[l := t']> h) ls (overwrite ls l t' ts).
Proof.
  induction 1 as [|l0 t ls ts Hl _ IH]; [constructor|].
  simpl. constructor; [|done]. case_decide as E.
  - subst. apply list_lookup_insert_eq. by eapply lookup_lt_Some.
  - by rewrite list_lookup_insert_ne.
Qed.

Lemma overwrite_length ls l t' ts :
  length ls = length ts → length (overwrite ls l t' ts) = length ts.
Proof. intros H. unfold overwrite. rewrite length_zip_with. lia. Qed.

Lemma overwrite_lookup ls l t' ts j l' t :
  ls !! j = Some l' → ts !! j = Some t →
  overwrite ls l t' ts !! j = Some (if decide (l' = l) then t' else t).
Proof.
  intros Hl Ht. unfold overwrite. rewrite lookup_zip_with, Hl. simpl. by rewrite Ht.
Qed.

(** ** [update_task] *)

Lemma update_task_loop_not_found w tasks task_id updates remaining ts :
  refs_to (heap w) remaining ts →
  Forall (λ t, id t ≠ task_id) ts →
  update_task_loop tasks task_id updates remaining w = (Ok false, w).
Proof.
  induction 1 as [|l t ls ts Hl _ IH]; intros Hall; [done|].
  apply Forall_cons in Hall as [Ht Hall].
  simpl. erewrite bind_ok by (by apply read_ok).
  rewrite bool_decide_eq_false_2 by done. by apply IH.
Qed.

Lemma update_task_loop_found w tasks task_id updates remaining ts k t l :
  refs_to (heap w) remaining ts →
  first_match task_id ts k t →
  remaining !! k = Some l →
  update_task_loop tasks task_id updates remaining w
  = (update_fields l updates;;
     save_hiding (if hides_to_dict updates then [l] else []) tasks;;
     mret true) w.
Proof.
  intros H. revert k.
  induction H as [|l0 t0 ls ts Hl0 _ IH]; intros k (Hk & Hid & Hfirst) Hl.
  - by rewrite lookup_nil in Hk.
  - simpl. erewrite bind_ok by (by apply read_ok).
    destruct k as [|k]; simpl in *; simplify_eq.
    + by rewrite bool_decide_eq_true_2.
    + rewrite bool_decide_eq_false_2 by (by apply (Hfirst 0%nat); [lia|]).
      apply (IH k); [|done]. split; [done|]. split; [done|].
      intros j t' Hj Ht'. apply (Hfirst (S j)); [lia|done].
Qed.

Lemma update_task_run w ts task_id updates k t l :
  plain updates →
  holds w ts →
  first_match task_id ts k t →
  loaded_refs w ts !! k = Some l →
  update_task task_id updates w
  = (Ok true, updated_world w ts l (apply_updates updates t)).
Proof.
  intros Hp Hh Hfirst Hl. unfold update_task.
  erewrite bind_ok by (by apply load_ok).
  pose proof (loaded_refs_to _ _ Hh) as Hrefs.
  erewrite update_task_loop_found by done.
  destruct (refs_to_lookup _ _ _ _ _ Hrefs Hl) as (t0 & Ht0 & Hheap).
  destruct Hfirst as (Hk & _). simplify_eq.
  erewrite bind_ok by (by apply update_fields_ok).
  rewrite (plain_hides_nothing _ Hp). fold (save (loaded_refs w ts)).
  erewrite bind_ok by (apply save_ok; simpl; by apply refs_to_insert).
  reflexivity.
Qed.

Lemma plain_completed : plain [kw_completed true].
Proof. by repeat constructor. Qed.

Lemma update_task_absent w ts task_id updates :
  holds w ts →
  Forall (λ t, id t ≠ task_id) ts →
  update_task task_id updates w = (Ok false, loaded_world w ts).
Proof.
  intros Hh Hall. unfold update_task.
  erewrite bind_ok by (by apply load_ok).
  eapply update_task_loop_not_found; [by apply loaded_refs_to|done].
Qed.

Lemma loaded_refs_same_object w ts j k l l' :
  holds w ts →
  loaded_refs w ts !! k = Some l →
  loaded_refs w ts !! j = Some l' →
  l' = l ↔ same_object w k j.
Proof.
  intros Hh. unfold loaded_refs, same_object. destruct (store w) as [ls|file].
  - intros -> ->. split; congruence.
  - intros [-> ?]%lookup_seq [-> ?]%lookup_seq. lia.
Qed.

Lemma updated_world_stored w ts l t' :
  holds w ts →
  stored (updated_world w ts l t') (overwrite (loaded_refs w ts) l t' ts).
Proof.
  intros Hh. unfold updated_world. apply saved_world_stored.
  simpl. apply refs_to_insert. by apply loaded_refs_to.
Qed.

(** What [update_task] does when a task has the id: the general statement. *)
Lemma update_task_found w ts task_id updates k t :
  plain updates →
  holds w ts →
  first_match task_id ts k t →
  ∃ w' ts',
    update_task task_id updates w = (Ok true, w')
    ∧ stored w' ts'
    ∧ length ts' = length ts
    ∧ ts' !! k = Some (apply_updates updates t)
    ∧ (∀ j, ¬ same_object w k j → ts' !! j = ts !! j)
    ∧ (∀ j, (j < length ts)%nat → same_object w k j →
            ts' !! j = Some (apply_updates updates t)).
Proof.
  intros Hp Hh Hfirst. pose proof Hfirst as (Hk & _).
  pose proof (loaded_refs_length _ _ Hh) as Hlen.
  destruct (lookup_lt_is_Some_2 (loaded_refs w ts) k) as [l Hl];
    [rewrite Hlen; by eapply lookup_lt_Some|].
  eexists _, _. split; [by eapply update_task_run|].
  split; [by apply updated_world_stored|].
  split; [by apply overwrite_length|].
  split; [|split].
  - erewrite overwrite_lookup by done. by rewrite decide_True.
  - intros j Hj. destruct (ts !! j) as [tj|] eqn:Htj.
    + destruct (lookup_lt_is_Some_2 (loaded_refs w ts) j) as [l' Hl'];
        [rewrite Hlen; by eapply lookup_lt_Some|].
      erewrite overwrite_lookup by done. rewrite decide_False; [done|].
      intros E. apply Hj. by eapply loaded_refs_same_object.
    + apply lookup_ge_None. rewrite overwrite_length by done.
      by apply lookup_ge_None.
  - intros j Hj Hsame.
    destruct (lookup_lt_is_Some_2 ts j) as [tj Htj]; [done|].
    destruct (lookup_lt_is_Some_2 (loaded_refs w ts) j) as [l' Hl'];
      [by rewrite Hlen|].
    erewrite overwrite_lookup by done. rewrite decide_True; [done|].
    by eapply loaded_refs_same_object.
Qed.

(** C1 (as amended). Take an update set in which every keyword names a
    field of the task or names nothing a task object has.  When the
    collection contains a task with the id, [update_task] overwrites, on the
    first such task, exactly the fields the update set names: every named
    field takes the given value, [id] and [created_at] included when the
    update set names them; every field that is not named keeps its value, so
    [id] and [created_at] are preserved whenever the update set does not
    name them.  The collection is persisted and the result is found.  When
    no task has the id the result is not-found, whatever the update set, and
    the storage is left as it was. *)
Theorem update_task_overwrites_named_fields
    (w : world) (ts : list Task) (task_id : string) (updates : list kwarg) :
  holds w ts →
  (plain updates →
   ∀ k t, first_match task_id ts k t →
     ∃ w' ts' t',
       update_task task_id updates w = (Ok true, w')
       ∧ stored w' ts' ∧ length ts' = length ts ∧ ts' !! k = Some t'
       ∧ (∀ key, getattr key t'
                 = from_option Some (getattr key t) (named_value key updates))
       ∧ (named_value "id" updates = None → id t' = id t)
       ∧ (named_value "created_at" updates = None → created_at t' = created_at t))
  ∧ (Forall (λ t, id t ≠ task_id) ts →
     ∃ w', update_task task_id updates w = (Ok false, w')
           ∧ store w' = store w ∧ holds w' ts).
Proof.
  intros Hh. split.
  - intros Hp k t Hfirst.
    destruct (update_task_found w ts task_id updates k t Hp Hh Hfirst)
      as (w' & ts' & Hrun & Hst & Hlen & Hk & _).
    exists w', ts', (apply_updates updates t).
    do 4 (split; [done|]). split; [|split].
    + intros key. apply getattr_apply_updates.
    + intros Hn. pose proof (getattr_apply_updates "id" updates t) as E.
      rewrite Hn in E. by injection E.
    + intros Hn. pose proof (getattr_apply_updates "created_at" updates t) as E.
      rewrite Hn in E. by injection E.
  - intros Hall. exists (loaded_world w ts).
    split; [by apply update_task_absent|].
    split; [apply loaded_world_store|by apply holds_loaded_world].
Qed.

(** ** [delete_task] *)

Lemma delete_task_run w ts task_id :
  holds w ts →
  delete_task task_id w
  = let w1 := loaded_world w ts in
    let refs := loaded_refs w ts in
    let p := λ t, bool_decide (id t ≠ task_id) in
    if (length (kept p refs ts) <? length refs)%nat
    then (Ok true, saved_world w1 (kept p refs ts) (filter (λ t, p t) ts))
    else (Ok false, w1).
Proof.
  intros Hh. unfold delete_task.
  erewrite bind_ok by (by apply load_ok).
  pose proof (loaded_refs_to _ _ Hh) as Hrefs.
  erewrite bind_ok by (by apply comprehension_ok).
  simpl. destruct (_ <? _)%nat; [|done].
  erewrite bind_ok by (by eapply save_ok, kept_refs_to). done.
Qed.

Lemma filter_id_ne task_id (ts : list Task) :
  filter (λ t, bool_decide (id t ≠ task_id)) ts = filter (λ t, id t ≠ task_id) ts.
Proof. apply list_filter_iff. intros t. by rewrite bool_decide_spec. Qed.

Lemma kept_length p h ls ts :
  refs_to h ls ts → length (kept p ls ts) = length (filter (λ t, p t) ts).
Proof. intros H. eapply refs_to_length, kept_refs_to, H. Qed.

Lemma delete_task_spec (w : world) (ts : list Task) (task_id : string) :
  holds w ts →
  ∃ w',
    delete_task task_id w
    = (Ok (bool_decide (Exists (λ t, id t = task_id) ts)), w')
    ∧ stored w' (filter (λ t, id t ≠ task_id) ts)
    ∧ (Forall (λ t, id t ≠ task_id) ts → store w' = store w)
    ∧ (∀ l t, heap w !! l = Some t → heap w' !! l = Some t).
Proof.
  intros Hh. rewrite (delete_task_run w ts) by done. cbv zeta.
  pose proof (loaded_refs_to _ _ Hh) as Hrefs.
  rewrite (kept_length _ _ _ _ Hrefs), (refs_to_length _ _ _ Hrefs), filter_id_ne.
  destruct (Nat.ltb_spec (length (filter (λ t, id t ≠ task_id) ts)) (length ts))
    as [Hlt|Hge].
  - apply filter_length_lt in Hlt.
    eexists. split; [|split; [|split]].
    + f_equal. f_equal. symmetry. apply bool_decide_eq_true_2.
      eapply Exists_impl; [exact Hlt|]. intros t Ht. by apply dec_stable.
    + rewrite <- filter_id_ne.
      apply saved_world_stored. by apply kept_refs_to.
    + intros Hall. exfalso. apply Exists_exists in Hlt as (t & Hin & Hn).
      rewrite Forall_forall in Hall. by apply Hn, Hall.
    + intros l t Hl. rewrite saved_world_heap. by apply loaded_world_heap.
  - assert (Forall (λ t, id t ≠ task_id) ts) as Hall
      by (apply (filter_length_all (λ t, id t ≠ task_id)); lia).
    eexists. split; [|split; [|split]].
    + f_equal. f_equal. symmetry. apply bool_decide_eq_false_2.
      intros Hex. apply Exists_exists in Hex as (t & Hin & Hid).
      rewrite Forall_forall in Hall. by apply (Hall t).
    + rewrite filter_all by done. by apply holds_loaded_world.
    + intros _. apply loaded_world_store.
    + intros l t. apply loaded_world_heap.
Qed.

(** C4. [delete_task] removes all the tasks whose id is the given id and
    keeps the others in their order; it persists the collection only if
    something was removed, returns found exactly when something was removed,
    and when no task has the id the storage is left as it was.  No task
    object is modified. *)
Theorem delete_task_removes_all (w : world) (ts : list Task) (task_id : string) :
  holds w ts →
  ∃ w',
    delete_task task_id w
    = (Ok (bool_decide (Exists (λ t, id t = task_id) ts)), w')
    ∧ stored w' (filter (λ t, id t ≠ task_id) ts)
    ∧ (Forall (λ t, id t ≠ task_id) ts → store w' = store w)
    ∧ (∀ l t, heap w !! l = Some t → heap w' !! l = Some t).
Proof. apply delete_task_spec. Qed.

(** C10. With two or more tasks of the same id in the collection,
    [update_task] (and [complete_task], which is [update_task] with
    [completed=True]) modifies the first task in storage order whose id
    matches and nothing else: that task takes the values the update set
    names (for [complete_task]: it is completed, its other fields as they
    were), and every position that is not that very object keeps its value,
    the later tasks with the same id among them.  [delete_task], in
    contrast, removes every task with the id.  The keywords of the update
    set name fields, or nothing a task object has. *)
Theorem update_task_first_match_only
    (w : world) (ts : list Task) (task_id : string) (updates : list kwarg)
    (k : nat) (t : Task) :
  holds w ts →
  first_match task_id ts k t →
  plain updates →
  (∃ w' ts' t',
     update_task task_id updates w = (Ok true, w')
     ∧ stored w' ts' ∧ length ts' = length ts
     ∧ ts' !! k = Some t'
     ∧ (∀ key, getattr key t'
               = from_option Some (getattr key t) (named_value key updates))
     ∧ ∀ j, ¬ same_object w k j → ts' !! j = ts !! j)
  ∧ (∃ w' ts',
     complete_task task_id w = (Ok true, w')
     ∧ stored w' ts' ∧ length ts' = length ts
     ∧ ts' !! k = Some (mkTask (title t) (description t) (priority t)
                               (due_date t) true (id t) (created_at t))
     ∧ ∀ j, ¬ same_object w k j → ts' !! j = ts !! j)
  ∧ (∃ w', delete_task task_id w = (Ok true, w')
           ∧ stored w' (filter (λ t, id t ≠ task_id) ts)).
Proof.
  intros Hh Hfirst Hp. split; [|split].
  - destruct (update_task_found w ts task_id updates k t Hp Hh Hfirst)
      as (w' & ts' & Hrun & Hst & Hlen & Hk & Hother & _).
    exists w', ts', (apply_updates updates t).
    do 4 (split; [done|]). split; [|done].
    intros key. apply getattr_apply_updates.
  - destruct (update_task_found w ts task_id [kw_completed true] k t
                plain_completed Hh Hfirst)
      as (w' & ts' & Hrun & Hst & Hlen & Hk & Hother & _).
    by exists w', ts'.
  - destruct (delete_task_spec w ts task_id Hh) as (w' & Hrun & Hst & _).
    exists w'. split; [|done]. rewrite Hrun. do 2 f_equal.
    apply bool_decide_eq_true_2. destruct Hfirst as (Hk & Hid & _).
    apply Exists_exists. exists t. split; [|done]. by eapply list_elem_of_lookup_2.
Qed.

(** ** Access by position *)

Lemma get_task_by_index_run w ts index :
  holds w ts →
  get_task_by_index index w
  = (Ok (if in_range index (length ts)
         then loaded_refs w ts !! Z.to_nat index else None),
     loaded_world w ts).
Proof.
  intros Hh. unfold get_task_by_index.
  erewrite bind_ok by (by apply load_ok).
  rewrite loaded_refs_length by done. unfold in_range.
  by destruct (_ && _).
Qed.

Lemma delete_task_by_index_run w ts index :
  holds w ts →
  delete_task_by_index index w
  = if in_range index (length ts)
    then (Ok true, saved_world (loaded_world w ts)
                     (delete (Z.to_nat index) (loaded_refs w ts))
                     (delete (Z.to_nat index) ts))
    else (Ok false, loaded_world w ts).
Proof.
  intros Hh. unfold delete_task_by_index.
  erewrite bind_ok by (by apply load_ok).
  rewrite loaded_refs_length by done. unfold in_range.
  destruct (_ && _); [|done].
  erewrite bind_ok; [done|]. apply save_ok.
  apply Forall2_delete. by apply loaded_refs_to.
Qed.

Lemma in_range_false index n :
  index < 0 ∨ Z.of_nat n ≤ index → in_range index n = false.
Proof. unfold in_range. intros [H|H]; apply andb_false_iff; [left|right]; lia. Qed.

Lemma in_range_true index n :
  0 ≤ index < Z.of_nat n → in_range index n = true.
Proof. unfold in_range. intros H. apply andb_true_iff. split; lia. Qed.

Lemma same_object_loaded_world w ts i j :
  same_object (loaded_world w ts) i j ↔ same_object w i j.
Proof. unfold same_object. by rewrite loaded_world_store. Qed.

Lemma complete_task_by_index_absent w ts index :
  holds w ts →
  in_range index (length ts) = false →
  complete_task_by_index index w = (Ok false, loaded_world w ts).
Proof.
  intros Hh Hr. unfold complete_task_by_index.
  erewrite bind_ok by (by apply get_task_by_index_run). by rewrite Hr.
Qed.

(** C5. With an index outside [0, n), [n] the length of the collection,
    [get_task_by_index] returns [None] and [delete_task_by_index] and
    [complete_task_by_index] return [False]; none raises an exception, none
    persists anything, the storage is left as it was and still holds the same
    collection. *)
Theorem index_out_of_range_not_found (w : world) (ts : list Task) (index : Z) :
  holds w ts →
  index < 0 ∨ Z.of_nat (length ts) ≤ index →
  (∃ w', get_task_by_index index w = (Ok None, w')
         ∧ store w' = store w ∧ holds w' ts)
  ∧ (∃ w', delete_task_by_index index w = (Ok false, w')
           ∧ store w' = store w ∧ holds w' ts)
  ∧ (∃ w', complete_task_by_index index w = (Ok false, w')
           ∧ store w' = store w ∧ holds w' ts).
Proof.
  intros Hh Hout. apply in_range_false in Hout.
  split; [|split]; exists (loaded_world w ts);
    (split; [|split; [apply loaded_world_store|by apply holds_loaded_world]]).
  - rewrite (get_task_by_index_run w ts) by done. by rewrite Hout.
  - rewrite (delete_task_by_index_run w ts) by done. by rewrite Hout.
  - by apply complete_task_by_index_absent.
Qed.

Lemma complete_task_by_index_run w ts index t :
  holds w ts →
  in_range index (length ts) = true →
  ts !! Z.to_nat index = Some t →
  complete_task_by_index index w = complete_task (id t) (loaded_world w ts).
Proof.
  intros Hh Hr Ht. unfold complete_task_by_index.
  erewrite bind_ok by (by apply get_task_by_index_run). rewrite Hr.
  pose proof (loaded_refs_to _ _ Hh) as Hrefs.
  destruct (lookup_lt_is_Some_2 (loaded_refs w ts) (Z.to_nat index)) as [l Hl];
    [rewrite loaded_refs_length by done; by eapply lookup_lt_Some|].
  rewrite Hl.
  destruct (refs_to_lookup _ _ _ _ _ Hrefs Hl) as (t0 & Ht0 & Hheap). simplify_eq.
  by erewrite bind_ok by (by apply read_ok).
Qed.

(** For an index in [0, len) such that no earlier task of the collection has
    the id of the task at that position, [complete_task_by_index] sets
    [completed] on the task at that position, leaves the values at all
    positions that are not that very object, the length and the order
    unchanged, and persists. *)
Lemma complete_task_by_index_first_of_its_id
    (w : world) (ts : list Task) (index : Z) (t : Task) :
  holds w ts →
  0 ≤ index < Z.of_nat (length ts) →
  ts !! Z.to_nat index = Some t →
  (∀ j t', (j < Z.to_nat index)%nat → ts !! j = Some t' → id t' ≠ id t) →
  ∃ w' ts',
    complete_task_by_index index w = (Ok true, w')
    ∧ stored w' ts'
    ∧ length ts' = length ts
    ∧ ts' !! Z.to_nat index = Some (set_field (kw_completed true) t)
    ∧ ∀ j, ¬ same_object w (Z.to_nat index) j → ts' !! j = ts !! j.
Proof.
  intros Hh Hr Ht Hfirst.
  rewrite (complete_task_by_index_run w ts index t)
    by (try apply in_range_true; done).
  destruct (update_task_found (loaded_world w ts) ts (id t) [kw_completed true]
              (Z.to_nat index) t) as (w' & ts' & Hrun & Hst & Hlen & Hk & Hother & _);
    [apply plain_completed|by apply holds_loaded_world|done|].
  exists w', ts'. do 4 (split; [done|]).
  intros j Hj. apply Hother. by rewrite same_object_loaded_world.
Qed.

(** ** Strings *)

Lemma str_app_nil (b : string) : "" +:+ b = b.
Proof. reflexivity. Qed.

Lemma str_app_cons x (a b : string) : String x a +:+ b = String x (a +:+ b).
Proof. reflexivity. Qed.

Lemma prefix_spec (a b : string) :
  String.prefix a b = true ↔ ∃ post, b = a +:+ post.
Proof.
  revert b. induction a as [|x a IH]; intros b.
  - destruct b; simpl; split; eauto.
  - destruct b as [|y b]; simpl.
    + split; [done|]. intros [post E]. by rewrite str_app_cons in E.
    + destruct (ascii_dec x y) as [->|Hne].
      * rewrite IH. split; intros [post E]; exists post;
          rewrite str_app_cons in *; congruence.
      * split; [done|]. intros [post E]. rewrite str_app_cons in E. congruence.
Qed.

(** [a in b]: [a] occurs in [b] as a substring. *)
Lemma str_in_spec (a b : string) :
  str_in a b = true ↔ ∃ pre post, b = pre +:+ a +:+ post.
Proof.
  induction b as [|y b IH]; cbn [str_in].
  - rewrite orb_false_r, prefix_spec. split.
    + intros [post E]. by exists ""%string, post.
    + intros (pre & post & E). destruct pre; [by exists post|done].
  - rewrite orb_true_iff, IH, prefix_spec. split.
    + intros [[post E]|(pre & post & E)].
      * by exists ""%string, post.
      * exists (String y pre), post. by rewrite str_app_cons, E.
    + intros (pre & post & E). destruct pre as [|x pre].
      * left. by exists post.
      * right. exists pre, post. rewrite str_app_cons in E. congruence.
Qed.

Lemma lower_app (a b : string) : lower (a +:+ b) = lower a +:+ lower b.
Proof.
  induction a as [|x a IH]; [done|].
  rewrite str_app_cons. simpl. by rewrite str_app_cons, IH.
Qed.

Lemma lower_split (s x y : string) :
  lower s = x +:+ y → ∃ a b, s = a +:+ b ∧ lower a = x ∧ lower b = y.
Proof.
  revert s. induction x as [|c x IH]; intros s E.
  - by exists ""%string, s.
  - rewrite str_app_cons in E.
    destruct s as [|d s]; simpl in E; [done|]. simplify_eq.
    destruct (IH s) as (a & b & -> & <- & <-); [done|].
    by exists (String d a), b.
Qed.

Lemma nat_of_ascii_inj x y : nat_of_ascii x = nat_of_ascii y → x = y.
Proof.
  intros H. rewrite <- (ascii_nat_embedding x), <- (ascii_nat_embedding y).
  by rewrite H.
Qed.

(** [lower_char] identifies exactly the characters that are the same letter,
    case ignored. *)
Lemma lower_char_same_letter x y :
  lower_char x = lower_char y ↔ same_letter x y.
Proof.
  unfold lower_char, same_letter, is_capital.
  pose proof (nat_ascii_bounded x) as Hx. pose proof (nat_ascii_bounded y) as Hy.
  destruct (Nat.leb_spec 65 (nat_of_ascii x)) as [X1|X1],
           (Nat.leb_spec (nat_of_ascii x) 90) as [X2|X2],
           (Nat.leb_spec 65 (nat_of_ascii y)) as [Y1|Y1],
           (Nat.leb_spec (nat_of_ascii y) 90) as [Y2|Y2]; cbn [andb].
  all: split;
    [ intros E; apply (f_equal nat_of_ascii) in E;
      rewrite ?nat_ascii_embedding in E by lia;
      first [ left; apply nat_of_ascii_inj; lia
            | right; left; split; lia
            | right; right; split; lia ]
    | intros [->|[[Hc E]|[Hc E]]];
      first [ done
            | exfalso; lia
            | apply nat_of_ascii_inj; rewrite ?nat_ascii_embedding by lia; lia ] ].
Qed.

Lemma lower_equal (a b : string) : lower a = lower b ↔ equal_ignoring_case a b.
Proof.
  revert b. induction a as [|x a IH]; intros [|y b]; simpl; try done.
  rewrite <- IH, <- lower_char_same_letter. split.
  - by intros [= -> ->].
  - by intros [-> ->].
Qed.

Lemma str_in_lower (keyword text : string) :
  str_in (lower keyword) (lower text) = true ↔ contains_ignoring_case text keyword.
Proof.
  rewrite str_in_spec. split.
  - intros (x & y & E).
    apply lower_split in E as (pre & rest & -> & <- & E).
    apply lower_split in E as (mid & post & -> & E & <-).
    exists pre, mid, post. split; [done|]. by apply lower_equal.
  - intros (pre & mid & post & -> & E%lower_equal).
    exists (lower pre), (lower post). by rewrite !lower_app, E.
Qed.

#[global] Instance contains_ignoring_case_dec text keyword :
  Decision (contains_ignoring_case text keyword).
Proof.
  refine (cast_if (decide (str_in (lower keyword) (lower text) = true)));
    by rewrite <- str_in_lower.
Defined.

#[global] Instance is_ascii_dec s : Decision (is_ascii s).
Proof. induction s as [|c s IH]; simpl; apply _. Defined.

#[global] Instance ascii_task_dec t : Decision (ascii_task t).
Proof. unfold ascii_task. apply _. Defined.

(** ** [search_tasks] and [filter_tasks] *)

Lemma filter_tasks_run w ts filter_func :
  holds w ts →
  filter_tasks filter_func w
  = (Ok (kept filter_func (loaded_refs w ts) ts), loaded_world w ts).
Proof.
  intros Hh. unfold filter_tasks.
  erewrite bind_ok by (by apply load_ok).
  apply comprehension_ok. by apply loaded_refs_to.
Qed.

Lemma search_tasks_run w ts keyword :
  holds w ts →
  search_tasks keyword w
  = (Ok (kept (search_test keyword) (loaded_refs w ts) ts), loaded_world w ts).
Proof.
  intros Hh. unfold search_tasks.
  erewrite bind_ok by (by apply load_ok).
  apply comprehension_ok. by apply loaded_refs_to.
Qed.



(** ** [get_statistics] *)

Lemma get_statistics_run w ts :
  holds w ts →
  get_statistics w = (Ok (statistics_of ts), loaded_world w ts).
Proof.
  intros Hh. unfold get_statistics.
  erewrite bind_ok by (by apply load_ok).
  erewrite bind_ok by (by apply mapM_read_ok, loaded_refs_to).
  by rewrite loaded_refs_length.
Qed.

Lemma count_completed_from acc ts :
  foldl (λ acc t, if completed t then acc + 1 else acc) acc ts
  = acc + Z.of_nat (length (filter (λ t, completed t = true) ts)).
Proof.
  revert acc. induction ts as [|t ts IH]; intros acc; simpl; [lia|].
  rewrite IH, filter_cons.
  destruct (completed t); case_decide; try done; simpl; lia.
Qed.

Lemma count_completed_spec ts :
  count_completed ts = Z.of_nat (length (filter (λ t, completed t = true) ts)).
Proof. unfold count_completed. by rewrite count_completed_from. Qed.

Lemma count_priorities_from (priority_counts : gmap string Z) ts p :
  foldl (λ priority_counts t,
           match priority_counts !! priority t with
           | Some n => <[priority t := n + 1]> priority_counts
           | None => priority_counts
           end) priority_counts ts !! p
  = (λ n, n + Z.of_nat (length (filter (λ t, priority t = p) ts)))
      <$> priority_counts !! p.
Proof.
  revert priority_counts. induction ts as [|t ts IH]; intros m; simpl.
  - destruct (m !! p); simpl; [f_equal; lia|done].
  - rewrite IH, filter_cons. destruct (decide (priority t = p)) as [<-|Hne].
    + destruct (m !! priority t) as [n|] eqn:E.
      * rewrite lookup_insert_eq. simpl. f_equal. lia.
      * by rewrite E.
    + destruct (m !! priority t) as [n|] eqn:E; [|done].
      by rewrite lookup_insert_ne.
Qed.

Lemma count_priorities_spec ts p :
  count_priorities ts !! p
  = if decide (p ∈ valid_priorities)
    then Some (Z.of_nat (length (filter (λ t, priority t = p) ts)))
    else None.
Proof.
  unfold count_priorities. rewrite count_priorities_from.
  case_decide as Hp.
  - unfold valid_priorities in Hp.
    repeat (apply elem_of_cons in Hp as [->|Hp]); [done..|].
    by apply elem_of_nil in Hp.
  - assert (p ≠ "low"%string ∧ p ≠ "medium"%string ∧ p ≠ "high"%string)
      as (? & ? & ?).
    { unfold valid_priorities in Hp. repeat split; intros ->; apply Hp;
        repeat constructor. }
    by rewrite !lookup_insert_ne, lookup_empty by done.
Qed.

(** C8. [get_statistics] returns: total, the length of the collection;
    completed, the number of tasks whose [completed] is true; pending, total
    minus completed; by_priority, which gives for each of low, medium and
    high the number of tasks with that priority and has no other key.  It
    does not persist: the storage is left as it was and still holds the same
    collection. *)
Theorem get_statistics_counts (w : world) (ts : list Task) :
  holds w ts →
  ∃ stats w',
    get_statistics w = (Ok stats, w')
    ∧ stat_total stats = Z.of_nat (length ts)
    ∧ stat_completed stats
      = Z.of_nat (length (filter (λ t, completed t = true) ts))
    ∧ stat_pending stats = stat_total stats - stat_completed stats
    ∧ (∀ p, p ∈ valid_priorities →
         stat_by_priority stats !! p
         = Some (Z.of_nat (length (filter (λ t, priority t = p) ts))))
    ∧ (∀ p, p ∉ valid_priorities → stat_by_priority stats !! p = None)
    ∧ store w' = store w
    ∧ holds w' ts.
Proof.
  intros Hh. exists (statistics_of ts), (loaded_world w ts).
  split; [by apply get_statistics_run|]. simpl.
  split; [done|]. split; [apply count_completed_spec|]. split; [done|].
  split; [|split; [|split; [apply loaded_world_store|by apply holds_loaded_world]]].
  - intros p Hp. by rewrite count_priorities_spec, decide_True.
  - intros p Hp. by rewrite count_priorities_spec, decide_False.
Qed.

(** ** Sequences of service calls against the two storages *)

(** *** The collection as a list of values: what each call does to it *)

Lemma update_first_spec task_id f ts :
  (∃ k t, first_match task_id ts k t ∧ update_first task_id f ts = <[k := f t]> ts)
  ∨ (Forall (λ t, id t ≠ task_id) ts ∧ update_first task_id f ts = ts).
Proof.
  induction ts as [|t ts IH]; simpl.
  - right. by split.
  - case_bool_decide as E.
    + left. exists 0%nat, t. split; [|done].
      split; [done|]. split; [done|]. intros j t' Hj. lia.
    + destruct IH as [(k & t0 & (Hk & Hid & Hfirst) & ->)|[Hall ->]].
      * left. exists (S k), t0. split; [|done].
        split; [done|]. split; [done|].
        intros [|j] t' Hj Ht'; simpl in Ht'; simplify_eq; [done|].
        apply (Hfirst j); [lia|done].
      * right. split; [by constructor|done].
Qed.

(** With no object held twice, overwriting an object changes one position. *)
Lemma overwrite_NoDup ls l t' ts k :
  NoDup ls → length ls = length ts → ls !! k = Some l →
  overwrite ls l t' ts = <[k := t']> ts.
Proof.
  intros Hnd Hlen Hk. apply list_eq. intros j.
  destruct (ts !! j) as [tj|] eqn:Htj.
  - destruct (lookup_lt_is_Some_2 ls j) as [lj Hlj];
      [rewrite Hlen; by eapply lookup_lt_Some|].
    erewrite overwrite_lookup by done.
    rewrite list_lookup_insert, Htj.
    destruct (decide (lj = l)) as [->|E],
             (decide (k = j ∧ (k < length ts)%nat)) as [E'|E']; try done.
    + destruct E'. assert (k = j) as -> by (by eapply NoDup_lookup).
      split; [done|by eapply lookup_lt_Some].
    + destruct E' as [-> _]. simplify_eq.
  - rewrite (proj2 (lookup_ge_None _ _)).
    + symmetry. apply lookup_ge_None. rewrite length_insert.
      by apply lookup_ge_None.
    + rewrite overwrite_length by done. by apply lookup_ge_None.
Qed.

Lemma kept_sublist p ls ts : kept p ls ts `sublist_of` ls.
Proof.
  revert ts. induction ls as [|l ls IH]; intros [|t ts]; simpl;
    try by apply sublist_nil_l.
  destruct (p t); by constructor.
Qed.

Lemma valid_task_apply_updates updates t :
  (∀ v, kw_priority v ∈ updates → v ∈ valid_priorities) →
  valid_task t → valid_task (apply_updates updates t).
Proof.
  unfold apply_updates. revert t.
  induction updates as [|kw rest IH]; intros t Hok Ht; [done|].
  simpl. apply IH.
  - intros v Hv. apply Hok. by right.
  - destruct kw; simpl; try done. apply Hok. by left.
Qed.

(** *** The invariant of a run *)

Lemma run_inv_loaded_world h0 seen w ts :
  run_inv h0 seen w ts → run_inv h0 seen (loaded_world w ts) ts.
Proof.
  intros (Hh & Hv & Hnd & Hrefs & Hlen & Hint).
  split; [by apply holds_loaded_world|]. split; [done|].
  unfold loaded_refs, loaded_world, intact in *.
  destruct (store w) as [ls|file] eqn:E; rewrite ?E; [done|].
  simpl. rewrite E, length_app.
  split; [apply NoDup_seq|]. split; [|split].
  - intros l Hl%elem_of_seq. right. lia.
  - lia.
  - intros l t Hl Hs. apply lookup_app_l_Some. by apply Hint.
Qed.

Lemma run_inv_saved h0 seen w ls ts :
  refs_to (heap w) ls ts →
  Forall valid_task ts →
  NoDup ls →
  (∀ l, l ∈ ls → l ∈ seen ∨ (length h0 ≤ l)%nat) →
  (length h0 ≤ length (heap w))%nat →
  intact h0 seen w →
  run_inv h0 seen (saved_world w ls ts) ts.
Proof.
  intros Hrefs Hv Hnd Hok Hlen Hint.
  split; [split; [by apply saved_world_stored|]|].
  { unfold loadable, saved_world. by destruct (store w). }
  split; [done|].
  unfold loaded_refs, intact. rewrite saved_world_heap.
  unfold saved_world. destruct (store w); simpl.
  - done.
  - split; [apply NoDup_seq|]. split; [|done].
    intros l Hl%elem_of_seq. right. lia.
Qed.

Lemma run_inv_seen h0 seen seen' w ts :
  run_inv h0 seen w ts → seen ⊆ seen' → run_inv h0 seen' w ts.
Proof.
  intros (Hh & Hv & Hnd & Hrefs & Hlen & Hint) Hsub.
  do 3 (split; [done|]). split; [|split; [done|]].
  - intros l Hl. destruct (Hrefs l Hl); [left; by apply Hsub|by right].
  - intros l t Hl Hs. apply Hint; [done|]. intros Hin. by apply Hs, Hsub.
Qed.

(** *** The world after each call *)

Lemma add_task_run w ts task t :
  holds w ts →
  heap w !! task = Some t →
  add_task task w
  = (Ok (), saved_world (loaded_world w ts) (loaded_refs w ts ++ [task]) (ts ++ [t])).
Proof.
  intros Hh Ht. unfold add_task.
  erewrite bind_ok by (by apply load_ok).
  apply save_ok. apply Forall2_app; [by apply loaded_refs_to|].
  constructor; [|constructor]. by apply loaded_world_heap.
Qed.

Lemma get_task_by_id_loop_ok w task_id ls ts :
  refs_to (heap w) ls ts →
  ∃ r, get_task_by_id_loop task_id ls w = (Ok r, w).
Proof.
  induction 1 as [|l t ls ts Hl _ IH]; [by eexists|].
  simpl. erewrite bind_ok by (by apply read_ok).
  case_bool_decide; [by eexists|done].
Qed.

Lemma read_only_calls w ts o :
  holds w ts →
  match o with
  | op_get_all_tasks | op_get_task_by_id _ | op_get_task_by_index _
  | op_search_tasks _ | op_filter_tasks _ | op_get_statistics => True
  | _ => False
  end →
  call o w = (Ok (), loaded_world w ts).
Proof.
  intros Hh Ho. destruct o; try done; unfold call.
  - by erewrite bind_ok by (by apply load_ok).
  - unfold get_task_by_id.
    destruct (get_task_by_id_loop_ok (loaded_world w ts) task_id
                (loaded_refs w ts) ts) as [r Hr]; [by apply loaded_refs_to|].
    erewrite bind_ok; [done|]. by erewrite bind_ok by (by apply load_ok).
  - by erewrite bind_ok by (by apply get_task_by_index_run).
  - by erewrite bind_ok by (by apply search_tasks_run).
  - by erewrite bind_ok by (by apply filter_tasks_run).
  - by erewrite bind_ok by (by apply get_statistics_run).
Qed.

Lemma snd_discard {A} (m : M A) w : snd ((m;; mret ()) w) = snd (m w).
Proof. unfold mbind, M_bind. by destruct (m w) as [[a|e] w']. Qed.

Lemma update_task_run_inv h0 seen w ts task_id updates :
  run_inv h0 seen w ts →
  plain updates →
  (∀ v, kw_priority v ∈ updates → v ∈ valid_priorities) →
  run_inv h0 seen (snd (update_task task_id updates w))
          (update_first task_id (apply_updates updates) ts).
Proof.
  intros Hinv Hp Hok.
  pose proof (run_inv_loaded_world _ _ _ _ Hinv) as (_ & _ & _ & _ & Hlen1 & Hint1).
  destruct Hinv as (Hh & Hv & Hnd & Hrefs & Hlen & Hint).
  pose proof (loaded_refs_length _ _ Hh) as Hlenr.
  destruct (update_first_spec task_id (apply_updates updates) ts)
    as [(k & t & Hfirst & ->)|[Hall ->]].
  - pose proof Hfirst as (Hk & _).
    destruct (lookup_lt_is_Some_2 (loaded_refs w ts) k) as [l Hl];
      [rewrite Hlenr; by eapply lookup_lt_Some|].
    pose proof (update_task_run w ts task_id updates k t l Hp Hh Hfirst Hl) as Hrun.
    rewrite Hrun.
    simpl. unfold updated_world.
    rewrite (overwrite_NoDup _ _ _ _ k) by done.
    apply run_inv_saved; try done.
    + rewrite <- (overwrite_NoDup (loaded_refs w ts) l _ ts k) by done.
      simpl. apply refs_to_insert. by apply loaded_refs_to.
    + apply Forall_insert; [done|]. apply valid_task_apply_updates; [done|].
      exact (Forall_lookup_1 _ _ _ _ Hv Hk).
    + simpl. by rewrite length_insert.
    + intros l0 t0 Hl0 Hs. simpl. rewrite list_lookup_insert_ne; [by apply Hint1|].
      intros ->. apply lookup_lt_Some in Hl0.
      destruct (Hrefs l0); [by eapply list_elem_of_lookup_2|done|lia].
  - rewrite (update_task_absent w ts) by done. simpl.
    by apply run_inv_loaded_world.
Qed.

Lemma delete_task_run_inv h0 seen w ts task_id :
  run_inv h0 seen w ts →
  run_inv h0 seen (snd (delete_task task_id w)) (filter (λ t, id t ≠ task_id) ts).
Proof.
  intros Hinv.
  pose proof (run_inv_loaded_world _ _ _ _ Hinv) as Hinv1.
  pose proof Hinv1 as (_ & _ & _ & _ & Hlen1 & Hint1).
  destruct Hinv as (Hh & Hv & Hnd & Hrefs & Hlen & Hint).
  pose proof (loaded_refs_to _ _ Hh) as Hr.
  rewrite (delete_task_run w ts) by done. cbv zeta.
  rewrite (kept_length _ _ _ _ Hr), (refs_to_length _ _ _ Hr), filter_id_ne.
  destruct (Nat.ltb_spec (length (filter (λ t, id t ≠ task_id) ts)) (length ts))
    as [Hlt|Hge]; simpl.
  - apply run_inv_saved; try done.
    + rewrite <- filter_id_ne. by apply kept_refs_to.
    + apply Forall_forall. intros t [_ Ht]%list_elem_of_filter.
      by eapply Forall_forall.
    + eapply sublist_NoDup; [done|apply kept_sublist].
    + intros l Hl. apply Hrefs. eapply elem_of_sublist; [done|apply kept_sublist].
  - rewrite (filter_all (λ t, id t ≠ task_id))
      by (apply (filter_length_all (λ t, id t ≠ task_id)); lia).
    done.
Qed.

Lemma delete_task_by_index_run_inv h0 seen w ts index :
  run_inv h0 seen w ts →
  run_inv h0 seen (snd (delete_task_by_index index w))
          (if in_range index (length ts) then delete (Z.to_nat index) ts else ts).
Proof.
  intros Hinv.
  pose proof (run_inv_loaded_world _ _ _ _ Hinv) as Hinv1.
  pose proof Hinv1 as (_ & _ & _ & _ & Hlen1 & Hint1).
  destruct Hinv as (Hh & Hv & Hnd & Hrefs & Hlen & Hint).
  rewrite (delete_task_by_index_run w ts) by done.
  destruct (in_range index (length ts)); simpl; [|done].
  apply run_inv_saved; try done.
  - apply Forall2_delete. by apply loaded_refs_to.
  - by apply Forall_delete.
  - eapply sublist_NoDup; [done|apply sublist_delete].
  - intros l Hl. apply Hrefs. eapply elem_of_sublist; [done|apply sublist_delete].
Qed.

Lemma add_task_run_inv h0 seen w ts task t :
  Forall valid_task h0 →
  run_inv h0 seen w ts →
  h0 !! task = Some t →
  task ∉ seen →
  run_inv h0 (seen ++ [task]) (snd (add_task task w)) (ts ++ [t]).
Proof.
  intros Hv0 Hinv Ht Hs.
  pose proof (run_inv_loaded_world _ _ _ _ Hinv) as Hinv1.
  pose proof Hinv1 as (_ & _ & _ & _ & Hlen1 & Hint1).
  destruct Hinv as (Hh & Hv & Hnd & Hrefs & Hlen & Hint).
  rewrite (add_task_run w ts task t) by (by try apply Hint). simpl.
  apply run_inv_saved.
  - apply Forall2_app; [by apply loaded_refs_to|].
    constructor; [|constructor]. by apply Hint1.
  - apply Forall_app. split; [done|]. constructor; [|constructor].
    exact (Forall_lookup_1 _ _ _ _ Hv0 Ht).
  - apply NoDup_app. split; [done|]. split; [|apply NoDup_singleton].
    intros l Hl ->%list_elem_of_singleton.
    apply lookup_lt_Some in Ht. destruct (Hrefs _ Hl); [done|lia].
  - intros l [Hl| ->%list_elem_of_singleton]%elem_of_app.
    + destruct (Hrefs _ Hl); [left; apply elem_of_app; by left|by right].
    + left. apply elem_of_app. right. by apply list_elem_of_singleton.
  - done.
  - intros l0 t0 Hl0 Hn. apply Hint1; [done|].
    intros Hin. apply Hn, elem_of_app. by left.
Qed.

Lemma complete_task_by_index_run_inv h0 seen w ts index :
  run_inv h0 seen w ts →
  run_inv h0 seen (snd (complete_task_by_index index w))
    (if in_range index (length ts) then
       match ts !! Z.to_nat index with
       | Some t => update_first (id t) (apply_updates [kw_completed true]) ts
       | None => ts
       end
     else ts).
Proof.
  intros Hinv.
  pose proof (run_inv_loaded_world _ _ _ _ Hinv) as Hinv1.
  pose proof Hinv as (Hh & _).
  destruct (in_range index (length ts)) eqn:Hr.
  - destruct (ts !! Z.to_nat index) as [t|] eqn:Ht.
    + rewrite (complete_task_by_index_run w ts index t) by done.
      apply update_task_run_inv; [done|apply plain_completed|].
      intros v Hv. apply list_elem_of_singleton in Hv. done.
    + exfalso. apply lookup_ge_None in Ht. unfold in_range in Hr.
      apply andb_prop in Hr as [H1 H2]. lia.
  - by rewrite (complete_task_by_index_absent w ts).
Qed.

(** Every call keeps the invariant and does to the stored collection what
    [model_step] says. *)
Lemma call_run_inv h0 seen w ts o :
  Forall valid_task h0 →
  run_inv h0 seen w ts →
  op_ok h0 o →
  (∀ l, l ∈ added [o] → l ∉ seen) →
  run_inv h0 (seen ++ added [o]) (snd (call o w)) (model_step h0 o ts).
Proof.
  intros Hv0 Hinv Hok Hfresh. pose proof Hinv as (Hh & _).
  destruct o;
    try (rewrite (read_only_calls w ts) by done;
         simpl; rewrite app_nil_r; by apply run_inv_loaded_world);
    unfold call.
  - simpl in *. destruct (lookup_lt_is_Some_2 h0 task Hok) as [t Ht].
    rewrite Ht. apply add_task_run_inv; try done.
    apply Hfresh. by apply list_elem_of_singleton.
  - simpl. rewrite app_nil_r, snd_discard. destruct Hok as [Hp Hok].
    by apply update_task_run_inv.
  - simpl. rewrite app_nil_r, snd_discard. by apply delete_task_run_inv.
  - simpl. rewrite app_nil_r, snd_discard. by apply delete_task_by_index_run_inv.
  - simpl. rewrite app_nil_r, snd_discard.
    apply update_task_run_inv; [done|apply plain_completed|].
    intros v Hv. apply list_elem_of_singleton in Hv. done.
  - simpl. rewrite app_nil_r, snd_discard. by apply complete_task_by_index_run_inv.
Qed.

Lemma observe_run w ts :
  holds w ts →
  observe w
  = ((Ok ts, Ok (statistics_of ts)), loaded_world (loaded_world w ts) ts).
Proof.
  intros Hh. unfold observe, get_all_tasks.
  erewrite bind_ok by (by apply load_ok).
  rewrite (mapM_read_ok _ _ ts) by (by apply loaded_refs_to).
  by rewrite (get_statistics_run _ ts) by (by apply holds_loaded_world).
Qed.

Lemma added_cons o ops : added (o :: ops) = added [o] ++ added ops.
Proof. unfold added. simpl. by destruct o. Qed.

(** Under the invariant, the observations of a run are those of the model. *)
Lemma trace_model h0 ops seen w ts :
  Forall valid_task h0 →
  run_inv h0 seen w ts →
  Forall (op_ok h0) ops →
  NoDup (seen ++ added ops) →
  trace ops w = model_trace h0 ops ts.
Proof.
  intros Hv0. revert seen w ts.
  induction ops as [|o ops IH]; intros seen w ts Hinv Hok Hnd;
    pose proof Hinv as (Hh & _); simpl; rewrite (observe_run w ts) by done;
    [done|].
  f_equal. apply Forall_cons in Hok as [Ho Hok].
  rewrite added_cons, app_assoc in Hnd.
  apply (IH (seen ++ added [o])); [|done|done].
  apply call_run_inv; try done.
  - by do 2 apply run_inv_loaded_world.
  - intros l Hl Hs. apply NoDup_app in Hnd as (Hnd & _ & _).
    apply NoDup_app in Hnd as (_ & Hdisj & _). by apply (Hdisj l).
Qed.

Lemma run_inv_in_memory_world h0 u c n :
  run_inv h0 [] (in_memory_world h0 u c n) [].
Proof.
  split; [split; [constructor|done]|]. split; [constructor|].
  split; [constructor|]. split; [by intros l Hl%elem_of_nil|].
  split; [done|]. by intros l t Hl _.
Qed.

Lemma run_inv_json_world h0 u c n :
  run_inv h0 [] (json_world h0 u c n) [].
Proof.
  split; [split; [by left|constructor]|]. split; [constructor|].
  split; [constructor|]. split; [by intros l Hl%elem_of_nil|].
  split; [done|]. by intros l t Hl _.
Qed.

(** Where the two storages do agree.  Take task objects that satisfy the
    priority invariant and a sequence of service calls that hands each object
    to [add_task] at most once and whose update sets are plain and set
    [priority] to low, medium or high only.  Run from an empty in-memory
    storage and from an absent file, the sequence yields the same
    observations of [get_all_tasks] and [get_statistics] at every point. *)
Lemma storages_interchangeable
    (h0 : list Task) (u c : nat → string) (n : nat) (ops : list op) :
  Forall valid_task h0 →
  Forall (op_ok h0) ops →
  NoDup (added ops) →
  trace ops (in_memory_world h0 u c n) = trace ops (json_world h0 u c n).
Proof.
  intros Hv0 Hok Hnd.
  rewrite (trace_model h0 ops [] _ []), (trace_model h0 ops [] _ []); try done.
  - apply run_inv_json_world.
  - apply run_inv_in_memory_world.
Qed.

(** * Concrete collections: examples, counterexamples, instances *)

Lemma first_match_take task_id ts k t :
  ts !! k = Some t → id t = task_id →
  Forall (λ t', id t' ≠ task_id) (take k ts) →
  first_match task_id ts k t.
Proof.
  intros Hk Hid Hall. split; [done|]. split; [done|].
  intros j t' Hj Ht'. eapply (Forall_lookup_1 _ _ j t' Hall).
  by rewrite lookup_take_lt.
Qed.

Lemma holds_memory_of_three : holds memory_of_three three_tasks.
Proof. split; [|done]. repeat constructor. Defined.

Lemma holds_file_of_three : holds file_of_three three_tasks.
Proof. split; [by right|]. repeat constructor. Defined.

(** The example of the search for "doc": the first and the third task. *)
Example search_doc_memory :
  fst (search_tasks "doc" memory_of_three) = Ok [0; 2]%nat.
Proof. vm_compute. reflexivity. Qed.

Example search_doc_file :
  (found ← search_tasks "DOC"; mapM read found) file_of_three
  = (Ok [doc_task; docs_task], set_heap three_tasks file_of_three).
Proof. vm_compute. reflexivity. Qed.

(** The example of the statistics: priorities high, medium, high, one task
    completed. *)
Example statistics_of_three :
  let stats := statistics_of [set_field (kw_completed true) doc_task; bug_task; docs_task] in
  stat_total stats = 3 ∧ stat_completed stats = 1 ∧ stat_pending stats = 2
  ∧ stat_by_priority stats !! "high"%string = Some 2
  ∧ stat_by_priority stats !! "medium"%string = Some 1
  ∧ stat_by_priority stats !! "low"%string = Some 0.
Proof. vm_compute. repeat split. Qed.

(** C1 as stated fails: an update set that names [id] and [created_at]
    overwrites them like any other field. *)
Lemma update_task_overwrites_id :
  ∃ w' t',
    update_task "1" [kw_id "9"; kw_created_at "2000-01-01T00:00:00"] memory_of_three
    = (Ok true, w')
    ∧ stored w' [t'; bug_task; docs_task]
    ∧ id t' ≠ id doc_task
    ∧ created_at t' ≠ created_at doc_task.
Proof.
  eexists _, (mkTask "Write documentation" "API docs" "high" None false "9"
                     "2000-01-01T00:00:00").
  split; [vm_compute; reflexivity|].
  split; [repeat constructor|]. split; discriminate.
Qed.

(** C6. [complete_task_by_index] is to set [completed] on exactly the task at
    the index.  On a collection of two tasks that share an id it does not:
    with index 1 the call returns [True], the task at position 1 stays as it
    was and the task at position 0 is the one completed. *)
Theorem complete_task_by_index_completes_earlier_task :
  ∃ w',
    complete_task_by_index 1 memory_of_twins = (Ok true, w')
    ∧ stored w' [set_field (kw_completed true) ann_task; bob_task]
    ∧ completed bob_task = false
    ∧ set_field (kw_completed true) ann_task ≠ ann_task.
Proof.
  eexists. split; [vm_compute; reflexivity|].
  split; [repeat constructor|]. split; [done|discriminate].
Qed.

(** C9. The two storages are to give the same observations of
    [get_all_tasks] and [get_statistics] along every sequence of calls.  They
    do not: after [add_task] of a task with id 1 and an update of task 1 that
    sets the priority to "urgent", the in-memory storage lists the task with
    its new priority, while every read of the file raises [ValueError]. *)
Theorem storages_diverge_on_unchecked_priority :
  fst <$> trace [op_add_task 0%nat; op_update_task "1" [kw_priority "urgent"]]
        (in_memory_world [doc_task] (λ _, ""%string) (λ _, ""%string) 0)
  = [Ok []; Ok [doc_task];
     Ok [mkTask "Write documentation" "API docs" "urgent" None false "1"
                "2024-05-01T09:00:00"]]
  ∧ fst <$> trace [op_add_task 0%nat; op_update_task "1" [kw_priority "urgent"]]
        (json_world [doc_task] (λ _, ""%string) (λ _, ""%string) 0)
  = [Ok []; Ok [doc_task]; Raise ValueError].
Proof. split; vm_compute; reflexivity. Qed.

(** The storages part as well on an update set that names the method
    [to_dict]: the in-memory storage takes the new title, the file storage
    raises [TypeError] when it serializes the task and keeps the old
    record. *)
Example hidden_to_dict_observations :
  fst <$> trace [op_add_task 0%nat;
                 op_update_task "1" [kw_title "New"; kw_other "to_dict"]]
        (in_memory_world [doc_task] (λ _, ""%string) (λ _, ""%string) 0)
  = [Ok []; Ok [doc_task];
     Ok [mkTask "New" "API docs" "high" None false "1" "2024-05-01T09:00:00"]]
  ∧ fst <$> trace [op_add_task 0%nat;
                   op_update_task "1" [kw_title "New"; kw_other "to_dict"]]
        (json_world [doc_task] (λ _, ""%string) (λ _, ""%string) 0)
  = [Ok []; Ok [doc_task]; Ok [doc_task]].
Proof. split; vm_compute; reflexivity. Qed.

(** What [update_task] does with keywords that name attributes which are no
    fields: [to_dict] on a file, [__class__] and [__weakref__] on either
    storage, and a method that nothing calls on the object. *)
Example update_task_to_dict_file :
  fst (update_task "2" [kw_title "X"; kw_other "to_dict"] file_of_three)
  = Raise TypeError
  ∧ store (snd (update_task "2" [kw_title "X"; kw_other "to_dict"] file_of_three))
    = store file_of_three.
Proof. split; vm_compute; reflexivity. Qed.

Example update_task_to_dict_memory :
  ∃ w', update_task "2" [kw_title "X"; kw_other "to_dict"] memory_of_three
        = (Ok true, w')
        ∧ stored w' [doc_task;
                     mkTask "X" "Authentication issue" "medium"
                            (Some "2024-06-01"%string) false "2"
                            "2024-05-01T09:05:00";
                     docs_task].
Proof. eexists. split; [vm_compute; reflexivity|repeat constructor]. Qed.

Example update_task_class_keyword :
  fst (update_task "2" [kw_other "__class__"] memory_of_three) = Raise TypeError
  ∧ fst (update_task "2" [kw_other "__class__"] file_of_three) = Raise TypeError
  ∧ fst (update_task "2" [kw_other "__weakref__"] memory_of_three)
    = Raise AttributeError
  ∧ fst (update_task "2" [kw_other "from_dict"] file_of_three) = Ok true
  ∧ fst (update_task "2" [kw_other "colour"] file_of_three) = Ok true.
Proof. repeat split; vm_compute; reflexivity. Qed.

(** The storages also part when one object is handed to [add_task] twice:
    the in-memory storage then holds the object twice, the file two
    records. *)
Example shared_object_observations :
  fst <$> trace [op_add_task 0%nat; op_add_task 0%nat; op_complete_task "1"]
        (in_memory_world [doc_task] (λ _, ""%string) (λ _, ""%string) 0)
  = [Ok []; Ok [doc_task]; Ok [doc_task; doc_task];
     Ok [set_field (kw_completed true) doc_task;
         set_field (kw_completed true) doc_task]]
  ∧ fst <$> trace [op_add_task 0%nat; op_add_task 0%nat; op_complete_task "1"]
        (json_world [doc_task] (λ _, ""%string) (λ _, ""%string) 0)
  = [Ok []; Ok [doc_task]; Ok [doc_task; doc_task];
     Ok [set_field (kw_completed true) doc_task; doc_task]].
Proof. split; vm_compute; reflexivity. Qed.

Lemma holds_memory_of_twins : holds memory_of_twins [ann_task; bob_task].
Proof. split; [|done]. repeat constructor. Defined.

Lemma first_match_bug_task : first_match "2" three_tasks 1 bug_task.
Proof.
  apply first_match_take; [reflexivity|reflexivity|].
  constructor; [discriminate|constructor].
Defined.

Lemma first_match_ann_task : first_match "7" [ann_task; bob_task] 0 ann_task.
Proof. apply first_match_take; [reflexivity|reflexivity|constructor]. Defined.

(** Instances of the theorems on these collections. *)

Lemma update_task_overwrites_named_fields_witness :
  ∃ w' ts' t',
    update_task "2" [kw_title "Fix login bug"; kw_completed true] file_of_three
    = (Ok true, w')
    ∧ stored w' ts' ∧ length ts' = length three_tasks ∧ ts' !! 1%nat = Some t'
    ∧ (∀ key, getattr key t'
              = from_option Some (getattr key bug_task)
                  (named_value key [kw_title "Fix login bug"; kw_completed true]))
    ∧ (named_value "id" [kw_title "Fix login bug"; kw_completed true] = None
       → id t' = id bug_task)
    ∧ (named_value "created_at" [kw_title "Fix login bug"; kw_completed true] = None
       → created_at t' = created_at bug_task).
Proof.
  refine (proj1 (update_task_overwrites_named_fields file_of_three three_tasks "2"
                   [kw_title "Fix login bug"; kw_completed true] holds_file_of_three)
                _ 1%nat bug_task first_match_bug_task).
  by repeat constructor.
Defined.

Lemma from_dict_to_dict_witness :
  (task ← from_dict (to_dict bug_task); read task) file_of_three
  = (Ok bug_task, set_heap (heap file_of_three ++ [bug_task]) file_of_three).
Proof. apply from_dict_to_dict. vm_compute. repeat constructor. Defined.

Lemma Task_init_priority_witness :
  (∃ task w' t,
     Task_init (<["title"%string := PStr "Buy milk"]>
                (<["priority"%string := PStr "high"]> ∅)) memory_of_three
     = (Ok task, w')
     ∧ heap w' !! task = Some t ∧ priority t = "high"%string)
  ∧ fst (Task_init (<["title"%string := PStr "Buy milk"]>
                    (<["priority"%string := PStr "urgent"]> ∅)) memory_of_three)
    = Raise ValueError.
Proof.
  split.
  - apply (proj1 Task_init_priority).
    + vm_compute. reflexivity.
    + vm_compute. reflexivity.
    + vm_compute. repeat constructor.
  - apply (proj1 (proj2 Task_init_priority)) with (v := PStr "urgent").
    + apply (bool_decide_unpack _). vm_compute. exact I.
    + eexists. vm_compute. reflexivity.
    + vm_compute. reflexivity.
    + apply (bool_decide_unpack _). vm_compute. exact I.
Defined.

Lemma delete_task_removes_all_witness :
  ∃ w',
    delete_task "7" memory_of_twins
    = (Ok (bool_decide (Exists (λ t, id t = "7"%string) [ann_task; bob_task])), w')
    ∧ stored w' (filter (λ t, id t ≠ "7"%string) [ann_task; bob_task])
    ∧ (Forall (λ t, id t ≠ "7"%string) [ann_task; bob_task]
       → store w' = store memory_of_twins)
    ∧ (∀ l t, heap memory_of_twins !! l = Some t → heap w' !! l = Some t).
Proof. exact (delete_task_removes_all memory_of_twins _ "7" holds_memory_of_twins). Defined.

Lemma index_out_of_range_not_found_witness :
  (∃ w', get_task_by_index 3 file_of_three = (Ok None, w')
         ∧ store w' = store file_of_three ∧ holds w' three_tasks)
  ∧ (∃ w', delete_task_by_index 3 file_of_three = (Ok false, w')
           ∧ store w' = store file_of_three ∧ holds w' three_tasks)
  ∧ (∃ w', complete_task_by_index 3 file_of_three = (Ok false, w')
           ∧ store w' = store file_of_three ∧ holds w' three_tasks).
Proof.
  apply index_out_of_range_not_found; [exact holds_file_of_three|].
  right. simpl. lia.
Defined.

Lemma complete_task_by_index_first_of_its_id_instance :
  ∃ w' ts',
    complete_task_by_index 1 memory_of_three = (Ok true, w')
    ∧ stored w' ts'
    ∧ length ts' = length three_tasks
    ∧ ts' !! Z.to_nat 1 = Some (set_field (kw_completed true) bug_task)
    ∧ ∀ j, ¬ same_object memory_of_three (Z.to_nat 1) j → ts' !! j = three_tasks !! j.
Proof.
  apply complete_task_by_index_first_of_its_id.
  - exact holds_memory_of_three.
  - simpl. lia.
  - reflexivity.
  - intros j t' Hj Ht'. destruct j as [|j]; [|simpl in Hj; lia].
    simpl in Ht'. injection Ht' as <-. discriminate.
Defined.


Lemma get_statistics_counts_witness :
  ∃ stats w',
    get_statistics memory_of_three = (Ok stats, w')
    ∧ stat_total stats = Z.of_nat (length three_tasks)
    ∧ stat_completed stats
      = Z.of_nat (length (filter (λ t, completed t = true) three_tasks))
    ∧ stat_pending stats = stat_total stats - stat_completed stats
    ∧ (∀ p, p ∈ valid_priorities →
         stat_by_priority stats !! p
         = Some (Z.of_nat (length (filter (λ t, priority t = p) three_tasks))))
    ∧ (∀ p, p ∉ valid_priorities → stat_by_priority stats !! p = None)
    ∧ store w' = store memory_of_three
    ∧ holds w' three_tasks.
Proof. exact (get_statistics_counts memory_of_three _ holds_memory_of_three). Defined.

Lemma storages_interchangeable_instance :
  trace busy_day (in_memory_world three_tasks (λ _, ""%string) (λ _, ""%string) 0)
  = trace busy_day (json_world three_tasks (λ _, ""%string) (λ _, ""%string) 0).
Proof.
  apply storages_interchangeable.
  - repeat constructor.
  - repeat (apply Forall_cons; split); try apply Forall_nil;
      simpl; try lia; try exact I.
    split; [by repeat constructor|].
    intros v Hv. apply elem_of_cons in Hv as [Hv|Hv].
    + injection Hv as ->. apply (bool_decide_unpack _). vm_compute. exact I.
    + apply list_elem_of_singleton in Hv. discriminate Hv.
  - apply (bool_decide_unpack _). vm_compute. exact I.
Defined.

Lemma update_task_first_match_only_witness :
  (∃ w' ts' t',
     update_task "7" [kw_title "Call Ann back"] memory_of_twins = (Ok true, w')
     ∧ stored w' ts' ∧ length ts' = length [ann_task; bob_task]
     ∧ ts' !! 0%nat = Some t'
     ∧ (∀ key, getattr key t'
               = from_option Some (getattr key ann_task)
                   (named_value key [kw_title "Call Ann back"]))
     ∧ ∀ j, ¬ same_object memory_of_twins 0 j → ts' !! j = [ann_task; bob_task] !! j)
  ∧ (∃ w' ts',
     complete_task "7" memory_of_twins = (Ok true, w')
     ∧ stored w' ts' ∧ length ts' = length [ann_task; bob_task]
     ∧ ts' !! 0%nat = Some (mkTask "Call Ann" "" "low" None true "7"
                                   "2024-05-02T10:00:00")
     ∧ ∀ j, ¬ same_object memory_of_twins 0 j → ts' !! j = [ann_task; bob_task] !! j)
  ∧ (∃ w', delete_task "7" memory_of_twins = (Ok true, w')
           ∧ stored w' (filter (λ t, id t ≠ "7"%string) [ann_task; bob_task])).
Proof.
  apply (update_task_first_match_only memory_of_twins _ "7" [kw_title "Call Ann back"]
           0%nat ann_task holds_memory_of_twins first_match_ann_task).
  by repeat constructor.
Defined.

(** * Further properties *)

(** ** Failures of the storage reach the caller *)

(** Every operation of the service starts with a [load] and catches
    nothing: what the [load] raises is what the call raises, and the world is
    the one the [load] left. *)
Lemma call_load_raise w o e w' :
  load w = (Raise e, w') → call o w = (Raise e, w').
Proof.
  intros Hl.
  destruct o; unfold call, add_task, get_all_tasks, get_task_by_id,
    get_task_by_index, update_task, delete_task, delete_task_by_index,
    complete_task, update_task, complete_task_by_index, get_task_by_index,
    search_tasks, filter_tasks, get_statistics;
    repeat (erewrite bind_raise; [reflexivity|]); exact Hl.
Qed.

Lemma from_dict_to_dict_invalid t w :
  ¬ valid_task t → from_dict (to_dict t) w = (Raise ValueError, w).
Proof.
  intros Hp. unfold from_dict, Task_init.
  rewrite bool_decide_eq_true_2 by (by rewrite dom_to_dict).
  unfold to_dict.
  repeat (first [rewrite lookup_insert_eq | rewrite lookup_insert_ne by done]).
  pose proof (invalid_priority_check _ Hp) as Hc.
  remember (PStr <$> valid_priorities) as vp.
  simpl. unfold mbind, M_bind. simpl. by rewrite Hc.
Qed.

Lemma mapM_from_dict_invalid ts w :
  Exists (λ t, ¬ valid_task t) ts →
  ∃ w', mapM from_dict (to_dict <$> ts) w = (Raise ValueError, w')
        ∧ store w' = store w.
Proof.
  revert w. induction ts as [|t ts IH]; intros w Hex; [by inversion Hex|].
  simpl. destruct (decide (valid_task t)) as [Hv|Hn].
  - apply Exists_cons in Hex as [Hex|Hex]; [done|].
    destruct (IH (set_heap (heap w ++ [t]) w) Hex) as (w' & Hrun & Hst).
    exists w'. split; [|done].
    erewrite bind_ok by (by apply from_dict_to_dict_run).
    by erewrite bind_raise.
  - exists w. split; [|done].
    by erewrite bind_raise by (by apply from_dict_to_dict_invalid).
Qed.

Lemma load_invalid_record w ts :
  store w = JSONStorage (Some (JsonArray (to_dict <$> ts))) →
  Exists (λ t, ¬ valid_task t) ts →
  ∃ w', load w = (Raise ValueError, w') ∧ store w' = store w.
Proof.
  intros Hs Hex. unfold load. erewrite bind_ok by reflexivity. rewrite Hs.
  destruct (mapM_from_dict_invalid ts w Hex) as (w' & Hrun & Hst).
  exists w'. split; [exact Hrun|by rewrite Hst].
Qed.

(** X1. When the file exists but does not hold valid serialized data, every
    operation of the service raises [IOError], the error of
    [JSONStorage.load]; the service neither catches nor translates it, and
    nothing is changed: not the file, not an object. *)
Theorem malformed_file_fails_every_call (w : world) (o : op) :
  store w = JSONStorage (Some Malformed) →
  call o w = (Raise IOError, w).
Proof.
  intros Hs. apply call_load_raise.
  unfold load. erewrite bind_ok by reflexivity. by rewrite Hs.
Qed.

(** X2. An update through the service that sets a priority outside low,
    medium and high is accepted on a file storage: it returns [True] and the
    record is written.  From then on the file cannot be loaded: every
    operation of the service, a corrective update and a delete included,
    raises [ValueError] (which [JSONStorage.load] does not turn into an
    [IOError]) and leaves the file as it is. *)
Theorem unchecked_priority_locks_the_file
    (w : world) (file : option file_contents) (ts : list Task)
    (task_id priority : string) (k : nat) (t : Task) :
  store w = JSONStorage file →
  holds w ts →
  first_match task_id ts k t →
  priority ∉ valid_priorities →
  ∃ w', update_task task_id [kw_priority priority] w = (Ok true, w')
        ∧ ∀ o, fst (call o w') = Raise ValueError
               ∧ store (snd (call o w')) = store w'.
Proof.
  intros Hs Hh Hfirst Hp. pose proof Hfirst as (Hk & _).
  pose proof (loaded_refs_length _ _ Hh) as Hlen.
  destruct (lookup_lt_is_Some_2 (loaded_refs w ts) k) as [l Hl];
    [rewrite Hlen; by eapply lookup_lt_Some|].
  eexists. split; [eapply update_task_run; [by repeat constructor|done..]|].
  intros o.
  set (t' := apply_updates [kw_priority priority] t).
  set (ts' := overwrite (loaded_refs w ts) l t' ts).
  assert (store (updated_world w ts l t')
          = JSONStorage (Some (JsonArray (to_dict <$> ts')))) as Hs'.
  { unfold updated_world, saved_world. simpl.
    rewrite loaded_world_store, Hs. done. }
  assert (Exists (λ t, ¬ valid_task t) ts') as Hex.
  { apply Exists_exists. exists t'. split; [|done].
    apply (list_elem_of_lookup_2 _ k). unfold ts'.
    erewrite overwrite_lookup by done. by rewrite decide_True. }
  destruct (load_invalid_record _ ts' Hs' Hex) as (w'' & Hload & Hst).
  by rewrite (call_load_raise _ o _ _ Hload).
Qed.

(** ** What a call leaves behind *)

Lemma update_task_outcome w ts task_id updates :
  plain updates →
  holds w ts →
  ∃ found w', update_task task_id updates w = (Ok found, w')
              ∧ (w' = loaded_world w ts
                 ∨ ∃ k l t', loaded_refs w ts !! k = Some l
                             ∧ w' = updated_world w ts l t').
Proof.
  intros Hp Hh.
  destruct (update_first_spec task_id (apply_updates updates) ts)
    as [(k & t & Hfirst & _)|[Hall _]].
  - pose proof Hfirst as (Hk & _).
    destruct (lookup_lt_is_Some_2 (loaded_refs w ts) k) as [l Hl];
      [rewrite loaded_refs_length by done; by eapply lookup_lt_Some|].
    eexists _, _. split; [by eapply update_task_run|]. right. by eexists _, _, _.
  - eexists _, _. split; [by apply update_task_absent|]. by left.
Qed.

(** Every call on a storage that holds a collection returns normally, its
    update set being plain, and a relation between worlds that is kept by a
    [load], by a [save] and by the update of one loaded object is kept by
    every such call. *)
Lemma call_ok_rel (R : world → world → Prop) w ts o :
  (∀ w ts, holds w ts → R w (loaded_world w ts)) →
  (∀ w ls ts, refs_to (heap w) ls ts → R w (saved_world w ls ts)) →
  (∀ w ts k l t', holds w ts → loaded_refs w ts !! k = Some l →
                  R w (updated_world w ts l t')) →
  (∀ w1 w2 w3, R w1 w2 → R w2 w3 → R w1 w3) →
  holds w ts →
  plain_op o →
  (∀ task, o = op_add_task task → is_Some (heap w !! task)) →
  ∃ w', call o w = (Ok (), w') ∧ R w w'.
Proof.
  intros Hload Hsave Hupd Htrans Hh Hplain Hadd.
  assert (∀ w ts task_id updates, plain updates → holds w ts →
            ∃ found w', update_task task_id updates w = (Ok found, w') ∧ R w w')
    as Hupdate.
  { intros w0 ts0 task_id updates Hp0 Hh0.
    destruct (update_task_outcome w0 ts0 task_id updates Hp0 Hh0)
      as (found & w' & Hrun & [->|(k & l & t' & Hl & ->)]);
      exists found; eexists; (split; [exact Hrun|]); eauto. }
  destruct o;
    try (eexists; split; [by apply (read_only_calls w ts)|by apply Hload]);
    unfold call.
  - destruct (Hadd task eq_refl) as [t Ht].
    eexists. split; [by apply (add_task_run w ts task t)|].
    eapply Htrans; [by apply Hload|]. apply Hsave.
    apply Forall2_app; [by apply loaded_refs_to|].
    constructor; [|constructor]. by apply loaded_world_heap.
  - destruct (Hupdate w ts task_id updates Hplain Hh) as (found & w' & Hrun & HR).
    exists w'. split; [|done]. by erewrite bind_ok by exact Hrun.
  - unfold mbind, M_bind. rewrite (delete_task_run w ts) by done. cbv zeta.
    destruct (_ <? _)%nat; eexists; (split; [reflexivity|]); [|by apply Hload].
    eapply Htrans; [by apply Hload|]. apply Hsave.
    apply kept_refs_to. by apply loaded_refs_to.
  - unfold mbind, M_bind. rewrite (delete_task_by_index_run w ts) by done.
    destruct (in_range _ _); eexists; (split; [reflexivity|]); [|by apply Hload].
    eapply Htrans; [by apply Hload|]. apply Hsave.
    apply Forall2_delete. by apply loaded_refs_to.
  - destruct (Hupdate w ts task_id [kw_completed true] plain_completed Hh)
      as (found & w' & Hrun & HR).
    exists w'. split; [|done]. by erewrite bind_ok by exact Hrun.
  - destruct (in_range index (length ts)) eqn:Hr.
    + destruct (lookup_lt_is_Some_2 ts (Z.to_nat index)) as [t Ht].
      { unfold in_range in Hr. apply andb_prop in Hr as [H1 H2]. lia. }
      destruct (Hupdate (loaded_world w ts) ts (id t) [kw_completed true])
        as (found & w' & Hrun & HR);
        [apply plain_completed|by apply holds_loaded_world|].
      exists w'. split; [|eapply Htrans; [by apply Hload|done]].
      erewrite bind_ok; [reflexivity|].
      rewrite (complete_task_by_index_run w ts index t) by done. exact Hrun.
    + exists (loaded_world w ts). split; [|by apply Hload].
      by erewrite bind_ok by (by apply complete_task_by_index_absent).
Qed.

(** X3. On a storage that holds a collection no operation of the service
    raises, as long as the keywords of an update name fields of the task or
    nothing a task object has: a task that is not found, an index out of
    range, a keyword that names nothing and a priority outside the
    enumeration in an update are all answered by a normal return. *)
Theorem service_calls_return (w : world) (ts : list Task) (o : op) :
  holds w ts →
  plain_op o →
  (∀ task, o = op_add_task task → is_Some (heap w !! task)) →
  fst (call o w) = Ok ().
Proof.
  intros Hh Hp Hadd.
  destruct (call_ok_rel (λ _ _, True) w ts o) as (w' & Hrun & _); try done.
  by rewrite Hrun.
Qed.

Lemma updated_world_file_heap w ts k l t' :
  file_backed w → holds w ts → loaded_refs w ts !! k = Some l →
  heap (updated_world w ts l t') = heap w ++ <[k := t']> ts.
Proof.
  unfold file_backed, updated_world, loaded_refs, loaded_world.
  intros Hf Hh Hl. rewrite saved_world_heap.
  destruct (store w); [done|]. simpl.
  apply lookup_seq in Hl as [-> Hk].
  rewrite insert_app_r_alt by lia. do 2 f_equal. lia.
Qed.

Lemma below_refl n w : below n w w.
Proof. by split. Qed.

Lemma below_trans n w1 w2 w3 : below n w1 w2 → below n w2 w3 → below n w1 w3.
Proof.
  intros [L1 H1] [L2 H2]. split; [congruence|].
  intros j Hj. by rewrite H2, H1.
Qed.

Lemma setattr_below n l kw w : (n ≤ l)%nat → below n w (snd (setattr l kw w)).
Proof.
  intros Hl.
  assert (below n w (snd ((t ← read l; write l (set_field kw t)) w))) as Hfield.
  { unfold mbind, M_bind, read, write.
    destruct (heap w !! l) as [t|] eqn:E; rewrite ?E; [|apply below_refl].
    unfold below. simpl. split; [by rewrite length_insert|].
    intros j Hj. apply list_lookup_insert_ne. lia. }
  destruct kw; try exact Hfield. unfold setattr.
  repeat case_bool_decide; apply below_refl.
Qed.

Lemma update_fields_below n l updates w :
  (n ≤ l)%nat → below n w (snd (update_fields l updates w)).
Proof.
  intros Hl. revert w. induction updates as [|kw rest IH]; intros w;
    [apply below_refl|].
  cbn [update_fields]. unfold mbind, M_bind.
  destruct (hasattr kw).
  - pose proof (setattr_below n l kw w Hl) as Hs.
    destruct (setattr l kw w) as [[[]|e] w1]; [|exact Hs].
    eapply below_trans; [exact Hs|apply IH].
  - apply IH.
Qed.

Lemma call_to_dict_world hidden task w : snd (call_to_dict hidden task w) = w.
Proof.
  unfold call_to_dict, fmap, M_fmap, read.
  case_bool_decide; [done|]. by destruct (heap w !! task).
Qed.

Lemma mapM_call_to_dict_world hidden tasks w :
  snd (mapM (call_to_dict hidden) tasks w) = w.
Proof.
  induction tasks as [|task rest IH]; [done|].
  cbn [mapM]. unfold mbind, M_bind.
  pose proof (call_to_dict_world hidden task w) as E.
  destruct (call_to_dict hidden task w) as [[d|e] w1]; simpl in E; subst w1;
    [|done].
  destruct (mapM (call_to_dict hidden) rest w) as [[ds|e] w2]; simpl in IH;
    by subst w2.
Qed.

Lemma save_hiding_heap hidden tasks w :
  heap (snd (save_hiding hidden tasks w)) = heap w.
Proof.
  unfold save_hiding, get_store, mbind, M_bind.
  destruct (store w); [done|]. unfold JSONStorage_save, mbind, M_bind.
  pose proof (mapM_call_to_dict_world hidden tasks w) as E.
  destruct (mapM (call_to_dict hidden) tasks w) as [[ds|e] w1]; simpl in E;
    by subst w1.
Qed.

Lemma update_task_loop_below n tasks task_id updates remaining w :
  Forall (λ l, (n ≤ l)%nat) remaining →
  below n w (snd (update_task_loop tasks task_id updates remaining w)).
Proof.
  induction 1 as [|l rest Hl _ IH]; [apply below_refl|].
  cbn [update_task_loop]. unfold mbind at 1, M_bind at 1, read.
  destruct (heap w !! l) as [t|]; [|apply below_refl].
  case_bool_decide; [|exact IH].
  unfold mbind, M_bind.
  pose proof (update_fields_below n l updates w Hl) as Hu.
  destruct (update_fields l updates w) as [[[]|e] w1]; [|exact Hu].
  eapply below_trans; [exact Hu|].
  pose proof (save_hiding_heap (if hides_to_dict updates then [l] else [])
                tasks w1) as Hs.
  destruct (save_hiding _ tasks w1) as [[[]|e] w2]; simpl in *;
    split; by rewrite ?Hs.
Qed.

(** On a file, [update_task] with any update set, whether it returns or
    raises, leaves the objects that were there before the call as they
    were. *)
Lemma update_task_file_heap w ts task_id updates :
  file_backed w → holds w ts →
  ∃ built, heap (snd (update_task task_id updates w)) = heap w ++ built.
Proof.
  intros Hf Hh. unfold update_task.
  erewrite bind_ok by (by apply load_ok).
  pose proof (update_task_loop_below (length (heap w)) (loaded_refs w ts) task_id
                updates (loaded_refs w ts) (loaded_world w ts)) as [Hlen Hlow].
  { unfold loaded_refs, file_backed in *. destruct (store w); [done|].
    apply Forall_forall. intros l Hl%elem_of_seq. lia. }
  set (w' := snd (update_task_loop _ task_id updates _ (loaded_world w ts))) in *.
  assert (heap (loaded_world w ts) = heap w ++ ts) as E.
  { unfold loaded_world, file_backed in *. by destruct (store w). }
  rewrite E in Hlen, Hlow.
  exists (drop (length (heap w)) (heap w')).
  rewrite <- (take_drop (length (heap w)) (heap w')) at 1. f_equal.
  apply list_eq. intros j. destruct (decide (j < length (heap w))%nat) as [Hj|Hj].
  - rewrite lookup_take_lt by done. rewrite Hlow by done. by apply lookup_app_l.
  - rewrite lookup_take_ge by lia. symmetry. apply lookup_ge_None. lia.
Qed.

(** X4. With a file storage the service never writes to a task object that
    exists when the call begins: the objects a caller holds, the task handed
    to [add_task] included, keep their field values through every call,
    whether the call returns or raises.  All the service does to the heap is
    build new objects. *)
Theorem file_storage_leaves_objects_alone (w : world) (ts : list Task) (o : op) :
  file_backed w →
  holds w ts →
  (∀ task, o = op_add_task task → is_Some (heap w !! task)) →
  ∃ built, heap (snd (call o w)) = heap w ++ built.
Proof.
  intros Hf Hh Hadd.
  destruct (decide (plain_op o)) as [Hp|Hn].
  - destruct (call_ok_rel
      (λ w w', file_backed w → file_backed w' ∧ ∃ built, heap w' = heap w ++ built)
      w ts o) as (w' & Hrun & HR); try done.
    + intros w0 ts0 Hh0 Hf0. unfold file_backed in *.
      rewrite loaded_world_store. split; [done|].
      unfold loaded_world. destruct (store w0); [done|]. by exists ts0.
    + intros w0 ls0 ts0 _ Hf0. unfold file_backed, saved_world in *.
      destruct (store w0); [done|]. simpl. split; [done|]. exists [].
      by rewrite app_nil_r.
    + intros w0 ts0 k l t' Hh0 Hl Hf0. split.
      * unfold file_backed, updated_world, saved_world in *. simpl.
        rewrite loaded_world_store. by destruct (store w0).
      * eexists. by apply updated_world_file_heap.
    + intros w1 w2 w3 H12 H23 Hf1.
      destruct (H12 Hf1) as (Hf2 & b1 & E1). destruct (H23 Hf2) as (Hf3 & b2 & E2).
      split; [done|]. exists (b1 ++ b2). by rewrite E2, E1, app_assoc.
    + rewrite Hrun. by apply HR.
  - destruct o; try (by destruct Hn).
    unfold call. rewrite snd_discard. by eapply update_task_file_heap.
Qed.

(** ** The storages *)

Lemma loaded_world_nil w : loaded_world w [] = w.
Proof.
  unfold loaded_world. destruct (store w); [done|].
  by rewrite app_nil_r, set_heap_id.
Qed.

Lemma holds_absent_file w : store w = JSONStorage None → holds w [].
Proof.
  intros Hs. split; unfold stored, loadable; rewrite Hs; [by left|constructor].
Qed.

(** X5. A file that does not exist is an empty collection, not an error:
    [get_all_tasks] and [search_tasks] return the empty list, the lookups by
    id and by index return [None], [delete_task], [delete_task_by_index],
    [complete_task] and [complete_task_by_index] return [False], the
    statistics are all zero; and none of these creates the file. *)
Theorem absent_file_is_empty_collection (w : world) :
  store w = JSONStorage None →
  get_all_tasks w = (Ok [], w)
  ∧ (∀ task_id, get_task_by_id task_id w = (Ok None, w))
  ∧ (∀ index, get_task_by_index index w = (Ok None, w))
  ∧ (∀ keyword, search_tasks keyword w = (Ok [], w))
  ∧ (∀ task_id, delete_task task_id w = (Ok false, w))
  ∧ (∀ index, delete_task_by_index index w = (Ok false, w))
  ∧ (∀ task_id, complete_task task_id w = (Ok false, w))
  ∧ (∀ index, complete_task_by_index index w = (Ok false, w))
  ∧ get_statistics w
    = (Ok (mkStatistics 0 0 0
             (<["low"%string := 0]> (<["medium"%string := 0]>
                (<["high"%string := 0]> ∅)))), w).
Proof.
  intros Hs. pose proof (holds_absent_file w Hs) as Hh.
  assert (loaded_refs w [] = []) as Hr by (unfold loaded_refs; by rewrite Hs).
  assert (∀ index, in_range index (length (@nil Task)) = false) as Hout.
  { intros index. apply in_range_false. simpl. lia. }
  repeat split.
  - unfold get_all_tasks. by rewrite (load_ok w []), Hr, loaded_world_nil.
  - intros task_id. unfold get_task_by_id.
    erewrite bind_ok by (by apply (load_ok w [])).
    by rewrite Hr, loaded_world_nil.
  - intros index.
    by rewrite (get_task_by_index_run w []), Hout, loaded_world_nil.
  - intros keyword. by rewrite (search_tasks_run w []), Hr, loaded_world_nil.
  - intros task_id. rewrite (delete_task_run w []) by done. cbv zeta.
    by rewrite Hr, loaded_world_nil.
  - intros index.
    by rewrite (delete_task_by_index_run w []), Hout, loaded_world_nil.
  - intros task_id. unfold complete_task.
    by rewrite (update_task_absent w []), loaded_world_nil.
  - intros index.
    by rewrite (complete_task_by_index_absent w []), loaded_world_nil.
  - by rewrite (get_statistics_run w []), loaded_world_nil.
Qed.

(** X6. What is saved is what is loaded: after [save] of a list of tasks, a
    [load] returns tasks with the same field values in the same order, for
    the in-memory storage and, the priorities being valid, for the file. *)
Theorem save_then_load (w : world) (ls : list nat) (ts : list Task) :
  refs_to (heap w) ls ts →
  loadable w ts →
  ∃ w', (save ls;; tasks ← load; mapM read tasks) w = (Ok ts, w').
Proof.
  intros Hrefs Hl.
  assert (holds (saved_world w ls ts) ts) as Hh.
  { split; [by apply saved_world_stored|].
    unfold loadable, saved_world in *. by destruct (store w). }
  eexists. erewrite bind_ok by (by apply save_ok).
  erewrite bind_ok by (by apply load_ok).
  apply mapM_read_ok. by apply loaded_refs_to.
Qed.

(** X7. The in-memory storage copies the list, not the tasks: the object
    handed to [add_task] is the object the storage holds, and an update
    through the service changes the object in the caller's hands: its named
    fields take the given values, the others stay.  The keywords of the
    update set name fields, or nothing a task object has. *)
Theorem in_memory_storage_shares_objects
    (w : world) (ls : list nat) (ts : list Task) (task : nat) (t : Task)
    (updates : list kwarg) :
  store w = InMemoryStorage ls →
  holds w ts →
  heap w !! task = Some t →
  Forall (λ t', id t' ≠ id t) ts →
  plain updates →
  ∃ w' t', (add_task task;; update_task (id t) updates) w = (Ok true, w')
           ∧ heap w' !! task = Some t'
           ∧ ∀ key, getattr key t'
                    = from_option Some (getattr key t) (named_value key updates).
Proof.
  intros Hs Hh Ht Hall Hp.
  pose proof (loaded_refs_to _ _ Hh) as Hrefs.
  assert (loaded_world w ts = w) as Hw by (unfold loaded_world; by rewrite Hs).
  assert (loaded_refs w ts = ls) as Hr by (unfold loaded_refs; by rewrite Hs).
  rewrite Hw, Hr in Hrefs.
  set (w1 := saved_world w (ls ++ [task]) (ts ++ [t])).
  assert (refs_to (heap w) (ls ++ [task]) (ts ++ [t])) as Hrefs1.
  { apply Forall2_app; [done|]. by repeat constructor. }
  assert (holds w1 (ts ++ [t])) as Hh1.
  { split; [by apply saved_world_stored|].
    unfold loadable, w1, saved_world. by rewrite Hs. }
  assert (first_match (id t) (ts ++ [t]) (length ts) t) as Hfirst.
  { split; [by rewrite lookup_app_r, Nat.sub_diag|]. split; [done|].
    intros j t' Hj Ht'. rewrite lookup_app_l in Ht' by done.
    by eapply Forall_lookup_1 in Hall. }
  assert (loaded_refs w1 (ts ++ [t]) !! length ts = Some task) as Hl.
  { unfold loaded_refs, w1, saved_world. rewrite Hs. simpl.
    rewrite <- (refs_to_length _ _ _ Hrefs).
    by rewrite lookup_app_r, Nat.sub_diag. }
  eexists _, (apply_updates updates t). split; [|split].
  - erewrite bind_ok; [by eapply update_task_run|].
    rewrite (add_task_run w ts task t) by done. by rewrite Hw, Hr.
  - unfold updated_world. rewrite saved_world_heap. simpl.
    apply list_lookup_insert_eq.
    assert (loaded_world w1 (ts ++ [t]) = w1) as ->.
    { unfold loaded_world, w1, saved_world. by rewrite Hs. }
    unfold w1. rewrite saved_world_heap. by eapply lookup_lt_Some.
  - intros key. apply getattr_apply_updates.
Qed.

(** ** The service *)

(** X8. [add_task] puts the task at the end of the collection and always
    persists, also when the collection was empty and the file absent; a
    [get_all_tasks] after it returns the old tasks followed by the new one,
    its fields as the caller set them.  For a file storage the task has to
    pass the priority check to be loaded again. *)
Theorem add_then_get_all (w : world) (ts : list Task) (task : nat) (t : Task) :
  holds w ts →
  heap w !! task = Some t →
  ∃ w1, add_task task w = (Ok (), w1)
        ∧ stored w1 (ts ++ [t])
        ∧ (loadable w [t] →
           ∃ w2, (tasks ← get_all_tasks; mapM read tasks) w1
                 = (Ok (ts ++ [t]), w2)).
Proof.
  intros Hh Ht.
  assert (refs_to (heap (loaded_world w ts)) (loaded_refs w ts ++ [task])
                  (ts ++ [t])) as Hrefs.
  { apply Forall2_app; [by apply loaded_refs_to|].
    constructor; [|constructor]. by apply loaded_world_heap. }
  eexists. split; [by apply add_task_run|].
  split; [by apply saved_world_stored|].
  intros Hl.
  assert (holds (saved_world (loaded_world w ts) (loaded_refs w ts ++ [task])
                             (ts ++ [t])) (ts ++ [t])) as Hh1.
  { split; [by apply saved_world_stored|].
    destruct Hh as [_ Hl0]. unfold loadable, saved_world in *.
    rewrite loaded_world_store. destruct (store w); [done|].
    simpl. by apply Forall_app. }
  eexists. unfold get_all_tasks. erewrite bind_ok by (by apply load_ok).
  apply mapM_read_ok. by apply loaded_refs_to.
Qed.

Lemma get_task_by_id_loop_found w task_id ls ts k t l :
  refs_to (heap w) ls ts →
  first_match task_id ts k t →
  ls !! k = Some l →
  get_task_by_id_loop task_id ls w = (Ok (Some l), w).
Proof.
  intros H. revert k.
  induction H as [|l0 t0 ls ts Hl0 _ IH]; intros k (Hk & Hid & Hfirst) Hl.
  - by rewrite lookup_nil in Hk.
  - simpl. erewrite bind_ok by (by apply read_ok).
    destruct k as [|k]; simpl in *; simplify_eq.
    + by rewrite bool_decide_eq_true_2.
    + rewrite bool_decide_eq_false_2 by (by apply (Hfirst 0%nat); [lia|]).
      apply (IH k); [|done]. split; [done|]. split; [done|].
      intros j t' Hj Ht'. apply (Hfirst (S j)); [lia|done].
Qed.

Lemma get_task_by_id_loop_absent w task_id ls ts :
  refs_to (heap w) ls ts →
  Forall (λ t, id t ≠ task_id) ts →
  get_task_by_id_loop task_id ls w = (Ok None, w).
Proof.
  induction 1 as [|l t ls ts Hl _ IH]; intros Hall; [done|].
  apply Forall_cons in Hall as [Ht Hall].
  simpl. erewrite bind_ok by (by apply read_ok).
  rewrite bool_decide_eq_false_2 by done. by apply IH.
Qed.

Lemma get_task_by_id_absent_run w ts task_id :
  holds w ts →
  Forall (λ t, id t ≠ task_id) ts →
  get_task_by_id task_id w = (Ok None, loaded_world w ts).
Proof.
  intros Hh Hall. unfold get_task_by_id.
  erewrite bind_ok by (by apply load_ok).
  eapply get_task_by_id_loop_absent; [by apply loaded_refs_to|done].
Qed.

(** X9. [get_task_by_id] returns the first task in storage order whose id is
    the given one, and [None], not an exception, when no task has it; it
    persists nothing. *)
Theorem get_task_by_id_first_match
    (w : world) (ts : list Task) (task_id : string) :
  holds w ts →
  (∀ k t, first_match task_id ts k t →
     ∃ task w', get_task_by_id task_id w = (Ok (Some task), w')
                ∧ heap w' !! task = Some t
                ∧ store w' = store w ∧ holds w' ts)
  ∧ (Forall (λ t, id t ≠ task_id) ts →
     ∃ w', get_task_by_id task_id w = (Ok None, w')
           ∧ store w' = store w ∧ holds w' ts).
Proof.
  intros Hh. pose proof (loaded_refs_to _ _ Hh) as Hrefs. split.
  - intros k t Hfirst. pose proof Hfirst as (Hk & _).
    destruct (lookup_lt_is_Some_2 (loaded_refs w ts) k) as [l Hl];
      [rewrite loaded_refs_length by done; by eapply lookup_lt_Some|].
    destruct (refs_to_lookup _ _ _ _ _ Hrefs Hl) as (t0 & Ht0 & Hheap).
    simplify_eq. exists l, (loaded_world w ts).
    split; [|split; [done|split; [apply loaded_world_store|by apply holds_loaded_world]]].
    unfold get_task_by_id. erewrite bind_ok by (by apply load_ok).
    by eapply get_task_by_id_loop_found.
  - intros Hall. exists (loaded_world w ts).
    split; [by apply get_task_by_id_absent_run|].
    split; [apply loaded_world_store|by apply holds_loaded_world].
Qed.

(** X10. With an index in [0, len), [get_task_by_index] returns the task at
    that position of the collection; it persists nothing. *)
Theorem get_task_by_index_in_range
    (w : world) (ts : list Task) (index : Z) (t : Task) :
  holds w ts →
  0 ≤ index →
  ts !! Z.to_nat index = Some t →
  ∃ task w', get_task_by_index index w = (Ok (Some task), w')
             ∧ heap w' !! task = Some t
             ∧ store w' = store w ∧ holds w' ts.
Proof.
  intros Hh H0 Ht. pose proof (loaded_refs_to _ _ Hh) as Hrefs.
  destruct (lookup_lt_is_Some_2 (loaded_refs w ts) (Z.to_nat index)) as [l Hl];
    [rewrite loaded_refs_length by done; by eapply lookup_lt_Some|].
  destruct (refs_to_lookup _ _ _ _ _ Hrefs Hl) as (t0 & Ht0 & Hheap).
  simplify_eq. exists l, (loaded_world w ts).
  split; [|split; [done|split; [apply loaded_world_store|by apply holds_loaded_world]]].
  rewrite (get_task_by_index_run w ts) by done.
  rewrite in_range_true, Hl; [done|].
  apply lookup_lt_Some in Ht. lia.
Qed.

(** X11. With an index in [0, len), [delete_task_by_index] removes the one
    task at that position, also when other tasks have the same id: the
    collection is one shorter, the tasks before the position stay where they
    are, every later task moves down by one, and the result is persisted. *)
Theorem delete_task_by_index_in_range (w : world) (ts : list Task) (index : Z) :
  holds w ts →
  0 ≤ index < Z.of_nat (length ts) →
  ∃ w' ts',
    delete_task_by_index index w = (Ok true, w')
    ∧ stored w' ts'
    ∧ S (length ts') = length ts
    ∧ (∀ j, (j < Z.to_nat index)%nat → ts' !! j = ts !! j)
    ∧ (∀ j, (Z.to_nat index ≤ j)%nat → ts' !! j = ts !! S j).
Proof.
  intros Hh Hr. exists (saved_world (loaded_world w ts)
                          (delete (Z.to_nat index) (loaded_refs w ts))
                          (delete (Z.to_nat index) ts)),
                       (delete (Z.to_nat index) ts).
  split; [|split; [|split; [|split]]].
  - by rewrite (delete_task_by_index_run w ts), in_range_true.
  - apply saved_world_stored, Forall2_delete. by apply loaded_refs_to.
  - rewrite length_delete; [lia|]. apply lookup_lt_is_Some_2. lia.
  - intros j Hj. by apply list_lookup_delete_lt.
  - intros j Hj. by apply list_lookup_delete_ge.
Qed.

(** X12. [filter_tasks] returns exactly the tasks of the collection for
    which the function returns true, in the order of the collection, and
    persists nothing. *)
Theorem filter_tasks_keeps_matching
    (w : world) (ts : list Task) (filter_func : Task → bool) :
  holds w ts →
  ∃ found w',
    filter_tasks filter_func w = (Ok found, w')
    ∧ refs_to (heap w') found (filter (λ t, filter_func t = true) ts)
    ∧ store w' = store w ∧ holds w' ts.
Proof.
  intros Hh. eexists _, _. split; [by apply filter_tasks_run|].
  split; [|split; [apply loaded_world_store|by apply holds_loaded_world]].
  erewrite <- (list_filter_iff (λ t, filter_func t))
    by (intros t; apply Is_true_true).
  apply kept_refs_to. by apply loaded_refs_to.
Qed.

Lemma kept_all p ls ts :
  length ls = length ts → Forall (λ t, p t = true) ts → kept p ls ts = ls.
Proof.
  revert ts. induction ls as [|l ls IH]; intros [|t ts] Hlen Hall;
    simpl in *; try done.
  apply Forall_cons in Hall as [-> Hall]. f_equal. apply IH; [lia|done].
Qed.

(** X13. The empty keyword matches every task: [search_tasks] with the
    empty string returns the whole collection. *)
Theorem search_tasks_empty_keyword (w : world) (ts : list Task) :
  holds w ts →
  ∃ found w',
    search_tasks "" w = (Ok found, w')
    ∧ refs_to (heap w') found ts
    ∧ store w' = store w.
Proof.
  intros Hh. exists (loaded_refs w ts), (loaded_world w ts).
  split; [|split; [by apply loaded_refs_to|apply loaded_world_store]].
  rewrite (search_tasks_run w ts) by done. f_equal. f_equal.
  apply kept_all; [by apply loaded_refs_length|].
  apply Forall_forall. intros t _. unfold search_test. simpl.
  by destruct (lower (title t)).
Qed.

Lemma valid_task_cases t :
  valid_task t ↔
  priority t = "low"%string ∨ priority t = "medium"%string
  ∨ priority t = "high"%string.
Proof.
  unfold valid_task, valid_priorities.
  rewrite !elem_of_cons, elem_of_nil. tauto.
Qed.

Lemma valid_tasks_by_priority (ts : list Task) :
  length (filter valid_task ts)
  = (length (filter (λ t, priority t = "low"%string) ts)
     + length (filter (λ t, priority t = "medium"%string) ts)
     + length (filter (λ t, priority t = "high"%string) ts))%nat.
Proof.
  induction ts as [|t ts IH]; [done|].
  rewrite !filter_cons.
  destruct (decide (valid_task t)) as [Hv|Hn].
  - apply valid_task_cases in Hv as [E|[E|E]]; rewrite E; simpl;
      repeat (case_decide; try done); simpl; lia.
  - rewrite valid_task_cases in Hn.
    repeat (case_decide; [tauto|]). done.
Qed.

(** X14. The numbers of [get_statistics] add up: completed lies between 0
    and total and completed plus pending is total; the three counts of
    by_priority add up to the number of tasks whose priority is low, medium
    or high, so to the total when every priority is valid, while a task whose
    priority was set to something else counts in the total and in no
    priority. *)
Theorem statistics_add_up (w : world) (ts : list Task) :
  holds w ts →
  ∃ stats w' low medium high,
    get_statistics w = (Ok stats, w')
    ∧ stat_by_priority stats !! "low"%string = Some low
    ∧ stat_by_priority stats !! "medium"%string = Some medium
    ∧ stat_by_priority stats !! "high"%string = Some high
    ∧ 0 ≤ stat_completed stats ≤ stat_total stats
    ∧ stat_completed stats + stat_pending stats = stat_total stats
    ∧ low + medium + high = Z.of_nat (length (filter valid_task ts))
    ∧ low + medium + high ≤ stat_total stats
    ∧ (Forall valid_task ts → low + medium + high = stat_total stats).
Proof.
  intros Hh. eexists (statistics_of ts), _, _, _, _.
  split; [by apply get_statistics_run|]. simpl.
  do 3 (split; [by rewrite count_priorities_spec, decide_True
                  by (unfold valid_priorities; set_solver)|]).
  rewrite count_completed_spec.
  pose proof (length_filter (λ t, completed t = true) ts).
  pose proof (length_filter valid_task ts).
  pose proof (valid_tasks_by_priority ts).
  repeat split; try lia.
  intros Hall. rewrite (filter_all valid_task) in * by done. lia.
Qed.

Lemma apply_updates_ignored updates t :
  Forall (λ kw, names_nothing kw = true) updates → apply_updates updates t = t.
Proof.
  unfold apply_updates. induction 1 as [|kw rest Hkw _ IH]; [done|].
  simpl. by destruct kw.
Qed.

Lemma overwrite_same h ls l t ts :
  refs_to h ls ts → h !! l = Some t → overwrite ls l t ts = ts.
Proof.
  intros H Hl. induction H as [|l0 t0 ls ts Hl0 _ IH]; [done|].
  unfold overwrite in *. simpl. rewrite IH. f_equal.
  case_decide; [|done]. by simplify_eq.
Qed.

(** X15. An update set in which no keyword names anything a task object has
    (the empty one, or one made of unknown keywords) changes no task;
    [update_task] still answers found and still writes the collection back,
    with the values it had. *)
Theorem update_task_without_fields
    (w : world) (ts : list Task) (task_id : string) (updates : list kwarg)
    (k : nat) (t : Task) :
  holds w ts →
  first_match task_id ts k t →
  Forall (λ kw, names_nothing kw = true) updates →
  ∃ w', update_task task_id updates w = (Ok true, w') ∧ stored w' ts.
Proof.
  intros Hh Hfirst Hign. pose proof Hfirst as (Hk & _).
  assert (plain updates) as Hp.
  { eapply Forall_impl; [exact Hign|]. intros kw ->. apply orb_true_r. }
  pose proof (loaded_refs_to _ _ Hh) as Hrefs.
  destruct (lookup_lt_is_Some_2 (loaded_refs w ts) k) as [l Hl];
    [rewrite loaded_refs_length by done; by eapply lookup_lt_Some|].
  destruct (refs_to_lookup _ _ _ _ _ Hrefs Hl) as (t0 & Ht0 & Hheap).
  simplify_eq.
  eexists. split; [by eapply update_task_run|].
  rewrite apply_updates_ignored by done.
  pose proof (updated_world_stored w ts l t Hh) as Hst.
  by rewrite (overwrite_same _ _ _ _ _ Hrefs Hheap) in Hst.
Qed.

Lemma delete_task_holds w ts task_id :
  holds w ts →
  holds (snd (delete_task task_id w)) (filter (λ t, id t ≠ task_id) ts)
  ∧ fst (delete_task task_id w)
    = Ok (bool_decide (Exists (λ t, id t = task_id) ts)).
Proof.
  intros Hh. destruct (delete_task_spec w ts task_id Hh) as (w' & Hrun & Hst & _).
  rewrite Hrun. simpl. split; [|done]. split; [done|].
  assert (match store w' with
          | InMemoryStorage _ => match store w with
                                 | InMemoryStorage _ => True | _ => False end
          | JSONStorage _ => match store w with
                             | JSONStorage _ => True | _ => False end
          end) as Hkind.
  { rewrite (delete_task_run w ts) in Hrun by done. cbv zeta in Hrun.
    destruct (_ <? _)%nat; injection Hrun as _ <-.
    - unfold saved_world. rewrite loaded_world_store.
      by destruct (store w).
    - rewrite loaded_world_store. by destruct (store w). }
  destruct Hh as [_ Hl]. unfold loadable in *.
  destruct (store w'), (store w); try done.
  apply Forall_forall. intros t [_ Ht]%list_elem_of_filter.
  by eapply Forall_forall.
Qed.

(** X16. After [delete_task] no task with the id is left: a lookup of the
    id returns [None] and a second [delete_task] returns [False] and
    persists nothing. *)
Theorem delete_task_then_absent (w : world) (ts : list Task) (task_id : string) :
  holds w ts →
  ∃ found w1 w2 w3,
    delete_task task_id w = (Ok found, w1)
    ∧ get_task_by_id task_id w1 = (Ok None, w2)
    ∧ delete_task task_id w2 = (Ok false, w3)
    ∧ store w3 = store w1.
Proof.
  intros Hh.
  destruct (delete_task_holds w ts task_id Hh) as [Hh1 Hres].
  destruct (delete_task task_id w) as [r w1] eqn:Hrun. simpl in *. subst r.
  assert (Forall (λ t, id t ≠ task_id) (filter (λ t, id t ≠ task_id) ts)) as Hall.
  { apply Forall_forall. by intros t [Ht _]%list_elem_of_filter. }
  pose proof (get_task_by_id_absent_run w1 _ task_id Hh1 Hall) as Hget.
  pose proof (holds_loaded_world _ _ Hh1) as Hh2.
  destruct (delete_task_spec _ _ task_id Hh2) as (w3 & Hdel & _ & Hst3 & _).
  eexists _, w1, _, w3.
  split; [done|]. split; [exact Hget|]. split.
  - rewrite Hdel. do 2 f_equal. apply bool_decide_eq_false_2.
    intros Hex. apply Exists_exists in Hex as (t & Hin & Hid).
    rewrite Forall_forall in Hall. by apply (Hall t).
  - by rewrite Hst3, loaded_world_store.
Qed.

(** ** Updating twice *)

Lemma getattr_inj t1 t2 :
  (∀ key, getattr key t1 = getattr key t2) → t1 = t2.
Proof.
  intros H.
  pose proof (H "title"%string) as H1. pose proof (H "description"%string) as H2.
  pose proof (H "priority"%string) as H3. pose proof (H "due_date"%string) as H4.
  pose proof (H "completed"%string) as H5. pose proof (H "id"%string) as H6.
  pose proof (H "created_at"%string) as H7.
  destruct t1 as [? ? ? [?|] ? ? ?], t2 as [? ? ? [?|] ? ? ?];
    vm_compute in H1, H2, H3, H4, H5, H6, H7; congruence.
Qed.

Lemma apply_updates_twice updates t :
  apply_updates updates (apply_updates updates t) = apply_updates updates t.
Proof.
  apply getattr_inj. intros key. rewrite !getattr_apply_updates.
  by destruct (named_value key updates).
Qed.

Lemma Forall_overwrite (P : Task → Prop) ls l t' ts :
  Forall P ts → P t' → Forall P (overwrite ls l t' ts).
Proof.
  intros Hall Ht'. revert ls. induction Hall as [|t ts Ht _ IH]; intros [|l0 ls];
    try constructor.
  - by case_decide.
  - apply IH.
Qed.

(** X17. Running an update twice is the same as running it once: when the
    update set does not name [id], the second [update_task] finds the same
    task, returns found again and leaves the stored collection as the first
    one left it, the task carrying the values the update set names.  The
    keywords of the update set name fields, or nothing a task object has. *)
Theorem update_task_twice
    (w : world) (ts : list Task) (task_id : string) (updates : list kwarg)
    (k : nat) (t : Task) :
  holds w ts →
  first_match task_id ts k t →
  plain updates →
  named_value "id" updates = None →
  (∀ v, kw_priority v ∈ updates → v ∈ valid_priorities) →
  ∃ w1 w2 ts' t',
    update_task task_id updates w = (Ok true, w1)
    ∧ stored w1 ts'
    ∧ update_task task_id updates w1 = (Ok true, w2)
    ∧ stored w2 ts'
    ∧ ts' !! k = Some t'
    ∧ ∀ key, getattr key t'
             = from_option Some (getattr key t) (named_value key updates).
Proof.
  intros Hh Hfirst Hp Hid Hprio.
  pose proof Hfirst as (Hk & Hidt & Hbefore).
  pose proof (loaded_refs_to _ _ Hh) as Hrefs.
  destruct (lookup_lt_is_Some_2 (loaded_refs w ts) k) as [l Hl];
    [rewrite loaded_refs_length by done; by eapply lookup_lt_Some|].
  destruct (refs_to_lookup _ _ _ _ _ Hrefs Hl) as (t0 & Ht0 & Hheap).
  simplify_eq.
  set (t' := apply_updates updates t).
  set (ts1 := overwrite (loaded_refs w ts) l t' ts).
  set (w1 := updated_world w ts l t').
  assert (id t' = id t) as Hid'.
  { pose proof (getattr_apply_updates "id" updates t) as E.
    rewrite Hid in E. by injection E. }
  assert (holds w1 ts1) as Hh1.
  { split; [by apply updated_world_stored|].
    destruct Hh as [_ Hload]. unfold loadable, w1, updated_world, saved_world in *.
    simpl. rewrite loaded_world_store. destruct (store w); [done|]. simpl.
    apply Forall_overwrite; [done|].
    apply valid_task_apply_updates; [done|]. by eapply Forall_lookup_1. }
  assert (first_match (id t) ts1 k t') as Hfirst1.
  { split; [|split; [done|]].
    - unfold ts1. erewrite overwrite_lookup by done. by rewrite decide_True.
    - intros j u Hj Hu.
      destruct (lookup_lt_is_Some_2 ts j) as [tj Htj];
        [apply lookup_lt_Some in Hk; lia|].
      destruct (Forall2_lookup_r _ _ _ _ _ Hrefs Htj) as (lj & Hlj & Hhj).
      unfold ts1 in Hu. erewrite overwrite_lookup in Hu by done.
      injection Hu as <-. case_decide as E.
      + subst lj. rewrite Hheap in Hhj. injection Hhj as <-.
        exfalso. by apply (Hbefore j t).
      + by eapply Hbefore. }
  pose proof (loaded_refs_to _ _ Hh1) as Hrefs1.
  destruct (lookup_lt_is_Some_2 (loaded_refs w1 ts1) k) as [l1 Hl1].
  { rewrite loaded_refs_length by done. destruct Hfirst1 as (Hk1 & _).
    by eapply lookup_lt_Some. }
  destruct (refs_to_lookup _ _ _ _ _ Hrefs1 Hl1) as (u & Hu & Hheap1).
  pose proof Hfirst1 as (Hk1 & _). rewrite Hk1 in Hu. injection Hu as <-.
  assert (apply_updates updates t' = t') as Htwice
    by apply apply_updates_twice.
  exists w1, (updated_world w1 ts1 l1 t'), ts1, t'.
  split; [by eapply update_task_run|].
  split; [by destruct Hh1|].
  split; [|split; [|split; [done|]]].
  - pose proof (update_task_run w1 ts1 (id t) updates k t' l1 Hp Hh1 Hfirst1 Hl1)
      as Hrun2.
    by rewrite Htwice in Hrun2.
  - pose proof (updated_world_stored w1 ts1 l1 t' Hh1) as Hst.
    by rewrite (overwrite_same _ _ _ _ _ Hrefs1 Hheap1) in Hst.
  - intros key. apply getattr_apply_updates.
Qed.

(** ** The task record *)

(** X18. [to_dict] loses nothing: two tasks with the same dictionary are the
    same field for field, whatever their priorities; and the dictionary has
    the seven field names as its keys. *)
Theorem to_dict_injective (t1 t2 : Task) :
  dom (to_dict t1) = list_to_set field_names
  ∧ (to_dict t1 = to_dict t2 → t1 = t2).
Proof.
  split; [apply dom_to_dict|]. intros H.
  assert (∀ key, to_dict t1 !! key = to_dict t2 !! key) as Hk
    by (intros key; by rewrite H).
  pose proof (Hk "title"%string) as H1. pose proof (Hk "description"%string) as H2.
  pose proof (Hk "priority"%string) as H3. pose proof (Hk "due_date"%string) as H4.
  pose proof (Hk "completed"%string) as H5. pose proof (Hk "id"%string) as H6.
  pose proof (Hk "created_at"%string) as H7.
  unfold to_dict in H1, H2, H3, H4, H5, H6, H7.
  repeat (first [rewrite lookup_insert_eq in H1
                | rewrite lookup_insert_ne in H1 by done]).
  repeat (first [rewrite lookup_insert_eq in H2
                | rewrite lookup_insert_ne in H2 by done]).
  repeat (first [rewrite lookup_insert_eq in H3
                | rewrite lookup_insert_ne in H3 by done]).
  repeat (first [rewrite lookup_insert_eq in H4
                | rewrite lookup_insert_ne in H4 by done]).
  repeat (first [rewrite lookup_insert_eq in H5
                | rewrite lookup_insert_ne in H5 by done]).
  repeat (first [rewrite lookup_insert_eq in H6
                | rewrite lookup_insert_ne in H6 by done]).
  repeat (first [rewrite lookup_insert_eq in H7
                | rewrite lookup_insert_ne in H7 by done]).
  destruct t1 as [? ? ? [?|] ? ? ?], t2 as [? ? ? [?|] ? ? ?];
    simpl in *; congruence.
Qed.

Lemma Task_init_TypeError data w :
  data !! "title"%string = None ∨ ¬ dom data ⊆ list_to_set field_names →
  Task_init data w = (Raise TypeError, w).
Proof.
  intros H. unfold Task_init. case_bool_decide as Hd.
  - destruct H as [->|H]; done.
  - done.
Qed.

Lemma mapM_from_dict_bad_record ts data rest w :
  Forall valid_task ts →
  data !! "title"%string = None ∨ ¬ dom data ⊆ list_to_set field_names →
  ∃ w', mapM from_dict ((to_dict <$> ts) ++ data :: rest) w = (Raise TypeError, w')
        ∧ store w' = store w.
Proof.
  intros Hv Hbad. revert w. induction Hv as [|t ts Ht _ IH]; intros w.
  - exists w. split; [|done]. simpl.
    by erewrite bind_raise by (by apply Task_init_TypeError).
  - destruct (IH (set_heap (heap w ++ [t]) w)) as (w' & Hrun & Hst).
    exists w'. split; [|done]. simpl.
    erewrite bind_ok by (by apply from_dict_to_dict_run).
    by erewrite bind_raise.
Qed.

(** X19. A record of the file that lacks the key [title], or has a key that
    is no field of a task, makes the construction of the task raise
    [TypeError]; [JSONStorage.load] catches only [IOError] and the JSON
    decoding error, so every operation of the service raises [TypeError] and
    the file stays as it is. *)
Theorem bad_record_fails_every_call
    (w : world) (ts : list Task) (data : gmap string pyval)
    (rest : list (gmap string pyval)) (o : op) :
  store w = JSONStorage (Some (JsonArray ((to_dict <$> ts) ++ data :: rest))) →
  Forall valid_task ts →
  data !! "title"%string = None ∨ ¬ dom data ⊆ list_to_set field_names →
  fst (call o w) = Raise TypeError ∧ store (snd (call o w)) = store w.
Proof.
  intros Hs Hv Hbad.
  destruct (mapM_from_dict_bad_record ts data rest w Hv Hbad) as (w' & Hrun & Hst).
  rewrite (call_load_raise w o TypeError w'); [done|].
  unfold load. erewrite bind_ok by reflexivity. by rewrite Hs.
Qed.

(** A task constructed from a title, a description, a priority and a due
    date, the way the command line constructs it, is not completed and takes
    its id and its creation time from the two generators, the id first. *)
Lemma Task_init_four_fields_run
    (w : world) (title description priority : string) (due : option string) :
  priority ∈ valid_priorities →
  Task_init (<["title"%string := PStr title]>
             (<["description"%string := PStr description]>
             (<["priority"%string := PStr priority]>
             (<["due_date"%string := from_option PStr PNone due]> ∅)))) w
  = (Ok (length (heap w)),
     mkWorld (heap w ++ [mkTask title description priority due false
                                (uuid_src w (ticks w))
                                (clock_src w (S (ticks w)))])
             (store w) (uuid_src w) (clock_src w) (S (S (ticks w)))).
Proof.
  intros Hp. unfold Task_init.
  rewrite bool_decide_eq_true_2 by (apply (bool_decide_unpack _); by vm_compute).
  repeat (first [rewrite lookup_insert_eq | rewrite lookup_insert_ne by done]).
  rewrite lookup_empty.
  pose proof (valid_priority_check _ Hp) as Hc.
  remember (PStr <$> valid_priorities) as vp.
  simpl. unfold mbind, M_bind, fmap, M_fmap. simpl. rewrite Hc.
  by destruct due.
Qed.

(** ** The formatters *)

Lemma occurs_in_refl a : occurs_in a a.
Proof.
  exists ""%string, ""%string. rewrite str_app_nil.
  induction a as [|c a IH]; [done|]. rewrite str_app_cons. by f_equal.
Qed.

Lemma str_app_assoc (a b c : string) : (a +:+ b) +:+ c = a +:+ b +:+ c.
Proof.
  induction a as [|x a IH]; [done|]. rewrite !str_app_cons. by f_equal.
Qed.

Lemma occurs_in_app_l a b c : occurs_in a b → occurs_in a (b +:+ c).
Proof.
  intros (pre & post & ->). exists pre, (post +:+ c).
  by rewrite !str_app_assoc.
Qed.

Lemma occurs_in_app_r a b c : occurs_in a c → occurs_in a (b +:+ c).
Proof.
  intros (pre & post & ->). exists (b +:+ pre), post.
  by rewrite !str_app_assoc.
Qed.

Lemma concat_cons sep x y ls :
  String.concat sep (x :: y :: ls) = x +:+ sep +:+ String.concat sep (y :: ls).
Proof. reflexivity. Qed.

Lemma occurs_in_concat sep x ls :
  x ∈ ls → occurs_in x (String.concat sep ls).
Proof.
  induction ls as [|y ls IH]; intros Hin; [by apply elem_of_nil in Hin|].
  destruct ls as [|z ls].
  - apply list_elem_of_singleton in Hin as ->. apply occurs_in_refl.
  - rewrite concat_cons. apply elem_of_cons in Hin as [->|Hin].
    + apply occurs_in_app_l, occurs_in_refl.
    + by apply occurs_in_app_r, occurs_in_app_r, IH.
Qed.

Lemma title_in_simple_line i t : occurs_in (title t) (simple_line i t).
Proof.
  unfold simple_line.
  assert (occurs_in (title t)
            ("[" +:+ (if completed t then "✓" else " ") +:+ "] " +:+ pretty i
             +:+ ". " +:+ default "→" (priority_symbols !! priority t)
             +:+ " " +:+ title t)) as H.
  { do 7 apply occurs_in_app_r. apply occurs_in_refl. }
  destruct (str_truthy (description t)), (optional_str_truthy (due_date t));
    first [exact H
          | apply occurs_in_app_l;
            first [exact H | apply occurs_in_app_l; exact H]].
Qed.

Lemma title_in_detailed_lines i t :
  ∃ line, line ∈ detailed_lines i t ∧ occurs_in (title t) line.
Proof.
  exists ("Title:       " +:+ title t)%string. split.
  - unfold detailed_lines. do 3 apply list_elem_of_further. apply list_elem_of_here.
  - apply occurs_in_app_r, occurs_in_refl.
Qed.

Lemma occurs_in_trans a b c : occurs_in a b → occurs_in b c → occurs_in a c.
Proof.
  intros (p1 & q1 & ->) (p2 & q2 & ->). exists (p2 +:+ p1), (q1 +:+ q2).
  by rewrite !str_app_assoc.
Qed.

(** X20. Whatever the tasks, the title of every task of a list occurs in the
    text of the simple formatter and in the text of the detailed one. *)
Theorem formatters_show_every_title (ts : list Task) (t : Task) :
  t ∈ ts →
  occurs_in (title t) (simple_text ts) ∧ occurs_in (title t) (detailed_text ts).
Proof.
  intros Hin. apply list_elem_of_lookup in Hin as [i Hi].
  destruct ts as [|t0 ts0]; [by rewrite lookup_nil in Hi|].
  set (ts := t0 :: ts0) in *. split.
  - change (simple_text ts) with (String.concat newline (imap simple_line ts)).
    eapply occurs_in_trans; [apply (title_in_simple_line i)|].
    apply occurs_in_concat. apply list_elem_of_lookup. exists i.
    by rewrite list_lookup_imap, Hi.
  - change (detailed_text ts)
      with (String.concat newline (mjoin (imap detailed_lines ts))).
    destruct (title_in_detailed_lines i t) as (line & Hline & Hocc).
    eapply occurs_in_trans; [exact Hocc|].
    apply occurs_in_concat. apply list_elem_of_join.
    exists (detailed_lines i t). split; [done|].
    apply list_elem_of_lookup. exists i. by rewrite list_lookup_imap, Hi.
Qed.

Lemma concat_first_char sep c x ls :
  ∃ rest, String.concat sep (String c x :: ls) = String c rest.
Proof. destruct ls; simpl; eauto. Qed.

(** X21. Both formatters answer the empty list with the text
    "No tasks found.", and only the empty list: the text for a list with at
    least one task begins with a bracket (simple) or with a line break
    (detailed). *)
Theorem formatters_empty_list (ts : list Task) :
  (simple_text ts = "No tasks found."%string ↔ ts = [])
  ∧ (detailed_text ts = "No tasks found."%string ↔ ts = []).
Proof.
  split; (split; [|by intros ->]); destruct ts as [|t ts]; try done; intros H;
    exfalso.
  - unfold simple_text in H. rewrite imap_cons in H.
    unfold simple_line at 1 in H.
    destruct (str_truthy (description t)), (optional_str_truthy (due_date t));
      rewrite ?str_app_assoc, str_app_cons in H;
      match type of H with String.concat _ (String ?c ?x :: ?ls) = _ =>
        destruct (concat_first_char newline c x ls) as [rest E] end;
      rewrite E in H; discriminate H.
Qed.

(** X22. The dictionary [get_statistics] returns always has the three keys
    the statistics formatter reads: formatting the statistics of any
    collection raises no [KeyError] and shows the total, the completed, the
    pending and the three priority counts, each on its line. *)
Theorem format_statistics_of_collection (ts : list Task) :
  format_statistics (statistics_of ts)
  = inr (String.concat newline
      [ newline +:+ str_repeat "=" 40;
        "Task Statistics";
        str_repeat "=" 40;
        "Total Tasks:      " +:+ pretty (Z.of_nat (length ts));
        "Completed:        "
          +:+ pretty (Z.of_nat (length (filter (λ t, completed t = true) ts)));
        "Pending:          "
          +:+ pretty (Z.of_nat (length ts)
                      - Z.of_nat (length (filter (λ t, completed t = true) ts)));
        "";
        "By Priority:";
        "  High:           "
          +:+ pretty (Z.of_nat (length (filter (λ t, priority t = "high"%string) ts)));
        "  Medium:         "
          +:+ pretty (Z.of_nat (length (filter (λ t, priority t = "medium"%string) ts)));
        "  Low:            "
          +:+ pretty (Z.of_nat (length (filter (λ t, priority t = "low"%string) ts)));
        str_repeat "=" 40 ]%string).
Proof.
  unfold format_statistics, statistics_of. cbn [stat_by_priority stat_total
    stat_completed stat_pending].
  rewrite !count_priorities_spec, !decide_True
    by (apply (bool_decide_unpack _); by vm_compute).
  by rewrite count_completed_spec.
Qed.

(** ** The command handlers *)

Lemma cmd_bind_returned {A B} (m : Cmd A) (k : A → Cmd B) w out a w' out' :
  m w out = (Returned a, w', out') → (m ≫= k) w out = k a w' out'.
Proof. intros H. unfold mbind, Cmd_bind. by rewrite H. Qed.

Lemma cmd_bind_raised {A B} (m : Cmd A) (k : A → Cmd B) w out e w' out' :
  m w out = (Raised e, w', out') → (m ≫= k) w out = (Raised e, w', out').
Proof. intros H. unfold mbind, Cmd_bind. by rewrite H. Qed.

Lemma cmd_bind_exited {A B} (m : Cmd A) (k : A → Cmd B) w out s w' out' :
  m w out = (Exited s, w', out') → (m ≫= k) w out = (Exited s, w', out').
Proof. intros H. unfold mbind, Cmd_bind. by rewrite H. Qed.

Lemma lift_ok {A} (m : M A) w out a w' :
  m w = (Ok a, w') → lift m w out = (Returned a, w', out).
Proof. intros H. unfold lift. by rewrite H. Qed.

Lemma lift_raise {A} (m : M A) w out e w' :
  m w = (Raise e, w') → lift m w out = (Raised (service_exn e), w', out).
Proof. intros H. unfold lift. by rewrite H. Qed.

Lemma try_except_raised {A} (body : Cmd A) handler w out e w' out' :
  body w out = (Raised e, w', out') →
  try_except body handler w out = handler e w' out'.
Proof. intros H. unfold try_except. by rewrite H. Qed.

Lemma try_except_returned {A} (body : Cmd A) handler w out a w' out' :
  body w out = (Returned a, w', out') →
  try_except body handler w out = (Returned a, w', out').
Proof. intros H. unfold try_except. by rewrite H. Qed.

Lemma try_except_exited {A} (body : Cmd A) handler w out s w' out' :
  body w out = (Exited s, w', out') →
  try_except body handler w out = (Exited s, w', out').
Proof. intros H. unfold try_except. by rewrite H. Qed.

Lemma report_run exn_text what e w out :
  report exn_text what e w out
  = (Exited 1, w, out ++ [to_stderr ("✗ Error " +:+ what +:+ ": " +:+ exn_text e)]).
Proof. reflexivity. Qed.

Lemma discard_raise {A} (m : M A) w e w' :
  (m;; mret ()) w = (Raise e, w') → m w = (Raise e, w').
Proof.
  unfold mbind, M_bind. destruct (m w) as [[a|e0] w0]; [done|congruence].
Qed.

Lemma Task_init_store data w : store (snd (Task_init data w)) = store w.
Proof.
  unfold Task_init. case_bool_decide; [|done].
  destruct (data !! "title"%string); [|done].
  remember (PStr <$> valid_priorities) as valid.
  destruct (data !! "id"%string), (data !! "created_at"%string);
    unfold mbind, M_bind, fmap, M_fmap; simpl;
    (case_bool_decide; [done|]);
    (match goal with |- context [typed_task ?a ?b ?c ?d ?e ?f ?g] =>
       destruct (typed_task a b c d e f g) end); done.
Qed.

(** X23. Whatever the command, a file that does not parse ends the command
    with exit status 1 and one line on the error stream that starts with the
    cross and the word Error; nothing is written to the output stream and
    the file is not touched.  No exception leaves a handler. *)
Theorem commands_report_a_malformed_file
    (exn_text : cli_exn → string) (self_formatter : formatter)
    (c : command) (w : world) :
  store w = JSONStorage (Some Malformed) →
  ∃ w' what e,
    run_command exn_text self_formatter c w []
    = (Exited 1, w', [to_stderr ("✗ Error " +:+ what +:+ ": " +:+ exn_text e)])
    ∧ store w' = store w.
Proof.
  intros Hs.
  assert (∀ w0, store w0 = store w → load w0 = (Raise IOError, w0)) as Hload.
  { intros w0 E. unfold load. erewrite bind_ok by reflexivity.
    by rewrite E, Hs. }
  assert (∀ o, call o w = (Raise IOError, w)) as Hcall
    by (intros o; by apply call_load_raise, Hload).
  destruct c as [args|args|index|args|index|keyword|]; simpl.
  - unfold _add_task.
    match goal with |- context [Task_init ?d] => set (data := d) end.
    destruct (Task_init data w) as [[task|e] w1] eqn:Hinit;
      pose proof (Task_init_store data w) as Hst; rewrite Hinit in Hst;
      simpl in Hst; eexists w1, _, _; (split; [|done]);
      erewrite try_except_raised.
    2:{ erewrite cmd_bind_returned by (by apply lift_ok).
        erewrite cmd_bind_raised; [reflexivity|].
        apply lift_raise. apply (call_load_raise w1 (op_add_task task)).
        by apply Hload. }
    1:{ by rewrite report_run. }
    2:{ erewrite cmd_bind_raised; [reflexivity|]. by apply lift_raise. }
    by rewrite report_run.
  - eexists w, _, _. split; [|done]. unfold _list_tasks.
    erewrite try_except_raised.
    2:{ erewrite cmd_bind_raised; [reflexivity|].
        apply lift_raise. apply discard_raise, (Hcall op_get_all_tasks). }
    by rewrite report_run.
  - eexists w, _, _. split; [|done]. unfold _complete_task.
    erewrite try_except_raised.
    2:{ erewrite cmd_bind_raised; [reflexivity|]. apply lift_raise.
        apply discard_raise, (Hcall (op_complete_task_by_index index)). }
    by rewrite report_run.
  - eexists w, _, _. split; [|done]. unfold _update_task.
    erewrite try_except_raised.
    2:{ erewrite cmd_bind_raised; [reflexivity|]. apply lift_raise.
        apply discard_raise, (Hcall (op_get_task_by_index (update_index args))). }
    by rewrite report_run.
  - eexists w, _, _. split; [|done]. unfold _delete_task.
    erewrite try_except_raised.
    2:{ erewrite cmd_bind_raised; [reflexivity|]. apply lift_raise.
        apply discard_raise, (Hcall (op_delete_task_by_index index)). }
    by rewrite report_run.
  - eexists w, _, _. split; [|done]. unfold _search_tasks.
    erewrite try_except_raised.
    2:{ erewrite cmd_bind_raised; [reflexivity|]. apply lift_raise.
        apply discard_raise, (Hcall (op_search_tasks keyword)). }
    by rewrite report_run.
  - eexists w, _, _. split; [|done]. unfold _show_stats.
    erewrite try_except_raised.
    2:{ erewrite cmd_bind_raised; [reflexivity|]. apply lift_raise.
        apply discard_raise, (Hcall op_get_statistics). }
    by rewrite report_run.
Qed.

Lemma complete_task_by_index_found w ts index :
  holds w ts →
  in_range index (length ts) = true →
  ∃ w', complete_task_by_index index w = (Ok true, w').
Proof.
  intros Hh Hr.
  destruct (lookup_lt_is_Some_2 ts (Z.to_nat index)) as [t Ht].
  { unfold in_range in Hr. apply andb_prop in Hr as [H1 H2]. lia. }
  rewrite (complete_task_by_index_run w ts index t) by done.
  pose proof (holds_loaded_world _ _ Hh) as Hh1.
  destruct (update_first_spec (id t) (apply_updates [kw_completed true]) ts)
    as [(k & t0 & Hfirst & _)|[Hall _]].
  - pose proof Hfirst as (Hk & _).
    destruct (lookup_lt_is_Some_2 (loaded_refs (loaded_world w ts) ts) k)
      as [l Hl];
      [rewrite loaded_refs_length by done; by eapply lookup_lt_Some|].
    eexists. unfold complete_task.
    eapply update_task_run; [apply plain_completed|done..].
  - exfalso. by apply (Forall_lookup_1 _ _ _ _ Hall Ht).
Qed.

(** X24. The commands [complete] and [delete] with an index outside
    [0, len) write one line, "Task <index> not found", on the error stream
    and end with exit status 1, the storage being left as it was; with an
    index in range they write their confirmation on the output stream and
    return, and [delete] has removed the task at the index. *)
Theorem complete_and_delete_commands
    (exn_text : cli_exn → string) (w : world) (ts : list Task) (index : Z)
    (out : list printed) :
  holds w ts →
  (index < 0 ∨ Z.of_nat (length ts) ≤ index →
     _complete_task exn_text index w out
     = (Exited 1, loaded_world w ts,
        out ++ [to_stderr ("✗ Task " +:+ pretty index +:+ " not found")])
     ∧ _delete_task exn_text index w out
       = (Exited 1, loaded_world w ts,
          out ++ [to_stderr ("✗ Task " +:+ pretty index +:+ " not found")]))
  ∧ (0 ≤ index < Z.of_nat (length ts) →
     (∃ w', _complete_task exn_text index w out
            = (Returned (), w',
               out ++ [to_stdout ("✓ Task " +:+ pretty index
                                  +:+ " marked as completed")]))
     ∧ (∃ w', _delete_task exn_text index w out
              = (Returned (), w',
                 out ++ [to_stdout ("✓ Task " +:+ pretty index +:+ " deleted")])
              ∧ stored w' (delete (Z.to_nat index) ts))).
Proof.
  intros Hh. split.
  - intros Hout%in_range_false. split.
    + unfold _complete_task. erewrite try_except_exited; [reflexivity|].
      erewrite cmd_bind_returned
        by (by apply lift_ok, complete_task_by_index_absent).
      reflexivity.
    + unfold _delete_task. erewrite try_except_exited; [reflexivity|].
      erewrite cmd_bind_returned.
      2:{ apply lift_ok. rewrite (delete_task_by_index_run w ts) by done.
          by rewrite Hout. }
      reflexivity.
  - intros Hin%in_range_true. split.
    + destruct (complete_task_by_index_found w ts index Hh Hin) as [w' Hrun].
      exists w'. unfold _complete_task.
      erewrite try_except_returned; [reflexivity|].
      by erewrite cmd_bind_returned by (by apply lift_ok).
    + eexists. split.
      * unfold _delete_task. erewrite try_except_returned; [reflexivity|].
        erewrite cmd_bind_returned.
        2:{ apply lift_ok. rewrite (delete_task_by_index_run w ts) by done.
            by rewrite Hin. }
        reflexivity.
      * apply saved_world_stored, Forall2_delete. by apply loaded_refs_to.
Qed.

Lemma cli_updates_plain args : plain (cli_updates args).
Proof.
  unfold cli_updates.
  destruct (optional_str_truthy (update_title args)),
           (optional_str_truthy (update_description args)),
           (optional_str_truthy (update_priority args)),
           (optional_str_truthy (update_due args)); by repeat constructor.
Qed.

Lemma cli_updates_fields args t :
  let t' := apply_updates (cli_updates args) t in
  id t' = id t ∧ created_at t' = created_at t ∧ completed t' = completed t
  ∧ title t' = (if optional_str_truthy (update_title args)
                then default "" (update_title args) else title t)
  ∧ description t' = (if optional_str_truthy (update_description args)
                      then default "" (update_description args)
                      else description t)
  ∧ priority t' = (if optional_str_truthy (update_priority args)
                   then default "" (update_priority args) else priority t)
  ∧ due_date t' = (if optional_str_truthy (update_due args)
                   then update_due args else due_date t).
Proof.
  unfold cli_updates, apply_updates.
  destruct (optional_str_truthy (update_title args)),
           (optional_str_truthy (update_description args)),
           (optional_str_truthy (update_priority args)),
           (optional_str_truthy (update_due args)); simpl; done.
Qed.

(** X25. The command [update]: with an index out of range it reports
    "not found" and with no option, or only empty ones, "No updates
    specified", in both cases on the error stream, with exit status 1 and
    nothing persisted.  Otherwise, the task at the index being the first of
    its id, it confirms on the output stream and the stored task has the
    given title, description, priority and due date where an option was
    given and not empty, and its old values elsewhere; its id, its creation
    time and its completed flag are never changed. *)
Theorem update_command
    (exn_text : cli_exn → string) (w : world) (ts : list Task)
    (args : update_args) (out : list printed) :
  holds w ts →
  (update_index args < 0 ∨ Z.of_nat (length ts) ≤ update_index args →
     _update_task exn_text args w out
     = (Exited 1, loaded_world w ts,
        out ++ [to_stderr ("✗ Task " +:+ pretty (update_index args)
                           +:+ " not found")]))
  ∧ (0 ≤ update_index args < Z.of_nat (length ts) →
     cli_updates args = [] →
     _update_task exn_text args w out
     = (Exited 1, loaded_world w ts,
        out ++ [to_stderr "✗ No updates specified"]))
  ∧ (∀ t, 0 ≤ update_index args →
     first_match (id t) ts (Z.to_nat (update_index args)) t →
     cli_updates args ≠ [] →
     ∃ w' ts' t',
       _update_task exn_text args w out
       = (Returned (), w',
          out ++ [to_stdout ("✓ Task " +:+ pretty (update_index args)
                             +:+ " updated successfully")])
       ∧ stored w' ts' ∧ length ts' = length ts
       ∧ ts' !! Z.to_nat (update_index args) = Some t'
       ∧ id t' = id t ∧ created_at t' = created_at t
       ∧ completed t' = completed t
       ∧ title t' = (if optional_str_truthy (update_title args)
                     then default "" (update_title args) else title t)
       ∧ description t' = (if optional_str_truthy (update_description args)
                           then default "" (update_description args)
                           else description t)
       ∧ priority t' = (if optional_str_truthy (update_priority args)
                        then default "" (update_priority args) else priority t)
       ∧ due_date t' = (if optional_str_truthy (update_due args)
                        then update_due args else due_date t)).
Proof.
  intros Hh. pose proof (loaded_refs_to _ _ Hh) as Hrefs.
  split; [|split].
  - intros Hout%in_range_false. unfold _update_task.
    erewrite try_except_exited; [reflexivity|].
    erewrite cmd_bind_returned.
    2:{ apply lift_ok. rewrite (get_task_by_index_run w ts) by done.
        by rewrite Hout. }
    reflexivity.
  - intros Hin Hnone. pose proof (in_range_true _ _ Hin) as Hr.
    destruct (lookup_lt_is_Some_2 (loaded_refs w ts)
                (Z.to_nat (update_index args))) as [l Hl];
      [rewrite loaded_refs_length by done; lia|].
    unfold _update_task. erewrite try_except_exited; [reflexivity|].
    erewrite cmd_bind_returned.
    2:{ apply lift_ok. rewrite (get_task_by_index_run w ts) by done.
        by rewrite Hr, Hl. }
    by rewrite Hnone.
  - intros t H0 Hfirst Hsome. pose proof Hfirst as (Hk & _).
    assert (in_range (update_index args) (length ts) = true) as Hr.
    { apply in_range_true. apply lookup_lt_Some in Hk. lia. }
    destruct (lookup_lt_is_Some_2 (loaded_refs w ts)
                (Z.to_nat (update_index args))) as [l Hl];
      [rewrite loaded_refs_length by done; by eapply lookup_lt_Some|].
    destruct (refs_to_lookup _ _ _ _ _ Hrefs Hl) as (t0 & Ht0 & Hheap).
    simplify_eq.
    destruct (update_task_found (loaded_world w ts) ts (id t) (cli_updates args)
                (Z.to_nat (update_index args)) t)
      as (w' & ts' & Hrun & Hst & Hlen & Hk' & _);
      [apply cli_updates_plain|by apply holds_loaded_world|done|].
    exists w', ts', (apply_updates (cli_updates args) t).
    split; [|split; [done|split; [done|split; [done|apply cli_updates_fields]]]].
    unfold _update_task. erewrite try_except_returned; [reflexivity|].
    erewrite cmd_bind_returned.
    2:{ apply lift_ok. rewrite (get_task_by_index_run w ts) by done.
        by rewrite Hr, Hl. }
    destruct (cli_updates args) as [|kw kws] eqn:E; [done|].
    erewrite cmd_bind_returned by (by apply lift_ok, read_ok).
    erewrite cmd_bind_returned by (apply lift_ok; exact Hrun).
    reflexivity.
Qed.



Lemma Task_init_four_fields_invalid w title description priority due :
  priority ∉ valid_priorities →
  Task_init (<["title"%string := PStr title]>
             (<["description"%string := PStr description]>
             (<["priority"%string := PStr priority]>
             (<["due_date"%string := from_option PStr PNone due]> ∅)))) w
  = (Raise ValueError, set_ticks (S (S (ticks w))) w).
Proof.
  intros Hp. unfold Task_init.
  rewrite bool_decide_eq_true_2 by (apply (bool_decide_unpack _); by vm_compute).
  repeat (first [rewrite lookup_insert_eq | rewrite lookup_insert_ne by done]).
  rewrite lookup_empty.
  pose proof (invalid_priority_check _ Hp) as Hc.
  remember (PStr <$> valid_priorities) as vp.
  simpl. unfold mbind, M_bind, fmap, M_fmap. simpl. by rewrite Hc.
Qed.

Lemma holds_new_task w ts t n :
  holds w ts →
  holds (mkWorld (heap w ++ [t]) (store w) (uuid_src w) (clock_src w) n) ts.
Proof.
  intros [Hs Hl]. unfold holds, stored, loadable in *. simpl.
  destruct (store w); [|done]. split; [|done]. by apply refs_to_app_heap.
Qed.

Lemma loadable_saved_app w w' ls ts t :
  store w' = store w → loadable w ts → valid_task t →
  loadable (saved_world w' ls (ts ++ [t])) (ts ++ [t]).
Proof.
  intros E Hl Ht. unfold loadable, saved_world in *. rewrite E.
  destruct (store w); simpl; [done|].
  apply Forall_app. split; [done|]. by constructor.
Qed.

(** X27. The command [add] constructs the task before it calls the service.
    With a priority among low, medium and high it confirms on the output
    stream and the collection has one more task, at the end, with the given
    title, description, priority and due date, not completed, its id and its
    creation time drawn from the two generators, the id first.  With any
    other priority it writes the validation error on the error stream and
    ends with exit status 1 without reading or writing the storage. *)
Theorem add_command
    (exn_text : cli_exn → string) (w : world) (ts : list Task)
    (args : add_args) (out : list printed) :
  holds w ts →
  (add_priority args ∈ valid_priorities →
     ∃ w', _add_task exn_text args w out
           = (Returned (), w',
              out ++ [to_stdout ("✓ Task added successfully: "
                                 +:+ add_title args)])
           ∧ holds w' (ts ++ [mkTask (add_title args) (add_description args)
                                (add_priority args) (add_due args) false
                                (uuid_src w (ticks w))
                                (clock_src w (S (ticks w)))]))
  ∧ (add_priority args ∉ valid_priorities →
     _add_task exn_text args w out
     = (Exited 1, set_ticks (S (S (ticks w))) w,
        out ++ [to_stderr ("✗ Error adding task: "
                           +:+ exn_text (service_exn ValueError))])).
Proof.
  intros Hh. split.
  - intros Hp.
    set (t := mkTask (add_title args) (add_description args) (add_priority args)
                (add_due args) false (uuid_src w (ticks w))
                (clock_src w (S (ticks w)))).
    set (w1 := mkWorld (heap w ++ [t]) (store w) (uuid_src w) (clock_src w)
                 (S (S (ticks w)))).
    assert (holds w1 ts) as Hh1 by (by apply holds_new_task).
    assert (heap w1 !! length (heap w) = Some t) as Ht
      by (simpl; by rewrite lookup_app_r, Nat.sub_diag).
    pose proof (loaded_refs_to _ _ Hh1) as Hrefs.
    assert (refs_to (heap (loaded_world w1 ts))
              (loaded_refs w1 ts ++ [length (heap w)]) (ts ++ [t])) as Hrefs'.
    { apply Forall2_app; [done|].
      constructor; [|constructor]. by apply loaded_world_heap. }
    eexists. split.
    + unfold _add_task. erewrite try_except_returned; [reflexivity|].
      erewrite cmd_bind_returned
        by (by apply lift_ok, Task_init_four_fields_run).
      erewrite cmd_bind_returned by (by eapply lift_ok, add_task_run).
      erewrite cmd_bind_returned.
      2:{ apply lift_ok, read_ok. rewrite saved_world_heap.
          by apply loaded_world_heap. }
      reflexivity.
    + split; [by apply saved_world_stored|].
      apply (loadable_saved_app w); [by rewrite loaded_world_store|apply Hh|done].
  - intros Hp. unfold _add_task.
    erewrite try_except_raised.
    2:{ erewrite cmd_bind_raised; [reflexivity|].
        by apply lift_raise, Task_init_four_fields_invalid. }
    by rewrite report_run.
Qed.

Lemma format_statistics_defined ts :
  ∃ text, format_statistics (statistics_of ts) = inr text.
Proof.
  unfold format_statistics, statistics_of. cbn [stat_by_priority].
  rewrite !count_priorities_spec, !decide_True
    by (apply (bool_decide_unpack _); by vm_compute).
  by eexists.
Qed.

(** X28. The command [stats] never fails on a collection that loads: it
    writes the text of the statistics formatter for the statistics of the
    collection to the output stream, returns normally and persists nothing;
    in particular no [KeyError] arises between the service and the
    formatter, whatever the tasks. *)
Theorem stats_command
    (exn_text : cli_exn → string) (w : world) (ts : list Task)
    (out : list printed) :
  holds w ts →
  ∃ text,
    format_statistics (statistics_of ts) = inr text
    ∧ _show_stats exn_text w out
      = (Returned (), loaded_world w ts, out ++ [to_stdout text]).
Proof.
  intros Hh. destruct (format_statistics_defined ts) as [text Htext].
  exists text. split; [done|].
  unfold _show_stats. erewrite try_except_returned; [reflexivity|].
  erewrite cmd_bind_returned by (by apply lift_ok, get_statistics_run).
  by rewrite Htext.
Qed.


(** ** Instances of the further properties *)

Lemma holds_memory_of_two : holds memory_of_two [doc_task; bug_task].
Proof. split; [|done]. repeat constructor. Defined.

Lemma urgent_not_valid : "urgent"%string ∉ valid_priorities.
Proof. apply (bool_decide_unpack _). vm_compute. exact I. Defined.

Lemma no_task_handed (o : op) (h : list Task) :
  match o with op_add_task _ => False | _ => True end →
  ∀ task, o = op_add_task task → is_Some (h !! task).
Proof. intros Ho task ->. destruct Ho. Defined.

Lemma malformed_file_fails_every_call_witness :
  call (op_delete_task "1") malformed_file = (Raise IOError, malformed_file).
Proof. exact (malformed_file_fails_every_call malformed_file _ eq_refl). Defined.

Lemma unchecked_priority_locks_the_file_witness :
  ∃ w', update_task "2" [kw_priority "urgent"] file_of_three = (Ok true, w')
        ∧ ∀ o, fst (call o w') = Raise ValueError
               ∧ store (snd (call o w')) = store w'.
Proof.
  exact (unchecked_priority_locks_the_file file_of_three _ three_tasks "2" "urgent"
           1%nat bug_task eq_refl holds_file_of_three first_match_bug_task
           urgent_not_valid).
Defined.

Lemma service_calls_return_witness :
  fst (call (op_update_task "2" [kw_priority "urgent"; kw_other "colour"])
         memory_of_three) = Ok ().
Proof.
  apply (service_calls_return memory_of_three three_tasks _ holds_memory_of_three).
  - by repeat constructor.
  - by apply no_task_handed.
Defined.

Lemma holds_file_of_two : holds file_of_two [doc_task; bug_task].
Proof. split; [by right|]. repeat constructor. Defined.

Lemma file_storage_leaves_objects_alone_witness :
  ∃ built, heap (snd (call (op_add_task 2%nat) file_of_two))
           = [doc_task; bug_task; docs_task] ++ built.
Proof.
  apply (file_storage_leaves_objects_alone file_of_two [doc_task; bug_task]
           (op_add_task 2%nat) I holds_file_of_two).
  intros task [= <-]. by exists docs_task.
Defined.

Lemma absent_file_is_empty_collection_witness :
  get_all_tasks absent_file = (Ok [], absent_file).
Proof. exact (proj1 (absent_file_is_empty_collection absent_file eq_refl)). Defined.

Lemma save_then_load_witness :
  ∃ w', (save [0; 1; 2]%nat;; tasks ← load; mapM read tasks) memory_of_three
        = (Ok three_tasks, w').
Proof.
  exact (save_then_load memory_of_three _ three_tasks
           (proj1 holds_memory_of_three) (proj2 holds_memory_of_three)).
Defined.

Lemma in_memory_storage_shares_objects_witness :
  ∃ w' t', (add_task 2%nat;; update_task (id docs_task) [kw_completed true])
             memory_of_two = (Ok true, w')
           ∧ heap w' !! 2%nat = Some t'
           ∧ ∀ key, getattr key t'
                    = from_option Some (getattr key docs_task)
                        (named_value key [kw_completed true]).
Proof.
  apply (in_memory_storage_shares_objects memory_of_two [0; 1]%nat
           [doc_task; bug_task] 2%nat docs_task).
  - reflexivity.
  - exact holds_memory_of_two.
  - reflexivity.
  - repeat constructor; discriminate.
  - by repeat constructor.
Defined.

Lemma add_then_get_all_witness :
  ∃ w1, add_task 2%nat memory_of_two = (Ok (), w1)
        ∧ stored w1 ([doc_task; bug_task] ++ [docs_task])
        ∧ (loadable memory_of_two [docs_task] →
           ∃ w2, (tasks ← get_all_tasks; mapM read tasks) w1
                 = (Ok ([doc_task; bug_task] ++ [docs_task]), w2)).
Proof.
  exact (add_then_get_all memory_of_two _ 2%nat docs_task holds_memory_of_two eq_refl).
Defined.

Lemma get_task_by_id_first_match_witness :
  ∃ task w', get_task_by_id "2" file_of_three = (Ok (Some task), w')
             ∧ heap w' !! task = Some bug_task
             ∧ store w' = store file_of_three ∧ holds w' three_tasks.
Proof.
  exact (proj1 (get_task_by_id_first_match file_of_three three_tasks "2"
                  holds_file_of_three) 1%nat bug_task first_match_bug_task).
Defined.

Lemma get_task_by_index_in_range_witness :
  ∃ task w', get_task_by_index 2 file_of_three = (Ok (Some task), w')
             ∧ heap w' !! task = Some docs_task
             ∧ store w' = store file_of_three ∧ holds w' three_tasks.
Proof.
  apply get_task_by_index_in_range; [exact holds_file_of_three|lia|reflexivity].
Defined.

Lemma delete_task_by_index_in_range_witness :
  ∃ w' ts',
    delete_task_by_index 0 memory_of_twins = (Ok true, w')
    ∧ stored w' ts'
    ∧ S (length ts') = length [ann_task; bob_task]
    ∧ (∀ j, (j < Z.to_nat 0)%nat → ts' !! j = [ann_task; bob_task] !! j)
    ∧ (∀ j, (Z.to_nat 0 ≤ j)%nat → ts' !! j = [ann_task; bob_task] !! S j).
Proof.
  apply delete_task_by_index_in_range; [exact holds_memory_of_twins|].
  simpl. lia.
Defined.

Lemma filter_tasks_keeps_matching_witness :
  ∃ found w',
    filter_tasks (λ t, bool_decide (priority t = "high"%string)) memory_of_three
    = (Ok found, w')
    ∧ refs_to (heap w') found
        (filter (λ t, bool_decide (priority t = "high"%string) = true) three_tasks)
    ∧ store w' = store memory_of_three ∧ holds w' three_tasks.
Proof.
  exact (filter_tasks_keeps_matching memory_of_three _ _ holds_memory_of_three).
Defined.

Lemma search_tasks_empty_keyword_witness :
  ∃ found w',
    search_tasks "" file_of_three = (Ok found, w')
    ∧ refs_to (heap w') found three_tasks
    ∧ store w' = store file_of_three.
Proof. exact (search_tasks_empty_keyword file_of_three _ holds_file_of_three). Defined.

Lemma statistics_add_up_witness :
  ∃ stats w' low medium high,
    get_statistics memory_of_three = (Ok stats, w')
    ∧ stat_by_priority stats !! "low"%string = Some low
    ∧ stat_by_priority stats !! "medium"%string = Some medium
    ∧ stat_by_priority stats !! "high"%string = Some high
    ∧ 0 ≤ stat_completed stats ≤ stat_total stats
    ∧ stat_completed stats + stat_pending stats = stat_total stats
    ∧ low + medium + high = Z.of_nat (length (filter valid_task three_tasks))
    ∧ low + medium + high ≤ stat_total stats
    ∧ (Forall valid_task three_tasks → low + medium + high = stat_total stats).
Proof. exact (statistics_add_up memory_of_three _ holds_memory_of_three). Defined.

Lemma update_task_without_fields_witness :
  ∃ w', update_task "2" [kw_other "colour"] file_of_three = (Ok true, w')
        ∧ stored w' three_tasks.
Proof.
  apply (update_task_without_fields file_of_three three_tasks "2" _ 1%nat bug_task).
  - exact holds_file_of_three.
  - exact first_match_bug_task.
  - repeat constructor.
Defined.

Lemma delete_task_then_absent_witness :
  ∃ found w1 w2 w3,
    delete_task "7" memory_of_twins = (Ok found, w1)
    ∧ get_task_by_id "7" w1 = (Ok None, w2)
    ∧ delete_task "7" w2 = (Ok false, w3)
    ∧ store w3 = store w1.
Proof. exact (delete_task_then_absent memory_of_twins _ "7" holds_memory_of_twins). Defined.

Lemma update_task_twice_witness :
  ∃ w1 w2 ts' t',
    update_task "2" [kw_title "Fix login bug"; kw_priority "high"] file_of_three
    = (Ok true, w1)
    ∧ stored w1 ts'
    ∧ update_task "2" [kw_title "Fix login bug"; kw_priority "high"] w1
      = (Ok true, w2)
    ∧ stored w2 ts'
    ∧ ts' !! 1%nat = Some t'
    ∧ ∀ key, getattr key t'
             = from_option Some (getattr key bug_task)
                 (named_value key [kw_title "Fix login bug"; kw_priority "high"]).
Proof.
  apply (update_task_twice file_of_three three_tasks "2" _ 1%nat bug_task).
  - exact holds_file_of_three.
  - exact first_match_bug_task.
  - by repeat constructor.
  - reflexivity.
  - intros v Hv. apply elem_of_cons in Hv as [Hv|Hv]; [discriminate Hv|].
    apply list_elem_of_singleton in Hv. injection Hv as ->.
    apply (bool_decide_unpack _). vm_compute. exact I.
Defined.

Lemma bad_record_fails_every_call_witness :
  fst (call op_get_all_tasks file_with_untitled_record) = Raise TypeError
  ∧ store (snd (call op_get_all_tasks file_with_untitled_record))
    = store file_with_untitled_record.
Proof.
  apply (bad_record_fails_every_call file_with_untitled_record [doc_task]
           untitled_record []).
  - reflexivity.
  - repeat constructor.
  - left. vm_compute. reflexivity.
Defined.

Lemma medium_valid : "medium"%string ∈ valid_priorities.
Proof. apply (bool_decide_unpack _). vm_compute. exact I. Defined.

Lemma add_command_witness :
  ∃ w', _add_task class_name add_buy_milk file_of_three []
        = (Returned (), w', [] ++ [to_stdout "✓ Task added successfully: Buy milk"])
        ∧ holds w' (three_tasks ++ [mkTask "Buy milk" "" "medium" None false "" ""]).
Proof.
  exact (proj1 (add_command class_name file_of_three three_tasks add_buy_milk []
                  holds_file_of_three) medium_valid).
Defined.

Lemma formatters_show_every_title_witness :
  occurs_in (title bug_task) (simple_text three_tasks)
  ∧ occurs_in (title bug_task) (detailed_text three_tasks).
Proof.
  apply formatters_show_every_title. unfold three_tasks.
  apply list_elem_of_further, list_elem_of_here.
Defined.

Lemma commands_report_a_malformed_file_witness :
  ∃ w' what e,
    run_command class_name SimpleFormatter cmd_stats malformed_file []
    = (Exited 1, w', [to_stderr ("✗ Error " +:+ what +:+ ": " +:+ class_name e)])
    ∧ store w' = store malformed_file.
Proof.
  exact (commands_report_a_malformed_file class_name SimpleFormatter cmd_stats
           malformed_file eq_refl).
Defined.

Lemma complete_and_delete_commands_witness :
  _complete_task class_name 5 file_of_three []
  = (Exited 1, loaded_world file_of_three three_tasks,
     [] ++ [to_stderr ("✗ Task " +:+ pretty 5 +:+ " not found")])
  ∧ _delete_task class_name 5 file_of_three []
    = (Exited 1, loaded_world file_of_three three_tasks,
       [] ++ [to_stderr ("✗ Task " +:+ pretty 5 +:+ " not found")]).
Proof.
  apply (proj1 (complete_and_delete_commands class_name file_of_three three_tasks
                  5 [] holds_file_of_three)).
  right. simpl. lia.
Defined.

Lemma update_command_witness :
  ∃ w' ts' t',
    _update_task class_name update_second_title file_of_three []
    = (Returned (), w', [] ++ [to_stdout ("✓ Task " +:+ pretty 1
                                          +:+ " updated successfully")])
    ∧ stored w' ts' ∧ length ts' = 3%nat
    ∧ ts' !! 1%nat = Some t'
    ∧ id t' = "2"%string ∧ created_at t' = created_at bug_task
    ∧ completed t' = false
    ∧ title t' = "Fix login bug"%string
    ∧ description t' = description bug_task
    ∧ priority t' = priority bug_task
    ∧ due_date t' = due_date bug_task.
Proof.
  apply (proj2 (proj2 (update_command class_name file_of_three three_tasks
                         update_second_title [] holds_file_of_three)) bug_task).
  - simpl. lia.
  - exact first_match_bug_task.
  - discriminate.
Defined.


Lemma stats_command_witness :
  ∃ text,
    format_statistics (statistics_of three_tasks) = inr text
    ∧ _show_stats class_name file_of_three []
      = (Returned (), loaded_world file_of_three three_tasks,
         [] ++ [to_stdout text]).
Proof.
  exact (stats_command class_name file_of_three three_tasks [] holds_file_of_three).
Defined.

